(** * AlphaZero: the mnk game state and the parallel self-play driver

    A shallow embedding of
    - [AlphaZero/env/mnk.py] (class [GameState], exception [IllegalMove]);
    - [AlphaZero/train/parallel/selfplay.py] (class [Selfplay]);
    - [AlphaZero/network/main.py] (the learning-rate schedule of
      [Network.update]).

    Python methods mutate [self] and may raise.  They are embedded as
    computations in a state monad over the object's fields with an
    exception result and a log of the calls made to the outside world
    (sockets, queues, locks, the evaluator). *)

From Stdlib Require Import ZArith Lia Bool.
From stdpp Require Import base option list strings pretty gmap sorting.

Local Open Scope Z_scope.

(** ** Python computations: state, exceptions, observable calls *)

Module Py.

Section Computation.
Context {St Exn Ev : Type}.

(** Either the value returned or the exception raised. *)
Inductive pyres (A : Type) : Type :=
| Ok (a : A)
| Raise (e : Exn).

(** What a call leaves behind: its result, the state of the object after
    it, and the calls to collaborators it made, oldest first. *)
Record outcome (A : Type) : Type := Outcome {
  res : pyres A;
  final : St;
  events : list Ev
}.

Definition M (A : Type) : Type := St -> outcome A.

Definition ret {A} (a : A) : M A :=
  fun s => Outcome A (Ok A a) s [].

Definition raise {A} (e : Exn) : M A :=
  fun s => Outcome A (Raise A e) s [].

(** [o] with the calls [evs] made before it. *)
Definition logged {A} (evs : list Ev) (o : outcome A) : outcome A :=
  match o with
  | Outcome _ r s ev => Outcome A r s (evs ++ ev)
  end.

(** Sequencing: an exception in the first part skips the second and
    keeps the state as the first part left it. *)
Definition bind {A B} (m : M A) (k : A -> M B) : M B :=
  fun s =>
    match m s with
    | Outcome _ (Ok _ a) s1 ev1 => logged ev1 (k a s1)
    | Outcome _ (Raise _ e) s1 ev1 => Outcome B (Raise B e) s1 ev1
    end.

Definition get : M St := fun s => Outcome St (Ok St s) s [].

Definition gets {A} (f : St -> A) : M A := fun s => Outcome A (Ok A (f s)) s [].

Definition modify (f : St -> St) : M unit :=
  fun s => Outcome unit (Ok unit tt) (f s) [].

Definition emit (e : Ev) : M unit :=
  fun s => Outcome unit (Ok unit tt) s [e].

(** [for x in xs: body x] *)
Fixpoint for_each {A} (xs : list A) (body : A -> M unit) : M unit :=
  match xs with
  | [] => ret tt
  | x :: rest => bind (body x) (fun _ => for_each rest body)
  end.

Definition raised {A} (r : pyres A) : bool :=
  match r with Ok _ _ => false | Raise _ _ => true end.

End Computation.

(** The items a loop gets to when its body fails on the items that are
    not [ok]: every item up to and including the first such one. *)
Fixpoint served {A} (ok : A -> bool) (xs : list A) : list A :=
  match xs with
  | [] => []
  | x :: rest => if ok x then x :: served ok rest else [x]
  end.

Arguments pyres : clear implicits.
Arguments outcome : clear implicits.
Arguments M : clear implicits.
Arguments Ok {Exn A} a.
Arguments Raise {Exn A} e.
Arguments Outcome {St Exn Ev A} res final events.
Arguments res {St Exn Ev A} o.
Arguments final {St Exn Ev A} o.
Arguments events {St Exn Ev A} o.

End Py.

Import Py.

(** Python's statement sequencing, in the notation stdpp uses for its
    monads. *)
Declare Scope py_scope.
Delimit Scope py_scope with py.
Notation "x ← y ; z" := (bind y (fun x => z))
  (at level 20, y at level 100, z at level 200, only parsing) : py_scope.
Notation "y ;; z" := (bind y (fun _ => z))
  (at level 100, z at level 200, only parsing, right associativity) : py_scope.
Open Scope py_scope.

(** [seq[i]] for a Python or numpy sequence of length [n]: a negative
    index counts from the end, anything outside [-n, n) is an
    [IndexError]. *)
Definition py_index (n : nat) (i : Z) : option nat :=
  if 0 <=? i then (if i <? Z.of_nat n then Some (Z.to_nat i) else None)
  else if - Z.of_nat n <=? i then Some (Z.to_nat (Z.of_nat n + i))
  else None.

(** [str(n)] for an int. *)
Definition str_int (n : Z) : string := pretty n.

(** ** [AlphaZero/env/mnk.py] *)

Module Mnk.

Definition WHITE : Z := -1.
Definition BLACK : Z := 1.
Definition EMPTY : Z := 0.

Inductive exn : Type :=
| IllegalMove (msg : string)
| IndexError.

(** The fields of a [GameState] instance.  [board] is the numpy array
    as a list of rows; [winner] is [None], a player or [0] for a draw. *)
Record GameState : Type := mkGameState {
  width : Z;
  height : Z;
  k : Z;
  board : list (list Z);
  current_player : Z;
  history : list (Z * Z);
  history_length : Z;
  board_history : list (list (list Z));
  is_end_of_game : bool;
  winner : option Z;
  turns : Z
}.

Definition set_board (b : list (list Z)) (s : GameState) : GameState :=
  mkGameState (width s) (height s) (k s) b (current_player s) (history s)
    (history_length s) (board_history s) (is_end_of_game s) (winner s) (turns s).

Definition set_current_player (c : Z) (s : GameState) : GameState :=
  mkGameState (width s) (height s) (k s) (board s) c (history s)
    (history_length s) (board_history s) (is_end_of_game s) (winner s) (turns s).

Definition set_history (h : list (Z * Z)) (s : GameState) : GameState :=
  mkGameState (width s) (height s) (k s) (board s) (current_player s) h
    (history_length s) (board_history s) (is_end_of_game s) (winner s) (turns s).

Definition set_board_history (bh : list (list (list Z))) (s : GameState) : GameState :=
  mkGameState (width s) (height s) (k s) (board s) (current_player s) (history s)
    (history_length s) bh (is_end_of_game s) (winner s) (turns s).

Definition set_end (e : bool) (w : option Z) (s : GameState) : GameState :=
  mkGameState (width s) (height s) (k s) (board s) (current_player s) (history s)
    (history_length s) (board_history s) e w (turns s).

Definition set_turns (t : Z) (s : GameState) : GameState :=
  mkGameState (width s) (height s) (k s) (board s) (current_player s) (history s)
    (history_length s) (board_history s) (is_end_of_game s) (winner s) t.

(** Methods of [GameState] make no outside calls. *)
Definition Meth (A : Type) : Type := M GameState exn Empty_set A.

(** [np.zeros((height, width), dtype=int)] *)
Definition zeros (h w : Z) : list (list Z) :=
  replicate (Z.to_nat h) (replicate (Z.to_nat w) 0).

(** [GameState.__init__], with the three values read from [mnk.yaml]
    as arguments. *)
Definition init (board_width board_height cfg_k : Z) (hist_len : Z) : GameState :=
  mkGameState board_width board_height cfg_k
    (zeros board_height board_width)
    BLACK
    []
    hist_len
    (replicate (Z.to_nat (hist_len - 1)) (zeros board_height board_width))
    false
    None
    0.

Definition _on_board (s : GameState) (position : Z * Z) : bool :=
  let '(x, y) := position in
  (x >=? 0) && (y >=? 0) && (x <? height s) && (y <? width s).

(** [b[x][y]] *)
Definition board_get (b : list (list Z)) (x y : Z) : pyres exn Z :=
  match py_index (length b) x with
  | None => Raise IndexError
  | Some i =>
      match b !! i with
      | None => Raise IndexError
      | Some row =>
          match py_index (length row) y with
          | None => Raise IndexError
          | Some j =>
              match row !! j with
              | None => Raise IndexError
              | Some v => Ok v
              end
          end
      end
  end.

(** [b[x][y] = v] *)
Definition board_set (b : list (list Z)) (x y v : Z) : pyres exn (list (list Z)) :=
  match py_index (length b) x with
  | None => Raise IndexError
  | Some i =>
      match b !! i with
      | None => Raise IndexError
      | Some row =>
          match py_index (length row) y with
          | None => Raise IndexError
          | Some j => Ok (<[i := <[j := v]> row]> b)
          end
      end
  end.

Arguments _on_board : simpl never.
Arguments board_get : simpl never.
Arguments board_set : simpl never.

Definition lift {A} (r : pyres exn A) : Meth A :=
  match r with
  | Ok a => ret a
  | Raise e => raise e
  end.

Definition is_legal (action : Z * Z) : Meth bool :=
  let '(x, y) := action in
   s ← get;
   if negb (_on_board s action) then ret false
   else
     v ← lift (board_get (board s) x y);
     if negb (v =? EMPTY) then ret false
     else ret true.

Definition get_winner : Meth (option Z) := gets winner.

(** [str(action)] for a pair of ints. *)
Definition str_action (action : Z * Z) : string :=
  "(" +:+ str_int (fst action) +:+ ", " +:+ str_int (snd action) +:+ ")".

(** [color or self.current_player]: [None] and [0] are falsy. *)
Definition color_or (color : option Z) (current : Z) : Z :=
  match color with
  | None => current
  | Some c => if c =? 0 then current else c
  end.

(** One of the eight counting loops of [do_move]:
    [while self._on_board((xp, yp)) and self.board[xp][yp] == self.current_player:
       xp += dx; yp += dy; count += 1].
    [fuel] bounds the number of iterations. *)
Fixpoint count_line (fuel : nat) (xp yp dx dy count : Z) : Meth Z :=
  match fuel with
  | O => ret count
  | S fuel' =>
      s ← get;
       if _on_board s (xp, yp) then
         v ← lift (board_get (board s) xp yp);
         if v =? current_player s
         then count_line fuel' (xp + dx) (yp + dy) dx dy (count + 1)
         else ret count
       else ret count
  end.

(** No counting loop runs longer than the longer side of the board. *)
Definition line_fuel (s : GameState) : nat :=
  Z.to_nat (Z.max (height s) (width s)).

Definition do_move (action : Z * Z) (color : option Z) : Meth bool :=
  current ← gets current_player;
   let color := color_or color current in
   let reset_player := current in
   modify (set_current_player color);;
   legal ← is_legal action;
   if legal then
     (* save current board to history before it is modified *)
     b ← gets board;
     modify (fun s => set_board_history (board_history s ++ [b]) s);;
     modify (fun s => set_board_history (tail (board_history s)) s);;
     modify (fun s => set_history (history s ++ [action]) s);;
     (* do action *)
     let '(x, y) := action in
     b ← gets board;
     b' ← lift (board_set b x y color);
     modify (set_board b');;
     modify (fun s => set_turns (turns s + 1) s);;
     (* check if the current player wins by the move *)
     fuel ← gets line_fuel;
     h_count ← count_line fuel (x + 1) y 1 0 1;
     h_count ← count_line fuel (x - 1) y (-1) 0 h_count;
     v_count ← count_line fuel x (y + 1) 0 1 1;
     v_count ← count_line fuel x (y - 1) 0 (-1) v_count;
     diag1_count ← count_line fuel (x + 1) (y + 1) 1 1 1;
     diag1_count ← count_line fuel (x - 1) (y - 1) (-1) (-1) diag1_count;
     diag2_count ← count_line fuel (x + 1) (y - 1) 1 (-1) 1;
     diag2_count ← count_line fuel (x - 1) (y + 1) (-1) 1 diag2_count;
     s ← get;
     (if (h_count >=? k s) || (v_count >=? k s)
         || (diag1_count >=? k s) || (diag2_count >=? k s)
      then modify (set_end true (Some (current_player s)))
      else if turns s =? height s * width s
      then modify (set_end true (Some 0))
      else ret tt);;
     (* next turn *)
     modify (set_current_player (- color));;
     gets is_end_of_game
   else
     modify (set_current_player reset_player);;
     raise (IllegalMove (str_action action)).

(** The board has the shape the constructor gave it. *)
Definition well_shaped (s : GameState) : Prop :=
  Z.of_nat (length (board s)) = Z.max 0 (height s) /\
  Forall (fun row => Z.of_nat (length row) = Z.max 0 (width s)) (board s).

(** A method that never raises [IllegalMove]. *)
Definition never_illegal {A} (m : Meth A) : Prop :=
  forall s msg, res (m s) <> Raise (IllegalMove msg).

End Mnk.

(** ** [AlphaZero/train/parallel/selfplay.py] *)

Module Selfplay.

Definition bytes : Type := list Byte.byte.

#[global] Instance byte_eq_dec : EqDecision Byte.byte := Byte.byte_eq_dec.

(** Objects that travel through the control pipe, the data queue and
    pickled frames: model identifiers, step numbers, flags, and game
    histories (opaque to this file). *)
Inductive pyobj : Type :=
| PyBool (b : bool)
| PyInt (n : Z)
| PyStr (s : string)
| PyData (d : list Z).

#[global] Instance pyobj_eq_dec : EqDecision pyobj.
Proof. solve_decision. Defined.

(** Python's truth value of [d.get(key)]. *)
Definition truthy (v : option pyobj) : bool :=
  match v with
  | None => false
  | Some (PyBool b) => b
  | Some (PyInt n) => negb (n =? 0)
  | Some (PyStr s) => negb (String.eqb s "")
  | Some (PyData d) => negb (Nat.eqb (length d) 0)
  end.

(** [str(x)] *)
Definition py_str (x : pyobj) : string :=
  match x with
  | PyBool true => "True"
  | PyBool false => "False"
  | PyInt n => str_int n
  | PyStr s => s
  | PyData d => "[" +:+ String.concat ", " (map str_int d) +:+ "]"
  end.

(** A Python [dict] from addresses to flags: insertion ordered, one
    entry per key. *)
Fixpoint dict_set (d : list (string * bool)) (key : string) (v : bool)
  : list (string * bool) :=
  match d with
  | [] => [(key, v)]
  | (key', v') :: rest =>
      if decide (key' = key) then (key', v) :: rest
      else (key', v') :: dict_set rest key v
  end.

Fixpoint dict_get (d : list (string * bool)) (key : string) : option bool :=
  match d with
  | [] => None
  | (key', v') :: rest => if decide (key' = key) then Some v' else dict_get rest key
  end.

Definition dict_items (d : list (string * bool)) : list (string * bool) := d.

Definition dict_keys (d : list (string * bool)) : list string := d.*1.

Inductive exn : Type :=
| GameError          (* raised while constructing or playing the game *)
| QueueError         (* raised by [data_queue.put] *)
| UnpicklingError    (* raised by [pickle.loads] *)
| LoadError          (* raised by [nn_eval.load] *)
| ConnectionError.   (* raised by the transport *)

#[global] Instance exn_eq_dec : EqDecision exn.
Proof. solve_decision. Defined.

(** The three thread targets of [run]. *)
Inductive handler : Type :=
| remote_update_hndl
| rcv_remote_hndl
| model_update_hndl.

#[global] Instance handler_eq_dec : EqDecision handler.
Proof. solve_decision. Defined.

(** Calls made to the outside, in program order. *)
Inductive event : Type :=
| printlog (words : list string)
| r_acquire                                   (* nn_eval.rwlock.r_acquire() *)
| r_release                                   (* nn_eval.rwlock.r_release() *)
| sem_acquire                                 (* worker_lim.acquire() *)
| sem_release                                 (* worker_lim.release() *)
| game_new                                    (* _gameplay.Game(...) *)
| game_start                                  (* game.start() *)
| game_get_history                            (* game.get_history() *)
| queue_put (obj : pyobj)                     (* data_queue.put(obj) *)
| thread_start (target : handler) (name : string)
| process_start (name : string)
| sock_bind (port : Z)
| sock_listen
| sock_accept (addr : string)
| sock_recv (chunk : bytes)
| unpickle (buf : bytes)                      (* pickle.loads(buf) *)
| sock_close (addr : string)
| remote_put (addr : string) (port : Z) (obj : pyobj)   (* Remote_Queue(addr, port).put(obj) *)
| frame_sent (addr : string) (port : Z) (payload : bytes)
| nn_load (obj : pyobj).                      (* nn_eval.load(obj) *)

#[global] Instance event_eq_dec : EqDecision event.
Proof. solve_decision. Defined.

(** What [Remote_Queue(addr, port).put] can do. *)
Inductive put_result : Type :=
| put_sent              (* connected and wrote the frame *)
| put_failed_reported   (* could not reach the peer: reports and returns *)
| put_failed_raised.    (* could not reach the peer: raises *)

(** How the collaborators answer. *)
Record world : Type := mkWorld {
  pickle_dumps : pyobj -> bytes;
  pickle_loads : bytes -> option pyobj;     (* [None]: not a pickle *)
  queue_put_ok : pyobj -> bool;             (* [data_queue.put] returns *)
  load_ok : pyobj -> bool;                  (* [nn_eval.load] succeeds *)
  transport : string -> Z -> put_result
}.

(** Modelled from the spec: the error behaviour of [Remote_Queue.put]
    ([AlphaZero/train/parallel/util.py] is not among the sources).  The
    spec's 4.4 and 7(1): a registered remote that cannot be reached is
    reported (logged) and skipped, and the notification of the others
    goes on; so [put] to an unreachable peer reports and returns. *)
Definition Remote_Queue_spec (reachable : string -> Z -> bool)
  : string -> Z -> put_result :=
  fun addr port => if reachable addr port then put_sent else put_failed_reported.

Definition with_transport (t : string -> Z -> put_result) (w : world) : world :=
  mkWorld (pickle_dumps w) (pickle_loads w) (queue_put_ok w) (load_ok w) t.

(** One game as the game engine plays it: whether [Game(...)] and
    [start()] return, and what [get_history()] gives ([None]: raises). *)
Record game_run : Type := mkGameRun {
  game_new_ok : bool;
  game_start_ok : bool;
  game_history : option pyobj
}.

(** The fields of a [Selfplay] instance, with the state of the objects
    it shares with its worker processes: the evaluator's read/write
    lock and active model, the semaphore, the data queue. *)
Record state : Type := mkState {
  num_worker : nat;
  remote_port : Z;
  remote_update_port : Z;
  remote_worker_reg : list (string * bool);
  worker_lim : nat;                  (* value of the semaphore *)
  game_name : string;                (* game_config['name'] *)
  ext_remote : option pyobj;         (* ext_config.get('remote') *)
  rwlock_readers : nat;              (* holders of nn_eval.rwlock's read side *)
  nn_model : option pyobj;           (* what nn_eval last loaded *)
  data_queue : list pyobj
}.

Definition set_remote_worker_reg (r : list (string * bool)) (s : state) : state :=
  mkState (num_worker s) (remote_port s) (remote_update_port s) r (worker_lim s)
    (game_name s) (ext_remote s) (rwlock_readers s) (nn_model s) (data_queue s).

Definition set_worker_lim (n : nat) (s : state) : state :=
  mkState (num_worker s) (remote_port s) (remote_update_port s)
    (remote_worker_reg s) n
    (game_name s) (ext_remote s) (rwlock_readers s) (nn_model s) (data_queue s).

Definition set_rwlock_readers (n : nat) (s : state) : state :=
  mkState (num_worker s) (remote_port s) (remote_update_port s)
    (remote_worker_reg s) (worker_lim s)
    (game_name s) (ext_remote s) n (nn_model s) (data_queue s).

Definition set_nn_model (m : option pyobj) (s : state) : state :=
  mkState (num_worker s) (remote_port s) (remote_update_port s)
    (remote_worker_reg s) (worker_lim s)
    (game_name s) (ext_remote s) (rwlock_readers s) m (data_queue s).

Definition set_data_queue (q : list pyobj) (s : state) : state :=
  mkState (num_worker s) (remote_port s) (remote_update_port s)
    (remote_worker_reg s) (worker_lim s)
    (game_name s) (ext_remote s) (rwlock_readers s) (nn_model s) q.

Definition Meth (A : Type) : Type := M state exn event A.

(** [Selfplay.__init__]: [ext_config] gives the worker limit, the two
    ports and the [remote] flag, [game_config] the name. *)
Definition init (cfg_num_worker : nat) (cfg_remote_port cfg_remote_update_port : Z)
    (cfg_name : string) (cfg_remote : option pyobj) : state :=
  mkState cfg_num_worker cfg_remote_port cfg_remote_update_port
    []                       (* self.remote_worker_reg = {} *)
    cfg_num_worker           (* self.worker_lim = mp.Semaphore(self.num_worker) *)
    cfg_name cfg_remote 0%nat None [].

(** *** Collaborators *)

Definition printlog_thrd (words : list string) : Meth unit := emit (printlog words).

(** Modelled from the spec: the read side of [nn_eval.rwlock]
    ([AlphaZero/evaluator/nn_eval_parallel.py] is not among the
    sources), as the number of holders.  Waiting for a writer is not
    represented. *)
Definition rwlock_r_acquire : Meth unit :=
  emit r_acquire;;
  modify (fun s => set_rwlock_readers (S (rwlock_readers s)) s).

Definition rwlock_r_release : Meth unit :=
  emit r_release;;
  modify (fun s => set_rwlock_readers (pred (rwlock_readers s)) s).

(** [mp.Semaphore.release()] *)
Definition worker_lim_release : Meth unit :=
  emit sem_release;;
  modify (fun s => set_worker_lim (S (worker_lim s)) s).

(** [mp.Semaphore.acquire()] once the value is positive; the caller
    waits while it is zero (see [sys_step]). *)
Definition worker_lim_acquire : Meth unit :=
  emit sem_acquire;;
  modify (fun s => set_worker_lim (pred (worker_lim s)) s).

Definition Game_new (g : game_run) : Meth unit :=
  emit game_new;;
  if game_new_ok g then ret tt else raise GameError.

Definition Game_start (g : game_run) : Meth unit :=
  emit game_start;;
  if game_start_ok g then ret tt else raise GameError.

Definition Game_get_history (g : game_run) : Meth pyobj :=
  emit game_get_history;;
  match game_history g with
  | Some data => ret data
  | None => raise GameError
  end.

Definition data_queue_put (w : world) (obj : pyobj) : Meth unit :=
  emit (queue_put obj);;
  if queue_put_ok w obj
  then modify (fun s => set_data_queue (data_queue s ++ [obj]) s)
  else raise QueueError.

(** [nn_eval.load(obj)]: the call, and whether it returns or raises.
    [nn_model] keeps the model of the last call that returned.  What
    the evaluator serves after a call that raised is the matter of
    [nn_eval_parallel.py], which is not among the sources. *)
Definition nn_eval_load (w : world) (obj : pyobj) : Meth unit :=
  emit (nn_load obj);;
  if load_ok w obj
  then modify (set_nn_model (Some obj))
  else raise LoadError.

Definition pickle_loads_or_raise (w : world) (buf : bytes) : Meth pyobj :=
  emit (unpickle buf);;
  match pickle_loads w buf with
  | Some obj => ret obj
  | None => raise UnpicklingError
  end.

(** [Remote_Queue(addr, port).put(obj)] *)
Definition Remote_Queue_put (w : world) (addr : string) (port : Z) (obj : pyobj)
  : Meth unit :=
  emit (remote_put addr port obj);;
  match transport w addr port with
  | put_sent => emit (frame_sent addr port (pickle_dumps w obj))
  | put_failed_reported => printlog_thrd ["remote unreachable"; addr]
  | put_failed_raised => raise ConnectionError
  end.

(** *** Methods of [Selfplay] *)

Definition selfplay_wrapper (w : world) (g : game_run) : Meth unit :=
  (* process comm *)
  rwlock_r_acquire;;
  (* start game *)
  Game_new g;;
  Game_start g;;
  (* get game history *)
  data ← Game_get_history g;
  (* put in queue *)
  data_queue_put w data;;
  (* process comm *)
  rwlock_r_release;;
  worker_lim_release.

(** [run] up to its launching loop. *)
Definition run_threads : Meth unit :=
  emit (printlog ["start"]);;
  remote ← gets ext_remote;
  if truthy remote then
    emit (thread_start remote_update_hndl "selfplay_remote_update_hndl")
  else
    emit (thread_start rcv_remote_hndl "selfplay_rcv_remote_hndl");;
    emit (thread_start model_update_hndl "selfplay_model_update_hndl").

(** The two statements of the launching loop's body. *)
Definition run_acquire : Meth unit := worker_lim_acquire.

Definition run_start (cnt : nat) : Meth unit :=
  name ← gets game_name;
  emit (process_start (name +:+ "_selfplay_game_" +:+ str_int (Z.of_nat cnt))).

Definition ckpt_path (name : string) (path : pyobj) : string :=
  "./" +:+ name +:+ "_model/ckpt-" +:+ py_str path.

(** The body of [model_update_handler]'s loop, for the [path] that
    [self.r_conn.recv()] returned. *)
Definition model_update_once (w : world) (path : pyobj) : Meth unit :=
  reg ← gets remote_worker_reg;
  for_each (dict_items reg) (fun '(addr, _) =>
    printlog_thrd ["remote update"; addr];;
    port ← gets remote_update_port;
    name ← gets game_name;
    Remote_Queue_put w addr port (PyStr (ckpt_path name path)));;
  name ← gets game_name;
  nn_eval_load w (PyStr (ckpt_path name path)).

(** [model_update_handler], for the messages the control pipe delivers. *)
Definition model_update_handler (w : world) (control : list pyobj) : Meth unit :=
  printlog_thrd ["listening"];;
  for_each control (model_update_once w).

(** A connection as the listening socket sees it: the peer's address
    and what successive [recv] calls return; after the last chunk the
    peer has closed and [recv] returns [b'']. *)
Record connection : Type := mkConnection {
  client_address : string;
  stream : list bytes
}.

(** The inner loop of both receiving handlers:
    [while True: receiving_buffer = conn.recv(2 ** 20);
       if not len(receiving_buffer): break;
       ultimate_buffer += receiving_buffer]. *)
Fixpoint recv_until_eof (chunks : list bytes) (ultimate_buffer : bytes) : Meth bytes :=
  match chunks with
  | [] => emit (sock_recv []);; ret ultimate_buffer
  | receiving_buffer :: rest =>
      emit (sock_recv receiving_buffer);;
      if Nat.eqb (length receiving_buffer) 0 then ret ultimate_buffer
      else recv_until_eof rest (ultimate_buffer ++ receiving_buffer)
  end.

(** The body of [rcv_remote_data_handler]'s outer loop, for the
    connection [accept] returned. *)
Definition rcv_remote_data_once (w : world) (c : connection) : Meth unit :=
  emit sock_listen;;
  printlog_thrd ["waiting for a connection..."];;
  emit (sock_accept (client_address c));;
  printlog_thrd ["connected to"; client_address c];;
  ultimate_buffer ← recv_until_eof (stream c) [];
  final_image ← pickle_loads_or_raise w ultimate_buffer;
  emit (sock_close (client_address c));;
  printlog_thrd ["frame received"];;
  data_queue_put w final_image;;
  modify (fun s => set_remote_worker_reg
                     (dict_set (remote_worker_reg s) (client_address c) true) s).

Definition rcv_remote_data_handler (w : world) (incoming : list connection) : Meth unit :=
  port ← gets remote_port;
  emit (sock_bind port);;
  for_each incoming (rcv_remote_data_once w).

(** The body of [remote_update_handler]'s outer loop. *)
Definition remote_update_once (w : world) (c : connection) : Meth unit :=
  emit sock_listen;;
  printlog_thrd ["waiting for a connection..."];;
  emit (sock_accept (client_address c));;
  printlog_thrd ["connected to"; client_address c];;
  ultimate_buffer ← recv_until_eof (stream c) [];
  final_image ← pickle_loads_or_raise w ultimate_buffer;
  emit (sock_close (client_address c));;
  printlog_thrd ["frame received"];;
  nn_eval_load w final_image.

Definition remote_update_handler (w : world) (incoming : list connection) : Meth unit :=
  port ← gets remote_update_port;
  emit (sock_bind port);;
  for_each incoming (remote_update_once w).

(** *** The component as a whole *)

(** The Selfplay object with what it shares, the launcher's position
    in its loop ([holding]: between [acquire()] and [start()]), the
    number of launches so far, the worker units alive (by launch
    number) and the handler threads alive. *)
Record system : Type := mkSystem {
  self : state;
  holding : bool;
  cnt : nat;
  running : list nat;
  threads : list handler
}.

(** What can happen next. *)
Inductive action : Type :=
| launcher_acquire                       (* self.worker_lim.acquire() returns *)
| launcher_start                         (* mp.Process(...).start(); cnt += 1 *)
| unit_ends (i : nat) (g : game_run)     (* unit [i] reaches the end of its wrapper *)
| data_connects (c : connection)         (* a peer connects to [remote_port] *)
| update_connects (c : connection)       (* a peer connects to [remote_update_port] *)
| control_delivers (path : pyobj).       (* [r_conn.recv()] returns *)

Definition threads_started (evs : list event) : list handler :=
  omap (fun e => match e with thread_start h _ => Some h | _ => None end) evs.

(** [Selfplay.run] has started its threads and stands before its loop. *)
Definition sys_init (s0 : state) : system :=
  let o := run_threads s0 in
  mkSystem (final o) false 0%nat [] (threads_started (events o)).

(** One turn of the loop of handler [h] with body [m]; a body that
    raises ends its thread. *)
Definition thread_step (h : handler) (m : Meth unit) (y : system) : option system :=
  if decide (h ∈ threads y) then
    let o := m (self y) in
    Some (mkSystem (final o) (holding y) (cnt y) (running y)
            (if raised (res o) then filter (fun h' => h' ≠ h) (threads y)
             else threads y))
  else None.

(** A worker unit's effects on the shared state are applied when it
    ends; its one semaphore operation is its last statement. *)
Definition sys_step (w : world) (a : action) (y : system) : option system :=
  match a with
  | launcher_acquire =>
      if holding y then None
      else if Nat.eqb (worker_lim (self y)) 0 then None     (* the launcher waits *)
      else
        let o := run_acquire (self y) in
        Some (mkSystem (final o) true (cnt y) (running y) (threads y))
  | launcher_start =>
      if holding y then
        let o := run_start (cnt y) (self y) in
        Some (mkSystem (final o) false (S (cnt y)) (cnt y :: running y) (threads y))
      else None
  | unit_ends i g =>
      if decide (i ∈ running y) then
        let o := selfplay_wrapper w g (self y) in
        Some (mkSystem (final o) (holding y) (cnt y)
                (filter (fun j => j ≠ i) (running y)) (threads y))
      else None
  | data_connects c => thread_step rcv_remote_hndl (rcv_remote_data_once w c) y
  | update_connects c => thread_step remote_update_hndl (remote_update_once w c) y
  | control_delivers path => thread_step model_update_hndl (model_update_once w path) y
  end.

Fixpoint sys_run (w : world) (schedule : list action) (y : system) : option system :=
  match schedule with
  | [] => Some y
  | a :: rest =>
      match sys_step w a y with
      | Some y' => sys_run w rest y'
      | None => None
      end
  end.

(** *** Vocabulary of the properties *)

(** How often a call occurs in a log. *)
Definition times (e : event) (evs : list event) : nat := count_occ event_eq_dec evs e.

(** Whether some collaborator of the unit raises: the game engine at
    construction, at [start()] or at [get_history()], or the queue. *)
Definition unit_raises (w : world) (g : game_run) : bool :=
  negb (game_new_ok g && game_start_ok g &&
        match game_history g with
        | Some data => queue_put_ok w data
        | None => false
        end).

(** The unit gave back its read lock and its slot, once each. *)
Definition released_once (s : state) (o : outcome state exn event unit) : Prop :=
  times r_release (events o) = 1%nat /\
  times sem_release (events o) = 1%nat /\
  rwlock_readers (final o) = rwlock_readers s /\
  worker_lim (final o) = S (worker_lim s).

(** Slots taken from the semaphore: one while the launcher stands
    between [acquire()] and [start()], one per live unit. *)
Definition slots_in_use (y : system) : nat :=
  ((if holding y then 1 else 0) + length (running y))%nat.

Definition slots_ok (N : nat) (y : system) : Prop :=
  (worker_lim (self y) + slots_in_use y <= N)%nat.

Definition same_worker_lim : relation state :=
  fun s s' => worker_lim s' = worker_lim s.

(** What successive [recv] calls returned on a connection, the empty
    chunk that ended the reading included. *)
Fixpoint reads (chunks : list bytes) : list bytes :=
  match chunks with
  | [] => [[]]
  | c :: rest => if Nat.eqb (length c) 0 then [c] else c :: reads rest
  end.

(** The bytes a connection delivered before its end. *)
Fixpoint received (chunks : list bytes) : bytes :=
  match chunks with
  | [] => []
  | c :: rest => if Nat.eqb (length c) 0 then [] else c ++ received rest
  end.

(** The frame of a connection: its bytes, unpickled. *)
Definition frame (w : world) (c : connection) : option pyobj :=
  pickle_loads w (received (stream c)).

(** The calls of a receiving handler on one connection: accepting and
    reading to the end with one [pickle.loads] of all the bytes, then
    (for a frame that unpickles) closing. *)
Definition session_open (c : connection) : list event :=
  [sock_listen; printlog ["waiting for a connection..."];
   sock_accept (client_address c); printlog ["connected to"; client_address c]]
  ++ map sock_recv (reads (stream c))
  ++ [unpickle (received (stream c))].

Definition session_close (c : connection) : list event :=
  [sock_close (client_address c); printlog ["frame received"]].

Definition data_session (w : world) (c : connection) : list event :=
  session_open c ++
  match frame w c with
  | Some obj => session_close c ++ [queue_put obj]
  | None => []
  end.

Definition update_session (w : world) (c : connection) : list event :=
  session_open c ++
  match frame w c with
  | Some obj => session_close c ++ [nn_load obj]
  | None => []
  end.

(** The connection's frame unpickles and the handler's use of it returns. *)
Definition data_frame_ok (w : world) (c : connection) : bool :=
  match frame w c with
  | Some obj => queue_put_ok w obj
  | None => false
  end.

Definition update_frame_ok (w : world) (c : connection) : bool :=
  match frame w c with
  | Some obj => load_ok w obj
  | None => false
  end.

(** The state after the data receiver has served a connection whose
    frame was good. *)
Definition data_done (w : world) (s : state) (c : connection) : state :=
  match frame w c with
  | Some obj =>
      set_remote_worker_reg
        (dict_set (remote_worker_reg s) (client_address c) true)
        (set_data_queue (data_queue s ++ [obj]) s)
  | None => s
  end.

Definition count_if (p : event -> bool) (evs : list event) : nat :=
  length (List.filter p evs).

Definition is_accept (e : event) : bool :=
  match e with sock_accept _ => true | _ => false end.

Definition is_unpickle (e : event) : bool :=
  match e with unpickle _ => true | _ => false end.

Definition is_close (e : event) : bool :=
  match e with sock_close _ => true | _ => false end.

(** The calls of a model update: to a remote queue, to the evaluator. *)
Definition is_update_call (e : event) : bool :=
  match e with remote_put _ _ _ | nn_load _ => true | _ => false end.

Definition is_fan_out (e : event) : bool :=
  match e with remote_put _ _ _ | frame_sent _ _ _ => true | _ => false end.

(** Every model identifier in the call is [id]. *)
Definition carries (w : world) (id : pyobj) (e : event) : Prop :=
  match e with
  | remote_put _ _ obj => obj = id
  | frame_sent _ _ payload => payload = pickle_dumps w id
  | nn_load obj => obj = id
  | _ => True
  end.

(** [Remote_Queue(addr, port).put] returns (having sent, or having
    reported that it could not). *)
Definition put_returns (w : world) (port : Z) (addr : string) : bool :=
  match transport w addr port with
  | put_failed_raised => false
  | _ => true
  end.

(** The calls of a model update for one registered address. *)
Definition notify_events (w : world) (port : Z) (id : pyobj) (addr : string)
  : list event :=
  [printlog ["remote update"; addr]; remote_put addr port id] ++
  match transport w addr port with
  | put_sent => [frame_sent addr port (pickle_dumps w id)]
  | put_failed_reported => [printlog ["remote unreachable"; addr]]
  | put_failed_raised => []
  end.

(** [stable R m]: whatever state [m] starts in, the state it ends in
    (by return or by exception) is [R]-related to it. *)
Definition stable {A} (R : relation state) (m : Meth A) : Prop :=
  forall s, R s (final (m s)).

Definition keys_grow : relation state :=
  fun s s' => dict_keys (remote_worker_reg s) ⊆ dict_keys (remote_worker_reg s').

Definition same_reg : relation state :=
  fun s s' => remote_worker_reg s' = remote_worker_reg s.

(** A pickle of strings for the examples: a tag byte and the text. *)
Definition tag_dumps (obj : pyobj) : bytes :=
  match obj with
  | PyStr t => Byte.x53 :: String.list_byte_of_string t
  | PyBool b => [Byte.x42; if b then Byte.x31 else Byte.x30]
  | PyInt n => Byte.x49 :: String.list_byte_of_string (str_int n)
  | PyData d => Byte.x44 :: String.list_byte_of_string (String.concat "," (map str_int d))
  end.

Definition tag_loads (buf : bytes) : option pyobj :=
  match buf with
  | Byte.x53 :: rest => Some (PyStr (String.string_of_list_byte rest))
  | [Byte.x42; Byte.x31] => Some (PyBool true)
  | [Byte.x42; Byte.x30] => Some (PyBool false)
  | _ => None
  end.

(** A world where every collaborator answers and every peer is reachable. *)
Definition calm : world :=
  mkWorld tag_dumps tag_loads (fun _ => true) (fun _ => true) (fun _ _ => put_sent).

End Selfplay.

(** * Theorems *)

(** ** Laws of Python computations *)

Section ComputationLaws.
Context {St Exn Ev : Type}.
Implicit Types s : St.

Lemma res_logged {A} evs (o : outcome St Exn Ev A) : res (logged evs o) = res o.
Proof. destruct o; reflexivity. Qed.

Lemma final_logged {A} evs (o : outcome St Exn Ev A) : final (logged evs o) = final o.
Proof. destruct o; reflexivity. Qed.

Lemma events_logged {A} evs (o : outcome St Exn Ev A) :
  events (logged evs o) = evs ++ events o.
Proof. destruct o; reflexivity. Qed.

Lemma bind_run {A B} (m : M St Exn Ev A) (k : A -> M St Exn Ev B) s r s1 ev1 :
  m s = Outcome r s1 ev1 ->
  bind m k s =
  match r with
  | Ok a => logged ev1 (k a s1)
  | Raise e => Outcome (Raise e) s1 ev1
  end.
Proof. intros H. unfold bind. rewrite H. destruct r; reflexivity. Qed.

Lemma bind_ret {A B} (a : A) (k : A -> M St Exn Ev B) s :
  bind (ret a) k s = k a s.
Proof. unfold bind, ret. destruct (k a s); reflexivity. Qed.

Lemma bind_get {B} (k : St -> M St Exn Ev B) s :
  bind get k s = k s s.
Proof. unfold bind, get. destruct (k s s); reflexivity. Qed.

Lemma bind_gets {A B} (f : St -> A) (k : A -> M St Exn Ev B) s :
  bind (gets f) k s = k (f s) s.
Proof. unfold bind, gets. destruct (k (f s) s); reflexivity. Qed.

Lemma bind_modify {B} (f : St -> St) (k : unit -> M St Exn Ev B) s :
  bind (modify f) k s = k tt (f s).
Proof. unfold bind, modify. destruct (k tt (f s)); reflexivity. Qed.

Lemma bind_emit {B} (e : Ev) (k : unit -> M St Exn Ev B) s :
  bind (emit e) k s = logged [e] (k tt s).
Proof. reflexivity. Qed.

Lemma bind_raise_now {A B} (e : Exn) (k : A -> M St Exn Ev B) s :
  bind (raise e) k s = Outcome (Raise e) s [].
Proof. reflexivity. Qed.

Lemma bind_assoc {A B C} (m : M St Exn Ev A) (k1 : A -> M St Exn Ev B)
      (k2 : B -> M St Exn Ev C) s :
  bind (bind m k1) k2 s = bind m (fun a => bind (k1 a) k2) s.
Proof.
  unfold bind. destruct (m s) as [[a|e] s1 ev1]; [| reflexivity].
  destruct (k1 a s1) as [[b|e] s2 ev2]; cbn; [| reflexivity].
  destruct (k2 b s2) as [r s3 ev3]; cbn. rewrite app_assoc. reflexivity.
Qed.

(** A sequence raises [e] only if one of its two parts does. *)
Lemma bind_raise_inv {A B} (m : M St Exn Ev A) (k : A -> M St Exn Ev B) s e :
  res (bind m k s) = Raise e ->
  res (m s) = Raise e \/
  exists a, res (m s) = Ok a /\ res (k a (final (m s))) = Raise e.
Proof.
  unfold bind. destruct (m s) as [[a|e'] s1 ev1]; cbn.
  - intros H. right. exists a. split; [reflexivity |].
    destruct (k a s1); exact H.
  - intros H. left. congruence.
Qed.

Lemma bind_ext {A B} (m : M St Exn Ev A) (k1 k2 : A -> M St Exn Ev B) s :
  (forall a s', k1 a s' = k2 a s') -> bind m k1 s = bind m k2 s.
Proof.
  intros H. unfold bind. destruct (m s) as [[a|e] s1 ev1]; [| reflexivity].
  rewrite H. reflexivity.
Qed.

Lemma for_each_app {A} (xs ys : list A) (body : A -> M St Exn Ev unit) s :
  for_each (xs ++ ys) body s = bind (for_each xs body) (fun _ => for_each ys body) s.
Proof.
  revert s. induction xs as [|x xs IH]; intros s; cbn [for_each app].
  - rewrite bind_ret. reflexivity.
  - rewrite bind_assoc. apply bind_ext. intros _ s'. apply IH.
Qed.

(** A loop whose body logs [session x] and raises exactly on the items
    that are not [ok] logs the sessions of the items it gets to, and
    returns exactly when every item is [ok]. *)
Lemma for_each_served {A} (body : A -> M St Exn Ev unit)
      (ok : A -> bool) (session : A -> list Ev) :
  (forall x s, events (body x s) = session x) ->
  (forall x s, raised (res (body x s)) = negb (ok x)) ->
  forall xs s,
    events (for_each xs body s) = flat_map session (served ok xs) /\
    raised (res (for_each xs body s)) = negb (forallb ok xs).
Proof.
  intros Hev Hres xs. induction xs as [|x xs IH]; intros s; cbn [for_each served forallb].
  - split; reflexivity.
  - specialize (Hev x s). specialize (Hres x s). unfold bind.
    destruct (body x s) as [[[]|e] s1 ev1]; cbn in Hev, Hres.
    + symmetry in Hres. apply negb_false_iff in Hres. rewrite Hres. cbn [flat_map andb].
      destruct (IH s1) as [IHev IHres].
      destruct (for_each xs body s1) as [r s2 ev2]; cbn in *.
      subst. split; [reflexivity | exact IHres].
    + symmetry in Hres. apply negb_true_iff in Hres. rewrite Hres. cbn.
      rewrite app_nil_r. split; [exact Hev | reflexivity].
Qed.

End ComputationLaws.

(** ** [GameState.do_move] *)

Section MnkFacts.
Import Mnk.

Lemma never_illegal_bind {A B} (m : Meth A) (k : A -> Meth B) :
  never_illegal m -> (forall a, never_illegal (k a)) -> never_illegal (bind m k).
Proof.
  intros Hm Hk s msg H.
  destruct (bind_raise_inv m k s _ H) as [H1 | (a & _ & H2)].
  - exact (Hm _ _ H1).
  - exact (Hk _ _ _ H2).
Qed.

Lemma never_illegal_ret {A} (a : A) : never_illegal (ret a).
Proof. intros s msg H. discriminate H. Qed.

Lemma never_illegal_gets {A} (f : GameState -> A) : never_illegal (gets f).
Proof. intros s msg H. discriminate H. Qed.

Lemma never_illegal_get : never_illegal get.
Proof. intros s msg H. discriminate H. Qed.

Lemma never_illegal_modify (f : GameState -> GameState) : never_illegal (modify f).
Proof. intros s msg H. discriminate H. Qed.

Lemma never_illegal_board_get b x y : never_illegal (lift (board_get b x y)).
Proof.
  intros s msg. unfold board_get.
  repeat case_match; simpl; discriminate.
Qed.

Lemma never_illegal_board_set b x y v : never_illegal (lift (board_set b x y v)).
Proof.
  intros s msg. unfold board_set.
  repeat case_match; simpl; discriminate.
Qed.

Lemma never_illegal_count_line fuel :
  forall xp yp dx dy count, never_illegal (count_line fuel xp yp dx dy count).
Proof.
  induction fuel as [|fuel IH]; intros xp yp dx dy count; cbn [count_line].
  - apply never_illegal_ret.
  - apply never_illegal_bind; [apply never_illegal_get | intros s].
    destruct (_on_board s (xp, yp)); [| apply never_illegal_ret].
    apply never_illegal_bind; [apply never_illegal_board_get | intros v].
    destruct (v =? current_player s); [apply IH | apply never_illegal_ret].
Qed.

Create HintDb mnk.
#[local] Hint Resolve never_illegal_ret never_illegal_gets never_illegal_get
  never_illegal_modify never_illegal_board_get never_illegal_board_set
  never_illegal_count_line : mnk.

Lemma set_current_player_same s : set_current_player (current_player s) s = s.
Proof. destruct s; reflexivity. Qed.

(** [is_legal] only reads the state. *)
Lemma is_legal_pure a s : final (is_legal a s) = s.
Proof.
  destruct a as [x y]. unfold is_legal. rewrite bind_get.
  destruct (_on_board s (x, y)); cbn; [| reflexivity].
  destruct (board_get (board s) x y) as [v|e]; cbn; [| reflexivity].
  destruct (v =? EMPTY); reflexivity.
Qed.

(** What [is_legal] answers, cell by cell. *)
Lemma is_legal_false_iff a s :
  res (is_legal a s) = Ok false <->
  _on_board s a = false \/
  exists v, _on_board s a = true /\
            board_get (board s) (fst a) (snd a) = Ok v /\ v <> EMPTY.
Proof.
  destruct a as [x y]. unfold is_legal. rewrite bind_get.
  destruct (_on_board s (x, y)); cbn.
  - destruct (board_get (board s) x y) as [v|e]; cbn.
    + destruct (Z.eqb_spec v EMPTY) as [->|Hne]; cbn.
      * split; [discriminate |].
        intros [H | (v & _ & Hv & Hne)]; [discriminate | congruence].
      * split; [| reflexivity]. intros _. right. exists v. auto.
    + split; [discriminate |].
      intros [H | (v & _ & Hv & _)]; discriminate.
  - split; [intros _; left; reflexivity | reflexivity].
Qed.

(** On a board of the constructor's shape [is_legal] never fails to answer. *)
Lemma board_get_on_board s x y :
  well_shaped s -> _on_board s (x, y) = true ->
  exists v, board_get (board s) x y = Ok v.
Proof.
  intros [Hrows Hcols] Hon. unfold _on_board in Hon.
  apply andb_prop in Hon as [Hon Hy]. apply andb_prop in Hon as [Hon Hx].
  apply andb_prop in Hon as [Hx0 Hy0].
  unfold board_get, py_index.
  assert (0 <= x < Z.of_nat (length (board s))) as Hxr by lia.
  destruct (Z.leb_spec 0 x); [| lia].
  destruct (Z.ltb_spec x (Z.of_nat (length (board s)))); [| lia].
  destruct (board s !! Z.to_nat x) as [row|] eqn:Hrow.
  2:{ apply lookup_ge_None in Hrow. lia. }
  assert (Z.of_nat (length row) = Z.max 0 (width s)) as Hlen.
  { rewrite Forall_forall in Hcols. apply Hcols.
    apply list_elem_of_lookup. eauto. }
  destruct (Z.leb_spec 0 y); [| lia].
  destruct (Z.ltb_spec y (Z.of_nat (length row))); [| lia].
  destruct (row !! Z.to_nat y) as [v|] eqn:Hv; [eauto |].
  apply lookup_ge_None in Hv. lia.
Qed.

(** On a board of that shape [is_legal] answers, and the constructor
    builds such a board. *)
Lemma is_legal_answers a s :
  well_shaped s ->
  exists b, is_legal a s = Outcome (Ok b) s [].
Proof.
  intros Hshape. destruct a as [x y]. unfold is_legal. rewrite bind_get.
  destruct (_on_board s (x, y)) eqn:Hon; cbn [negb]; [| eexists; reflexivity].
  destruct (board_get_on_board s x y Hshape Hon) as [v ->]. cbn [lift].
  rewrite bind_ret. destruct (v =? EMPTY); eexists; reflexivity.
Qed.

Lemma init_well_shaped w h cfg_k hist_len :
  well_shaped (init w h cfg_k hist_len).
Proof.
  unfold well_shaped, init, zeros. cbn [board height width].
  split.
  - rewrite length_replicate. lia.
  - apply Forall_replicate. rewrite length_replicate. lia.
Qed.

(** The counting loops have fuel to spare: once the walk is off the
    board more fuel changes nothing, and [line_fuel] steps from a
    neighbour of a cell on the board lead off the board. *)
Lemma count_line_more_fuel fuel extra :
  forall xp yp dx dy count s,
    _on_board s (xp + Z.of_nat fuel * dx, yp + Z.of_nat fuel * dy) = false ->
    count_line (fuel + extra) xp yp dx dy count s =
    count_line fuel xp yp dx dy count s.
Proof.
  induction fuel as [|fuel IH]; intros xp yp dx dy count s Hoff.
  - replace (xp + Z.of_nat 0 * dx) with xp in Hoff by lia.
    replace (yp + Z.of_nat 0 * dy) with yp in Hoff by lia.
    destruct extra as [|extra]; cbn [Nat.add count_line]; [reflexivity |].
    rewrite bind_get, Hoff. reflexivity.
  - cbn [Nat.add count_line]. rewrite !bind_get.
    destruct (_on_board s (xp, yp)); [| reflexivity].
    destruct (board_get (board s) xp yp) as [v|e]; cbn [lift]; [| reflexivity].
    rewrite !bind_ret.
    destruct (v =? current_player s); [| reflexivity].
    apply IH.
    replace (xp + dx + Z.of_nat fuel * dx) with (xp + Z.of_nat (S fuel) * dx) by lia.
    replace (yp + dy + Z.of_nat fuel * dy) with (yp + Z.of_nat (S fuel) * dy) by lia.
    exact Hoff.
Qed.

Lemma line_fuel_leads_off_board s x y dx dy :
  _on_board s (x, y) = true ->
  dx = 1 \/ dx = -1 \/ (dx = 0 /\ (dy = 1 \/ dy = -1)) ->
  -1 <= dy <= 1 ->
  _on_board s (x + dx + Z.of_nat (line_fuel s) * dx,
               y + dy + Z.of_nat (line_fuel s) * dy) = false.
Proof.
  unfold _on_board, line_fuel. intros Hon Hd Hdy.
  apply andb_prop in Hon as [Hon Hy]. apply andb_prop in Hon as [Hon Hx].
  apply andb_prop in Hon as [Hx0 Hy0].
  apply Z.geb_le in Hx0, Hy0. apply Z.ltb_lt in Hx, Hy.
  rewrite Z2Nat.id by lia.
  apply not_true_is_false. intros H.
  apply andb_prop in H as [H Hy']. apply andb_prop in H as [H Hx'].
  apply andb_prop in H as [Hx0' Hy0'].
  apply Z.geb_le in Hx0', Hy0'. apply Z.ltb_lt in Hx', Hy'.
  destruct Hd as [-> | [-> | [-> [-> | ->]]]]; lia.
Qed.

Lemma never_illegal_is_legal a : never_illegal (is_legal a).
Proof.
  destruct a as [x y]. unfold is_legal.
  apply never_illegal_bind; [apply never_illegal_get | intros s].
  destruct (negb (_on_board s (x, y))); [apply never_illegal_ret |].
  apply never_illegal_bind; [apply never_illegal_board_get | intros v].
  destruct (negb (v =? EMPTY)); apply never_illegal_ret.
Qed.

Ltac never_illegal_step :=
  first
    [ apply never_illegal_bind; [solve [eauto with mnk] | intros ?]
    | solve [eauto with mnk] ].

(** The branch of [do_move] taken on a legal move raises no [IllegalMove]. *)
Lemma do_move_legal_branch a color s msg :
  res (is_legal a (set_current_player (color_or color (current_player s)) s)) = Ok true ->
  res (do_move a color s) <> Raise (IllegalMove msg).
Proof.
  intros Hlegal H. unfold do_move in H.
  apply bind_raise_inv in H as [H | (cp & Hcp & H)]; [discriminate H |].
  cbn in Hcp. injection Hcp as <-.
  apply bind_raise_inv in H as [H | ([] & _ & H)]; [discriminate H |].
  cbn [gets modify final] in H.
  apply bind_raise_inv in H as [H | (legal & Hl & H)].
  { rewrite Hlegal in H. discriminate H. }
  rewrite Hlegal in Hl. injection Hl as <-.
  revert H. destruct a as [x y].
  match goal with
  | |- res (?m ?s') = _ -> _ =>
      assert (never_illegal m) as Hn; [| exact (Hn s' msg)]
  end.
  repeat never_illegal_step.
  apply never_illegal_bind.
  - repeat case_match; eauto with mnk.
  - intros _. repeat never_illegal_step.
Qed.

(** An illegal move raises and puts [current_player] back. *)
Lemma do_move_illegal_branch a color s :
  res (is_legal a (set_current_player (color_or color (current_player s)) s)) = Ok false ->
  do_move a color s = Outcome (Raise (IllegalMove (str_action a))) s [].
Proof.
  intros Hillegal. unfold do_move.
  pose proof (is_legal_pure a (set_current_player (color_or color (current_player s)) s)) as Hpure.
  rewrite bind_gets, bind_modify.
  destruct (is_legal a _) as [r f ev] eqn:E. cbn [res final] in *. subst r f.
  rewrite (bind_run _ _ _ _ _ _ E). rewrite bind_modify.
  cbn [raise logged res final events].
  destruct ev as [|[] ?]. f_equal. destruct s; reflexivity.
Qed.

(** C10. For every game state [s] and action [a], [do_move(a)] called
    without a color raises [IllegalMove] exactly when [is_legal(a)]
    answers [False], which it does exactly when [a] is off the board or
    its cell is not [EMPTY]; and when [do_move] raises [IllegalMove] the
    state after the call is the state before it, field by field
    ([board], [current_player], [history], [board_history], [turns],
    [is_end_of_game], [winner]). *)
Theorem do_move_IllegalMove_iff_not_legal (s : GameState) (a : Z * Z) :
  ((exists msg, res (do_move a None s) = Raise (IllegalMove msg)) <->
   res (is_legal a s) = Ok false)
  /\ (res (is_legal a s) = Ok false <->
      _on_board s a = false \/
      exists v, _on_board s a = true /\
                board_get (board s) (fst a) (snd a) = Ok v /\ v <> EMPTY)
  /\ ((exists msg, res (do_move a None s) = Raise (IllegalMove msg)) ->
      final (do_move a None s) = s).
Proof.
  assert (forall msg, res (do_move a None s) = Raise (IllegalMove msg) ->
                      res (is_legal a s) = Ok false) as Hraise.
  { intros msg H.
    destruct (res (is_legal a s)) as [[|]|e] eqn:Hl.
    - exfalso. apply (do_move_legal_branch a None s msg); [| exact H].
      cbn [color_or]. rewrite set_current_player_same. exact Hl.
    - reflexivity.
    - exfalso. unfold do_move in H.
      apply bind_raise_inv in H as [H | (cp & Hcp & H)]; [discriminate H |].
      cbn in Hcp. injection Hcp as <-.
      apply bind_raise_inv in H as [H | ([] & _ & H)]; [discriminate H |].
      cbn [gets modify final color_or] in H.
      rewrite set_current_player_same in H.
      apply bind_raise_inv in H as [H | (legal & Hl' & _)].
      + exact (never_illegal_is_legal a s msg H).
      + congruence. }
  assert (res (is_legal a s) = Ok false ->
          do_move a None s = Outcome (Raise (IllegalMove (str_action a))) s [])
    as Hillegal.
  { intros Hl. apply do_move_illegal_branch.
    cbn [color_or]. rewrite set_current_player_same. exact Hl. }
  split; [| split].
  - split.
    + intros [msg H]. exact (Hraise msg H).
    + intros Hl. exists (str_action a). rewrite (Hillegal Hl). reflexivity.
  - apply is_legal_false_iff.
  - intros [msg H]. rewrite (Hillegal (Hraise msg H)). reflexivity.
Qed.

(** On a 3x3 board with a stone at (0, 0): playing (0, 0) again, or
    playing (3, 1), raises and leaves the state as it was. *)
Example do_move_occupied_cell :
  let s := final (do_move (0, 0) None (init 3 3 3 8)) in
  do_move (0, 0) None s = Outcome (Raise (IllegalMove "(0, 0)")) s [] /\
  do_move (3, 1) None s = Outcome (Raise (IllegalMove "(3, 1)")) s [].
Proof. split; vm_compute; reflexivity. Qed.

End MnkFacts.

(** ** [Selfplay.selfplay_wrapper] *)

Section WorkerUnit.
Import Selfplay.

(** The unit run to its end, collaborator by collaborator. *)
Lemma selfplay_wrapper_returns w g s data :
  game_new_ok g = true -> game_start_ok g = true ->
  game_history g = Some data -> queue_put_ok w data = true ->
  selfplay_wrapper w g s =
  Outcome (Ok tt)
    (set_worker_lim (S (worker_lim s)) (set_data_queue (data_queue s ++ [data]) s))
    [r_acquire; game_new; game_start; game_get_history; queue_put data;
     r_release; sem_release].
Proof.
  intros Hn Hs Hh Hq.
  unfold selfplay_wrapper, rwlock_r_acquire, Game_new, Game_start,
    Game_get_history, data_queue_put, rwlock_r_release, worker_lim_release.
  rewrite Hn, Hs, Hh. cbn. rewrite Hq. cbn. reflexivity.
Qed.

Lemma selfplay_wrapper_raises w g s :
  unit_raises w g = true ->
  exists e evs,
    selfplay_wrapper w g s =
    Outcome (Raise e) (set_rwlock_readers (S (rwlock_readers s)) s) evs /\
    times r_release evs = 0%nat /\ times sem_release evs = 0%nat /\
    times r_acquire evs = 1%nat.
Proof.
  unfold unit_raises.
  unfold selfplay_wrapper, rwlock_r_acquire, Game_new, Game_start,
    Game_get_history, data_queue_put, rwlock_r_release, worker_lim_release.
  destruct (game_new_ok g); cbn.
  2:{ intros _. eexists _, _. split; [reflexivity |]. cbn. auto. }
  destruct (game_start_ok g); cbn.
  2:{ intros _. eexists _, _. split; [reflexivity |]. cbn. auto. }
  destruct (game_history g) as [data|]; cbn.
  2:{ intros _. eexists _, _. split; [reflexivity |]. cbn. auto. }
  destruct (queue_put_ok w data); cbn; [discriminate |].
  intros _. eexists _, _. split; [reflexivity |]. cbn. auto.
Qed.

(** What the unit ending does to the semaphore. *)
Lemma selfplay_wrapper_slot w g s :
  worker_lim (final (selfplay_wrapper w g s)) =
    (if unit_raises w g then worker_lim s else S (worker_lim s)) /\
  times sem_release (events (selfplay_wrapper w g s)) =
    (if unit_raises w g then 0 else 1)%nat.
Proof.
  destruct (unit_raises w g) eqn:Hr.
  - destruct (selfplay_wrapper_raises w g s Hr) as (e & evs & -> & _ & H2 & _).
    split; [reflexivity | exact H2].
  - unfold unit_raises in Hr. apply negb_false_iff in Hr.
    apply andb_prop in Hr as [Hr Hq]. apply andb_prop in Hr as [Hn Hs].
    destruct (game_history g) as [data|] eqn:Hh; [| discriminate Hq].
    rewrite (selfplay_wrapper_returns w g s data Hn Hs Hh Hq).
    split; reflexivity.
Qed.

(** C1, as the code has it.  A unit whose collaborators all return
    releases the read lock and the semaphore unit once each, after one
    acquisition of the lock.  A unit in which the game engine or the
    queue raises ends with that exception before either release: no
    [r_release], no [release], the lock's holder count stays one higher
    and the semaphore keeps its value. *)
Theorem selfplay_wrapper_releases (w : world) (g : game_run) (s : state) :
  let o := selfplay_wrapper w g s in
  raised (res o) = unit_raises w g /\
  times r_acquire (events o) = 1%nat /\
  times r_release (events o) = (if unit_raises w g then 0 else 1)%nat /\
  times sem_release (events o) = (if unit_raises w g then 0 else 1)%nat /\
  rwlock_readers (final o) =
    (if unit_raises w g then S (rwlock_readers s) else rwlock_readers s) /\
  worker_lim (final o) =
    (if unit_raises w g then worker_lim s else S (worker_lim s)).
Proof.
  cbv zeta. destruct (unit_raises w g) eqn:Hr.
  - destruct (selfplay_wrapper_raises w g s Hr) as (e & evs & -> & H1 & H2 & H3).
    cbn. repeat split; assumption.
  - unfold unit_raises in Hr. apply negb_false_iff in Hr.
    apply andb_prop in Hr as [Hr Hq]. apply andb_prop in Hr as [Hn Hs].
    destruct (game_history g) as [data|] eqn:Hh; [| discriminate Hq].
    rewrite (selfplay_wrapper_returns w g s data Hn Hs Hh Hq).
    repeat split.
Qed.

(** C1, as stated, fails: a unit whose [game.start()] raises has
    released neither the lock nor the slot when it ends. *)
Lemma selfplay_wrapper_keeps_lock_on_failure :
  ~ released_once (init 2 5000 5001 "mnk" None)
      (selfplay_wrapper calm (mkGameRun true false None)
         (init 2 5000 5001 "mnk" None)).
Proof. intros (H & _). vm_compute in H. discriminate H. Qed.

End WorkerUnit.

(** ** What a method may change *)

Section Stable.
Import Selfplay.
Variable R : relation state.
Hypothesis R_refl : forall s, R s s.
Hypothesis R_trans : forall s1 s2 s3, R s1 s2 -> R s2 s3 -> R s1 s3.

Lemma stable_ret {A} (a : A) : stable R (ret a).
Proof. intros s. apply R_refl. Qed.

Lemma stable_raise {A} (e : exn) : stable R (raise (A := A) e).
Proof. intros s. apply R_refl. Qed.

Lemma stable_emit (e : event) : stable R (emit e).
Proof. intros s. apply R_refl. Qed.

Lemma stable_gets {A} (f : state -> A) : stable R (gets f).
Proof. intros s. apply R_refl. Qed.

Lemma stable_modify (f : state -> state) :
  (forall s, R s (f s)) -> stable R (modify f).
Proof. intros H s. apply H. Qed.

Lemma stable_bind {A B} (m : Meth A) (k : A -> Meth B) :
  stable R m -> (forall a, stable R (k a)) -> stable R (bind m k).
Proof.
  intros Hm Hk s. unfold bind.
  specialize (Hm s). destruct (m s) as [[a|e] s1 ev1]; cbn in *; [| exact Hm].
  specialize (Hk a s1). destruct (k a s1) as [r s2 ev2]; cbn in *.
  eapply R_trans; eassumption.
Qed.

Lemma stable_for_each {A} (xs : list A) (body : A -> Meth unit) :
  (forall x, stable R (body x)) -> stable R (for_each xs body).
Proof.
  intros Hb. induction xs as [|x xs IH]; cbn [for_each].
  - apply stable_ret.
  - apply stable_bind; [apply Hb | intros _; exact IH].
Qed.

Lemma stable_printlog_thrd words : stable R (printlog_thrd words).
Proof. apply stable_emit. Qed.

Lemma stable_recv_until_eof chunks : forall buf, stable R (recv_until_eof chunks buf).
Proof.
  induction chunks as [|c chunks IH]; intros buf; cbn [recv_until_eof].
  - apply stable_bind; [apply stable_emit | intros _; apply stable_ret].
  - apply stable_bind; [apply stable_emit | intros _].
    destruct (Nat.eqb (length c) 0); [apply stable_ret | apply IH].
Qed.

Lemma stable_pickle_loads w buf : stable R (pickle_loads_or_raise w buf).
Proof.
  unfold pickle_loads_or_raise.
  apply stable_bind; [apply stable_emit | intros _].
  destruct (pickle_loads w buf); [apply stable_ret | apply stable_raise].
Qed.

Lemma stable_Remote_Queue_put w addr port obj :
  stable R (Remote_Queue_put w addr port obj).
Proof.
  unfold Remote_Queue_put.
  apply stable_bind; [apply stable_emit | intros _].
  destruct (transport w addr port);
    [apply stable_emit | apply stable_printlog_thrd | apply stable_raise].
Qed.

(** The handlers write the data queue, the evaluator's model and the
    registry, and nothing else. *)
Section Handlers.
Hypothesis R_queue : forall s q, R s (set_data_queue q s).
Hypothesis R_model : forall s m, R s (set_nn_model m s).
Hypothesis R_reg : forall s addr,
  R s (set_remote_worker_reg (dict_set (remote_worker_reg s) addr true) s).

Lemma stable_data_queue_put w obj : stable R (data_queue_put w obj).
Proof.
  unfold data_queue_put.
  apply stable_bind; [apply stable_emit | intros _].
  destruct (queue_put_ok w obj); [| apply stable_raise].
  apply stable_modify. intros s. apply R_queue.
Qed.

Lemma stable_nn_eval_load w obj : stable R (nn_eval_load w obj).
Proof.
  unfold nn_eval_load.
  apply stable_bind; [apply stable_emit | intros _].
  destruct (load_ok w obj); [| apply stable_raise].
  apply stable_modify. intros s. apply R_model.
Qed.

Lemma stable_model_update_once w path : stable R (model_update_once w path).
Proof.
  unfold model_update_once.
  apply stable_bind; [apply stable_gets | intros reg].
  apply stable_bind.
  - apply stable_for_each. intros [addr flag].
    apply stable_bind; [apply stable_printlog_thrd | intros _].
    apply stable_bind; [apply stable_gets | intros port].
    apply stable_bind; [apply stable_gets | intros name].
    apply stable_Remote_Queue_put.
  - intros _. apply stable_bind; [apply stable_gets | intros name].
    apply stable_nn_eval_load.
Qed.

Lemma stable_rcv_remote_data_once w c : stable R (rcv_remote_data_once w c).
Proof.
  unfold rcv_remote_data_once.
  apply stable_bind; [apply stable_emit | intros _].
  apply stable_bind; [apply stable_printlog_thrd | intros _].
  apply stable_bind; [apply stable_emit | intros _].
  apply stable_bind; [apply stable_printlog_thrd | intros _].
  apply stable_bind; [apply stable_recv_until_eof | intros buf].
  apply stable_bind; [apply stable_pickle_loads | intros img].
  apply stable_bind; [apply stable_emit | intros _].
  apply stable_bind; [apply stable_printlog_thrd | intros _].
  apply stable_bind; [apply stable_data_queue_put | intros _].
  apply stable_modify. intros s. apply R_reg.
Qed.

Lemma stable_remote_update_once w c : stable R (remote_update_once w c).
Proof.
  unfold remote_update_once.
  apply stable_bind; [apply stable_emit | intros _].
  apply stable_bind; [apply stable_printlog_thrd | intros _].
  apply stable_bind; [apply stable_emit | intros _].
  apply stable_bind; [apply stable_printlog_thrd | intros _].
  apply stable_bind; [apply stable_recv_until_eof | intros buf].
  apply stable_bind; [apply stable_pickle_loads | intros img].
  apply stable_bind; [apply stable_emit | intros _].
  apply stable_bind; [apply stable_printlog_thrd | intros _].
  apply stable_nn_eval_load.
Qed.

End Handlers.

(** The launcher and the worker units write the lock, the semaphore
    and the data queue. *)
Section Workers.
Hypothesis R_queue : forall s q, R s (set_data_queue q s).
Hypothesis R_lock : forall s n, R s (set_rwlock_readers n s).
Hypothesis R_sem : forall s n, R s (set_worker_lim n s).

Lemma stable_selfplay_wrapper w g : stable R (selfplay_wrapper w g).
Proof.
  unfold selfplay_wrapper.
  apply stable_bind; [| intros _].
  { unfold rwlock_r_acquire.
    apply stable_bind; [apply stable_emit | intros _].
    apply stable_modify. intros s. apply R_lock. }
  apply stable_bind; [| intros _].
  { unfold Game_new.
    apply stable_bind; [apply stable_emit | intros _].
    destruct (game_new_ok g); [apply stable_ret | apply stable_raise]. }
  apply stable_bind; [| intros _].
  { unfold Game_start.
    apply stable_bind; [apply stable_emit | intros _].
    destruct (game_start_ok g); [apply stable_ret | apply stable_raise]. }
  apply stable_bind; [| intros data].
  { unfold Game_get_history.
    apply stable_bind; [apply stable_emit | intros _].
    destruct (game_history g); [apply stable_ret | apply stable_raise]. }
  apply stable_bind; [apply stable_data_queue_put; exact R_queue | intros _].
  apply stable_bind; [| intros _].
  { unfold rwlock_r_release.
    apply stable_bind; [apply stable_emit | intros _].
    apply stable_modify. intros s. apply R_lock. }
  unfold worker_lim_release.
  apply stable_bind; [apply stable_emit | intros _].
  apply stable_modify. intros s. apply R_sem.
Qed.

Lemma stable_run_acquire : stable R run_acquire.
Proof.
  unfold run_acquire, worker_lim_acquire.
  apply stable_bind; [apply stable_emit | intros _].
  apply stable_modify. intros s. apply R_sem.
Qed.

End Workers.

Lemma stable_run_start n : stable R (run_start n).
Proof.
  unfold run_start.
  apply stable_bind; [apply stable_gets | intros name]. apply stable_emit.
Qed.

Lemma stable_run_threads : stable R run_threads.
Proof.
  unfold run_threads.
  apply stable_bind; [apply stable_emit | intros _].
  apply stable_bind; [apply stable_gets | intros remote].
  destruct (truthy remote); [apply stable_emit |].
  apply stable_bind; [apply stable_emit | intros _; apply stable_emit].
Qed.

End Stable.

(** ** The launcher and its pool of worker units *)

Section WorkerPool.
Import Selfplay.

Lemma same_worker_lim_refl s : same_worker_lim s s.
Proof. reflexivity. Qed.

Lemma same_worker_lim_trans s1 s2 s3 :
  same_worker_lim s1 s2 -> same_worker_lim s2 s3 -> same_worker_lim s1 s3.
Proof. unfold same_worker_lim. congruence. Qed.

(** A handler's turn leaves the semaphore, the launcher and the units alone. *)
Lemma thread_step_slots h m y y' :
  stable same_worker_lim m ->
  thread_step h m y = Some y' ->
  worker_lim (self y') = worker_lim (self y) /\
  holding y' = holding y /\ running y' = running y /\ cnt y' = cnt y.
Proof.
  intros Hm. unfold thread_step. case_decide; [| discriminate].
  intros [= <-]. cbn. split; [apply Hm | auto].
Qed.

Lemma run_threads_pure s : final (run_threads s) = s.
Proof.
  unfold run_threads. rewrite bind_emit, bind_gets. cbn [final].
  destruct (truthy (ext_remote s)); reflexivity.
Qed.

(** Establish: before the first launch all [N] units of the semaphore are free. *)
Lemma sys_init_slots_ok N rp rup name remote :
  slots_ok N (sys_init (init N rp rup name remote)).
Proof.
  unfold slots_ok, slots_in_use, sys_init. cbn [self holding running].
  rewrite run_threads_pure. cbn. lia.
Qed.

(** What each step does to the semaphore and to the pool. *)
Lemma launcher_acquire_step w y y' :
  sys_step w launcher_acquire y = Some y' ->
  holding y = false /\ (0 < worker_lim (self y))%nat /\
  worker_lim (self y') = pred (worker_lim (self y)) /\
  holding y' = true /\ running y' = running y.
Proof.
  cbn [sys_step]. destruct (holding y); [discriminate |].
  destruct (Nat.eqb_spec (worker_lim (self y)) 0); [discriminate |].
  intros [= <-]. cbn. repeat split; lia.
Qed.

Lemma launcher_start_step w y y' :
  sys_step w launcher_start y = Some y' ->
  holding y = true /\ holding y' = false /\
  running y' = cnt y :: running y /\
  worker_lim (self y') = worker_lim (self y).
Proof.
  cbn [sys_step]. destruct (holding y); [| discriminate].
  intros [= <-]. cbn. repeat split.
Qed.

Lemma unit_ends_step w i g y y' :
  sys_step w (unit_ends i g) y = Some y' ->
  i ∈ running y /\ holding y' = holding y /\
  running y' = filter (fun j => j ≠ i) (running y) /\
  worker_lim (self y') =
    (if unit_raises w g then worker_lim (self y) else S (worker_lim (self y))).
Proof.
  cbn [sys_step]. case_decide as Hi; [| discriminate].
  intros [= <-]. cbn [self holding running]. repeat split; [exact Hi |].
  apply (selfplay_wrapper_slot w g (self y)).
Qed.

(** Preserve. *)
Lemma sys_step_slots_ok w N a y y' :
  slots_ok N y -> sys_step w a y = Some y' -> slots_ok N y'.
Proof.
  unfold slots_ok, slots_in_use. intros Hok Hstep.
  destruct a as [| |i g|c|c|path].
  - apply launcher_acquire_step in Hstep as (Hh & Hpos & -> & -> & ->).
    rewrite Hh in Hok. lia.
  - apply launcher_start_step in Hstep as (Hh & -> & -> & ->).
    rewrite Hh in Hok. cbn [length]. lia.
  - apply unit_ends_step in Hstep as (Hi & -> & -> & ->).
    assert (length (filter (fun j => j ≠ i) (running y)) < length (running y))%nat.
    { apply (length_filter_lt _ _ i); [exact Hi | intros Hne; exact (Hne eq_refl)]. }
    destruct (unit_raises w g); lia.
  - apply thread_step_slots in Hstep as (-> & -> & -> & _); [exact Hok |].
    apply stable_rcv_remote_data_once;
      [exact same_worker_lim_refl | exact same_worker_lim_trans | | ];
      intros; reflexivity.
  - apply thread_step_slots in Hstep as (-> & -> & -> & _); [exact Hok |].
    apply stable_remote_update_once;
      [exact same_worker_lim_refl | exact same_worker_lim_trans | ];
      intros; reflexivity.
  - apply thread_step_slots in Hstep as (-> & -> & -> & _); [exact Hok |].
    apply stable_model_update_once;
      [exact same_worker_lim_refl | exact same_worker_lim_trans | ];
      intros; reflexivity.
Qed.

Lemma sys_run_slots_ok w N schedule :
  forall y y', slots_ok N y -> sys_run w schedule y = Some y' -> slots_ok N y'.
Proof.
  induction schedule as [|a schedule IH]; intros y y' Hok; cbn [sys_run].
  - intros [= <-]. exact Hok.
  - destruct (sys_step w a y) as [y1|] eqn:Hstep; [| discriminate].
    apply IH. exact (sys_step_slots_ok w N a y y1 Hok Hstep).
Qed.

(** C4. For every worker limit [N] and every state the component
    reaches from [run], at most [N] worker units are alive: the free
    units of the semaphore, the one the launcher may hold and the live
    units never add up to more than [N].  A unit is started only by a
    launcher that holds a unit of the semaphore, which it got from an
    [acquire()] on a positive semaphore; a unit that runs to its end
    gives back exactly one. *)
Theorem running_units_within_limit
    (w : world) (N : nat) (rp rup : Z) (name : string) (remote : option pyobj)
    (schedule : list action) (y : system) :
  sys_run w schedule (sys_init (init N rp rup name remote)) = Some y ->
  (length (running y) <= N)%nat /\
  (worker_lim (self y) + slots_in_use y <= N)%nat /\
  (forall y', sys_step w launcher_start y = Some y' ->
     holding y = true /\ running y' = cnt y :: running y) /\
  (forall y', sys_step w launcher_acquire y = Some y' ->
     (0 < worker_lim (self y))%nat /\
     worker_lim (self y') = pred (worker_lim (self y)) /\ holding y' = true) /\
  (forall i g y', sys_step w (unit_ends i g) y = Some y' ->
     unit_raises w g = false ->
     worker_lim (self y') = S (worker_lim (self y)) /\
     times sem_release (events (selfplay_wrapper w g (self y))) = 1%nat).
Proof.
  intros Hrun.
  pose proof (sys_run_slots_ok w N schedule _ _
                (sys_init_slots_ok N rp rup name remote) Hrun) as Hok.
  unfold slots_ok, slots_in_use in Hok.
  split; [lia |]. split; [exact Hok |]. split; [| split].
  - intros y' Hstep. apply launcher_start_step in Hstep. tauto.
  - intros y' Hstep. apply launcher_acquire_step in Hstep. tauto.
  - intros i g y' Hstep Hg.
    apply unit_ends_step in Hstep as (_ & _ & _ & ->).
    pose proof (selfplay_wrapper_slot w g (self y)) as Hw.
    rewrite Hg in *. tauto.
Qed.

(** With a limit of 2: two units launched, one failed, one finished,
    a third launched; a third launch while two are alive has to wait. *)
Lemma running_units_within_limit_example :
  let s0 := init 2 5000 5001 "mnk" None in
  let failing := mkGameRun true false None in
  let playing := mkGameRun true true (Some (PyData [1; -1])) in
  (exists y,
     sys_run calm
       [launcher_acquire; launcher_start; launcher_acquire; launcher_start;
        unit_ends 0 failing; unit_ends 1 playing;
        launcher_acquire; launcher_start] (sys_init s0) = Some y /\
     (length (running y) <= 2)%nat) /\
  sys_run calm
    [launcher_acquire; launcher_start; launcher_acquire; launcher_start;
     launcher_acquire] (sys_init s0) = None.
Proof.
  cbv zeta. split; [| vm_compute; reflexivity].
  eexists. split; [vm_compute; reflexivity |].
  refine (proj1 (running_units_within_limit calm 2 5000 5001 "mnk" None
    [launcher_acquire; launcher_start; launcher_acquire; launcher_start;
     unit_ends 0 (mkGameRun true false None);
     unit_ends 1 (mkGameRun true true (Some (PyData [1; -1])));
     launcher_acquire; launcher_start] _ _)).
  vm_compute. reflexivity.
Defined.

End WorkerPool.

(** ** The receiving handlers *)

Section Receivers.
Import Selfplay.

(** The inner loop returns the bytes sent before the peer closed and
    leaves the state alone. *)
Lemma recv_until_eof_spec chunks :
  forall buf s,
    recv_until_eof chunks buf s =
    Outcome (Ok (buf ++ received chunks)) s (map sock_recv (reads chunks)).
Proof.
  induction chunks as [|c chunks IH]; intros buf s; cbn [recv_until_eof reads received].
  - rewrite bind_emit. cbn. rewrite app_nil_r. reflexivity.
  - rewrite bind_emit. destruct (Nat.eqb (length c) 0).
    + cbn. rewrite app_nil_r. reflexivity.
    + rewrite IH. cbn. rewrite app_assoc. reflexivity.
Qed.

Lemma pickle_loads_or_raise_spec w buf s :
  pickle_loads_or_raise w buf s =
  Outcome (match pickle_loads w buf with
           | Some obj => Ok obj
           | None => Raise UnpicklingError
           end) s [unpickle buf].
Proof.
  unfold pickle_loads_or_raise. rewrite bind_emit.
  destruct (pickle_loads w buf); reflexivity.
Qed.

Lemma data_queue_put_spec w obj s :
  data_queue_put w obj s =
  if queue_put_ok w obj
  then Outcome (Ok tt) (set_data_queue (data_queue s ++ [obj]) s) [queue_put obj]
  else Outcome (Raise QueueError) s [queue_put obj].
Proof.
  unfold data_queue_put. rewrite bind_emit.
  destruct (queue_put_ok w obj); reflexivity.
Qed.

Lemma nn_eval_load_spec w obj s :
  nn_eval_load w obj s =
  if load_ok w obj
  then Outcome (Ok tt) (set_nn_model (Some obj) s) [nn_load obj]
  else Outcome (Raise LoadError) s [nn_load obj].
Proof.
  unfold nn_eval_load. rewrite bind_emit.
  destruct (load_ok w obj); reflexivity.
Qed.

(** One turn of the data receiver, outcome by outcome. *)
Lemma rcv_remote_data_once_spec w c s :
  rcv_remote_data_once w c s =
  match frame w c with
  | None => Outcome (Raise UnpicklingError) s (session_open c)
  | Some obj =>
      if queue_put_ok w obj
      then Outcome (Ok tt)
             (set_remote_worker_reg
                (dict_set (remote_worker_reg s) (client_address c) true)
                (set_data_queue (data_queue s ++ [obj]) s))
             (session_open c ++ session_close c ++ [queue_put obj])
      else Outcome (Raise QueueError) s
             (session_open c ++ session_close c ++ [queue_put obj])
  end.
Proof.
  unfold rcv_remote_data_once, printlog_thrd, frame, session_open, session_close.
  rewrite !bind_emit.
  rewrite (bind_run _ _ _ _ _ _ (recv_until_eof_spec (stream c) [] s)).
  cbn [app].
  rewrite (bind_run _ _ _ _ _ _ (pickle_loads_or_raise_spec w _ s)).
  destruct (pickle_loads w (received (stream c))) as [obj|].
  - rewrite !bind_emit.
    pose proof (data_queue_put_spec w obj s) as Hput.
    destruct (queue_put_ok w obj);
      rewrite (bind_run _ _ _ _ _ _ Hput);
      cbn; rewrite <- ?app_assoc; reflexivity.
  - cbn. rewrite <- ?app_assoc. reflexivity.
Qed.

Lemma rcv_remote_data_once_events w c s :
  events (rcv_remote_data_once w c s) = data_session w c.
Proof.
  rewrite rcv_remote_data_once_spec. unfold data_session.
  destruct (frame w c) as [obj|]; [| cbn; rewrite app_nil_r; reflexivity].
  destruct (queue_put_ok w obj); reflexivity.
Qed.

Lemma rcv_remote_data_once_raised w c s :
  raised (res (rcv_remote_data_once w c s)) = negb (data_frame_ok w c).
Proof.
  rewrite rcv_remote_data_once_spec. unfold data_frame_ok.
  destruct (frame w c) as [obj|]; [| reflexivity].
  destruct (queue_put_ok w obj); reflexivity.
Qed.

Lemma rcv_remote_data_once_final w c s :
  final (rcv_remote_data_once w c s) =
  if data_frame_ok w c then data_done w s c else s.
Proof.
  rewrite rcv_remote_data_once_spec. unfold data_frame_ok, data_done.
  destruct (frame w c) as [obj|]; [| reflexivity].
  destruct (queue_put_ok w obj); reflexivity.
Qed.

(** One turn of the update listener, outcome by outcome. *)
Lemma remote_update_once_spec w c s :
  remote_update_once w c s =
  match frame w c with
  | None => Outcome (Raise UnpicklingError) s (session_open c)
  | Some obj =>
      if load_ok w obj
      then Outcome (Ok tt) (set_nn_model (Some obj) s)
             (session_open c ++ session_close c ++ [nn_load obj])
      else Outcome (Raise LoadError) s
             (session_open c ++ session_close c ++ [nn_load obj])
  end.
Proof.
  unfold remote_update_once, printlog_thrd, frame, session_open, session_close.
  rewrite !bind_emit.
  rewrite (bind_run _ _ _ _ _ _ (recv_until_eof_spec (stream c) [] s)).
  cbn [app].
  rewrite (bind_run _ _ _ _ _ _ (pickle_loads_or_raise_spec w _ s)).
  destruct (pickle_loads w (received (stream c))) as [obj|].
  - rewrite !bind_emit. rewrite nn_eval_load_spec.
    destruct (load_ok w obj); cbn; rewrite <- ?app_assoc; reflexivity.
  - cbn. rewrite <- ?app_assoc. reflexivity.
Qed.

Lemma remote_update_once_events w c s :
  events (remote_update_once w c s) = update_session w c.
Proof.
  rewrite remote_update_once_spec. unfold update_session.
  destruct (frame w c) as [obj|]; [| cbn; rewrite app_nil_r; reflexivity].
  destruct (load_ok w obj); reflexivity.
Qed.

Lemma remote_update_once_raised w c s :
  raised (res (remote_update_once w c s)) = negb (update_frame_ok w c).
Proof.
  rewrite remote_update_once_spec. unfold update_frame_ok.
  destruct (frame w c) as [obj|]; [| reflexivity].
  destruct (load_ok w obj); reflexivity.
Qed.

(** The data receiver over connections whose frames are all good. *)
Lemma rcv_remote_data_loop_good w incoming :
  forall s,
    forallb (data_frame_ok w) incoming = true ->
    for_each incoming (rcv_remote_data_once w) s =
    Outcome (Ok tt) (foldl (data_done w) s incoming)
            (flat_map (data_session w) incoming).
Proof.
  induction incoming as [|c incoming IH]; intros s Hok; cbn [for_each foldl flat_map].
  - reflexivity.
  - cbn [forallb] in Hok. apply andb_prop in Hok as [Hc Hrest].
    pose proof (rcv_remote_data_once_events w c s) as Hev.
    pose proof (rcv_remote_data_once_raised w c s) as Hr.
    pose proof (rcv_remote_data_once_final w c s) as Hf.
    rewrite Hc in Hr, Hf.
    destruct (rcv_remote_data_once w c s) as [[[]|e] s1 ev1] eqn:E;
      cbn in Hev, Hr, Hf; [| discriminate Hr].
    subst s1 ev1. rewrite (bind_run _ _ _ _ _ _ E).
    rewrite (IH _ Hrest). reflexivity.
Qed.

Lemma data_queue_foldl_data_done w incoming :
  forall s,
    data_queue (foldl (data_done w) s incoming) =
    data_queue s ++ omap (frame w) incoming.
Proof.
  induction incoming as [|c incoming IH]; intros s; cbn -[frame data_done].
  - rewrite app_nil_r. reflexivity.
  - rewrite IH. unfold data_done.
    destruct (frame w c) as [obj|]; cbn -[frame]; [| reflexivity].
    rewrite <- app_assoc. reflexivity.
Qed.

Lemma rcv_remote_data_handler_unfold w incoming s :
  rcv_remote_data_handler w incoming s =
  logged [sock_bind (remote_port s)] (for_each incoming (rcv_remote_data_once w) s).
Proof. unfold rcv_remote_data_handler. rewrite bind_gets, bind_emit. reflexivity. Qed.

Lemma remote_update_handler_unfold w incoming s :
  remote_update_handler w incoming s =
  logged [sock_bind (remote_update_port s)] (for_each incoming (remote_update_once w) s).
Proof. unfold remote_update_handler. rewrite bind_gets, bind_emit. reflexivity. Qed.

(** Counting calls in a log. *)
Lemma count_if_app p evs1 evs2 :
  count_if p (evs1 ++ evs2) = (count_if p evs1 + count_if p evs2)%nat.
Proof. unfold count_if. rewrite List.filter_app, length_app. reflexivity. Qed.

Lemma count_if_recv p chunks :
  (forall chunk, p (sock_recv chunk) = false) ->
  count_if p (map sock_recv chunks) = 0%nat.
Proof.
  intros Hp. unfold count_if.
  induction chunks as [|c chunks IH]; cbn; [reflexivity |].
  rewrite Hp. exact IH.
Qed.

Lemma count_accept_session_open c : count_if is_accept (session_open c) = 1%nat.
Proof.
  unfold session_open. rewrite !count_if_app, count_if_recv by reflexivity.
  reflexivity.
Qed.

Lemma count_unpickle_session_open c : count_if is_unpickle (session_open c) = 1%nat.
Proof.
  unfold session_open. rewrite !count_if_app, count_if_recv by reflexivity.
  reflexivity.
Qed.

Lemma count_close_session_open c : count_if is_close (session_open c) = 0%nat.
Proof.
  unfold session_open. rewrite !count_if_app, count_if_recv by reflexivity.
  reflexivity.
Qed.

(** In the log of one connection: one [accept], one [pickle.loads],
    and one [close] if the bytes unpickled. *)
Lemma data_session_counts w c :
  count_if is_accept (data_session w c) = 1%nat /\
  count_if is_unpickle (data_session w c) = 1%nat /\
  count_if is_close (data_session w c) = (match frame w c with Some _ => 1 | None => 0 end)%nat.
Proof.
  unfold data_session.
  rewrite !count_if_app, count_accept_session_open,
    count_unpickle_session_open, count_close_session_open.
  destruct (frame w c); repeat split.
Qed.

Lemma update_session_counts w c :
  count_if is_accept (update_session w c) = 1%nat /\
  count_if is_unpickle (update_session w c) = 1%nat /\
  count_if is_close (update_session w c) = (match frame w c with Some _ => 1 | None => 0 end)%nat.
Proof.
  unfold update_session.
  rewrite !count_if_app, count_accept_session_open,
    count_unpickle_session_open, count_close_session_open.
  destruct (frame w c); repeat split.
Qed.

Lemma count_if_sessions p (session : connection -> list event) cs :
  Forall (fun c => count_if p (session c) = 1%nat) cs ->
  count_if p (flat_map session cs) = length cs.
Proof.
  induction 1 as [|c cs Hc _ IH]; cbn [flat_map length]; [reflexivity |].
  rewrite count_if_app, Hc, IH. reflexivity.
Qed.

Lemma data_frame_ok_frame w c : data_frame_ok w c = true -> is_Some (frame w c).
Proof. unfold data_frame_ok. destruct (frame w c); [eauto | discriminate]. Qed.

Lemma update_frame_ok_frame w c : update_frame_ok w c = true -> is_Some (frame w c).
Proof. unfold update_frame_ok. destruct (frame w c); [eauto | discriminate]. Qed.

(** C2, as the code has it.  Frames that unpickle and enqueue are
    taken one connection after the other.  At the first connection
    whose bytes do not unpickle, [pickle.loads] raises out of the
    handler: the handler ends with that exception, having neither
    closed that connection, enqueued anything for it nor touched the
    registry, and the connections after it are never accepted. *)
Theorem bad_frame_ends_data_receiver
    (w : world) (before : list connection) (c : connection)
    (after : list connection) (s : state) :
  forallb (data_frame_ok w) before = true ->
  frame w c = None ->
  let o := rcv_remote_data_handler w (before ++ c :: after) s in
  res (rcv_remote_data_handler w before s) = Ok tt /\
  res o = Raise UnpicklingError /\
  events o =
    sock_bind (remote_port s) :: flat_map (data_session w) before ++ session_open c /\
  count_if is_accept (events o) = S (length before) /\
  count_if is_close (events o) = length before /\
  final o = final (rcv_remote_data_handler w before s) /\
  data_queue (final o) = data_queue s ++ omap (frame w) before.
Proof.
  intros Hok Hbad. cbv zeta.
  rewrite !rcv_remote_data_handler_unfold.
  rewrite for_each_app.
  rewrite (bind_run _ _ _ _ _ _ (rcv_remote_data_loop_good w before s Hok)).
  rewrite (rcv_remote_data_loop_good w before s Hok).
  cbn [for_each].
  assert (rcv_remote_data_once w c (foldl (data_done w) s before) =
          Outcome (Raise UnpicklingError) (foldl (data_done w) s before)
                  (session_open c)) as Hc.
  { rewrite rcv_remote_data_once_spec, Hbad. reflexivity. }
  rewrite (bind_run _ _ _ _ _ _ Hc).
  cbn [logged res final events app].
  assert (Forall (fun c => is_Some (frame w c)) before) as Hframes.
  { apply Forall_forall. intros c' Hc'. apply data_frame_ok_frame.
    rewrite forallb_forall in Hok. apply Hok. apply list_elem_of_In. exact Hc'. }
  repeat split.
  - change (sock_bind (remote_port s) :: ?l) with ([sock_bind (remote_port s)] ++ l).
    rewrite !count_if_app, count_accept_session_open.
    rewrite count_if_sessions.
    + cbn. lia.
    + apply Forall_forall. intros c' _. apply data_session_counts.
  - change (sock_bind (remote_port s) :: ?l) with ([sock_bind (remote_port s)] ++ l).
    rewrite !count_if_app, count_close_session_open.
    rewrite count_if_sessions.
    + cbn. lia.
    + eapply Forall_impl; [exact Hframes |]. intros c' [obj Hobj]. cbn beta.
      destruct (data_session_counts w c') as (_ & _ & ->). rewrite Hobj. reflexivity.
  - apply data_queue_foldl_data_done.
Qed.

(** A connection with a byte that is no pickle, between two good ones:
    the second good one is never accepted. *)
Lemma bad_frame_ends_data_receiver_example :
  let s := init 2 5000 5001 "mnk" None in
  let good := mkConnection "10.0.0.2" [tag_dumps (PyStr "game"); []] in
  let bad := mkConnection "10.0.0.9" [[Byte.x00]] in
  let late := mkConnection "10.0.0.3" [tag_dumps (PyStr "late")] in
  let o := rcv_remote_data_handler calm ([good] ++ bad :: [late]) s in
  res o = Raise UnpicklingError /\
  count_if is_accept (events o) = 2%nat /\
  data_queue (final o) = [PyStr "game"].
Proof.
  cbv zeta.
  pose proof (bad_frame_ends_data_receiver calm
    [mkConnection "10.0.0.2" [tag_dumps (PyStr "game"); []]]
    (mkConnection "10.0.0.9" [[Byte.x00]])
    [mkConnection "10.0.0.3" [tag_dumps (PyStr "late")]]
    (init 2 5000 5001 "mnk" None) eq_refl eq_refl) as H.
  cbv zeta in H. destruct H as (_ & Hres & _ & Hacc & _ & _ & Hq).
  split; [exact Hres |]. split; [exact Hacc | exact Hq].
Defined.

(** C2, as stated, fails: after a connection whose bytes are no pickle
    the handler has ended, and a peer that connects next is not
    accepted. *)
Lemma data_receiver_stops_at_bad_frame :
  let s := init 2 5000 5001 "mnk" None in
  let bad := mkConnection "10.0.0.9" [[Byte.x00]] in
  let next := mkConnection "10.0.0.3" [tag_dumps (PyStr "game")] in
  let o := rcv_remote_data_handler calm [bad; next] s in
  res o = Raise UnpicklingError /\
  (sock_accept "10.0.0.3" ∉ events o) /\
  data_queue (final o) = [].
Proof.
  cbv zeta. split; [vm_compute; reflexivity |]. split; [| vm_compute; reflexivity].
  vm_compute events.
  repeat (apply not_elem_of_cons; split; [discriminate |]).
  apply not_elem_of_nil.
Qed.

(** A loop that fails on no item serves them all. *)
Lemma served_all {A} (ok : A -> bool) (xs : list A) :
  forallb ok xs = true -> served ok xs = xs.
Proof.
  induction xs as [|x xs IH]; cbn [served forallb]; [reflexivity |].
  intros H. apply andb_prop in H as [-> Hxs]. rewrite (IH Hxs). reflexivity.
Qed.

(** Any served item that is not the last one served was [ok]. *)
Lemma served_before_last {A} (ok : A -> bool) (xs : list A) :
  forall pre c next post,
    served ok xs = pre ++ c :: next :: post -> ok c = true.
Proof.
  induction xs as [|x xs IH]; intros pre c next post; cbn [served].
  - destruct pre; discriminate.
  - destruct (ok x) eqn:Hx.
    + destruct pre as [|p pre]; cbn [app].
      * intros [= <- _]. exact Hx.
      * intros [= _ H]. exact (IH _ _ _ _ H).
    + destruct pre as [|p [|p' pre]]; discriminate.
Qed.

Lemma rcv_remote_data_handler_events w incoming s :
  events (rcv_remote_data_handler w incoming s) =
  sock_bind (remote_port s)
  :: flat_map (data_session w) (served (data_frame_ok w) incoming).
Proof.
  rewrite rcv_remote_data_handler_unfold, events_logged.
  destruct (for_each_served (rcv_remote_data_once w) (data_frame_ok w)
              (data_session w) (rcv_remote_data_once_events w)
              (rcv_remote_data_once_raised w) incoming s) as [-> _].
  reflexivity.
Qed.

Lemma remote_update_handler_events w incoming s :
  events (remote_update_handler w incoming s) =
  sock_bind (remote_update_port s)
  :: flat_map (update_session w) (served (update_frame_ok w) incoming).
Proof.
  rewrite remote_update_handler_unfold, events_logged.
  destruct (for_each_served (remote_update_once w) (update_frame_ok w)
              (update_session w) (remote_update_once_events w)
              (remote_update_once_raised w) incoming s) as [-> _].
  reflexivity.
Qed.

(** An item the loop failed on is the last one it got to. *)
Lemma served_ends_at_failure {A} (ok : A -> bool) (xs : list A) :
  forall pre c post,
    served ok xs = pre ++ c :: post -> ok c = false -> post = [].
Proof.
  induction xs as [|x xs IH]; intros pre c post; cbn [served].
  - destruct pre; discriminate.
  - destruct (ok x) eqn:Hx.
    + destruct pre as [|p pre]; cbn [app].
      * intros [= <- _] Hc. congruence.
      * intros [= _ H] Hc. exact (IH _ _ _ H Hc).
    + destruct pre as [|p pre]; cbn [app].
      * intros [= _ <-] _. reflexivity.
      * intros [= _ H]. destruct pre; discriminate H.
Qed.

(** The connections closed are those whose bytes unpickled. *)
Lemma count_close_sessions w (session : connection -> list event) cs :
  (forall c, count_if is_close (session c) =
             match frame w c with Some _ => 1 | None => 0 end%nat) ->
  count_if is_close (flat_map session cs) = length (omap (frame w) cs).
Proof.
  intros Hc. induction cs as [|c cs IH]; cbn [flat_map]; [reflexivity |].
  rewrite count_if_app, Hc, IH. cbn [omap list_omap].
  destruct (frame w c); reflexivity.
Qed.

(** C6, as the code has it.  Either receiving handler works through
    the connections one at a time; its log is the sequence of their
    sessions, one [accept] and one [pickle.loads] of all the bytes
    received each, and a session is over before the next [accept].  A
    connection whose bytes unpickle is closed and its frame then handed
    on ([data_queue.put] or [nn_eval.load]).  A connection whose bytes
    do not unpickle is accepted and read to its end, but it is neither
    closed nor is anything handed on for it, and it is the last
    connection the handler accepts: the handler has closed as many
    connections as frames unpickled, which may be one fewer than it
    accepted. *)
Theorem one_frame_per_connection
    (w : world) (incoming : list connection) (s : state) :
  events (rcv_remote_data_handler w incoming s) =
    sock_bind (remote_port s)
    :: flat_map (data_session w) (served (data_frame_ok w) incoming) /\
  events (remote_update_handler w incoming s) =
    sock_bind (remote_update_port s)
    :: flat_map (update_session w) (served (update_frame_ok w) incoming) /\
  (forall c,
     count_if is_accept (data_session w c) = 1%nat /\
     count_if is_unpickle (data_session w c) = 1%nat /\
     count_if is_accept (update_session w c) = 1%nat /\
     count_if is_unpickle (update_session w c) = 1%nat) /\
  (forall pre c post,
     served (data_frame_ok w) incoming = pre ++ c :: post ->
     match frame w c with
     | Some obj =>
         data_session w c = session_open c ++ session_close c ++ [queue_put obj]
     | None =>
         data_session w c = session_open c /\
         count_if is_close (data_session w c) = 0%nat /\
         post = []
     end) /\
  (forall pre c post,
     served (update_frame_ok w) incoming = pre ++ c :: post ->
     match frame w c with
     | Some obj =>
         update_session w c = session_open c ++ session_close c ++ [nn_load obj]
     | None =>
         update_session w c = session_open c /\
         count_if is_close (update_session w c) = 0%nat /\
         post = []
     end) /\
  count_if is_accept (events (rcv_remote_data_handler w incoming s)) =
    length (served (data_frame_ok w) incoming) /\
  count_if is_close (events (rcv_remote_data_handler w incoming s)) =
    length (omap (frame w) (served (data_frame_ok w) incoming)) /\
  count_if is_accept (events (remote_update_handler w incoming s)) =
    length (served (update_frame_ok w) incoming) /\
  count_if is_close (events (remote_update_handler w incoming s)) =
    length (omap (frame w) (served (update_frame_ok w) incoming)).
Proof.
  split; [apply rcv_remote_data_handler_events |].
  split; [apply remote_update_handler_events |].
  split.
  { intros c.
    destruct (data_session_counts w c) as (-> & -> & _).
    destruct (update_session_counts w c) as (-> & -> & _).
    repeat split. }
  split.
  { intros pre c post Hserved. unfold data_session.
    destruct (frame w c) as [obj|] eqn:Hframe; [reflexivity |].
    rewrite app_nil_r. split; [reflexivity |].
    split; [apply count_close_session_open |].
    apply (served_ends_at_failure _ _ _ _ _ Hserved).
    unfold data_frame_ok. rewrite Hframe. reflexivity. }
  split.
  { intros pre c post Hserved. unfold update_session.
    destruct (frame w c) as [obj|] eqn:Hframe; [reflexivity |].
    rewrite app_nil_r. split; [reflexivity |].
    split; [apply count_close_session_open |].
    apply (served_ends_at_failure _ _ _ _ _ Hserved).
    unfold update_frame_ok. rewrite Hframe. reflexivity. }
  rewrite rcv_remote_data_handler_events, remote_update_handler_events.
  change (count_if ?p (?e :: ?l)) with (count_if p ([e] ++ l)).
  rewrite !count_if_app.
  split; [| split; [| split]].
  - rewrite count_if_sessions; [reflexivity |].
    apply Forall_forall. intros c _. apply data_session_counts.
  - rewrite (count_close_sessions w); [reflexivity |].
    intros c. apply data_session_counts.
  - rewrite count_if_sessions; [reflexivity |].
    apply Forall_forall. intros c _. apply update_session_counts.
  - rewrite (count_close_sessions w); [reflexivity |].
    intros c. apply update_session_counts.
Qed.

(** C6, as stated, fails: a connection whose bytes are no pickle is
    accepted and read, but the handler ends without closing it and
    without handing anything on. *)
Lemma accepted_connection_left_open :
  let s := init 2 5000 5001 "mnk" None in
  let bad := mkConnection "10.0.0.9" [[Byte.x00]] in
  let o := rcv_remote_data_handler calm [bad] s in
  res o = Raise UnpicklingError /\
  (sock_accept "10.0.0.9" ∈ events o) /\
  (sock_close "10.0.0.9" ∉ events o) /\
  data_queue (final o) = [].
Proof.
  cbv zeta. split; [vm_compute; reflexivity |].
  split; [| split; [| vm_compute; reflexivity]]; vm_compute events.
  - do 3 apply list_elem_of_further. apply list_elem_of_here.
  - repeat (apply not_elem_of_cons; split; [discriminate |]).
    apply not_elem_of_nil.
Qed.

(** Two peers, the first sending its frame in two chunks. *)
Example one_frame_per_connection_example :
  events (rcv_remote_data_handler calm
            [mkConnection "10.0.0.2"
               [tag_dumps (PyStr "ga"); String.list_byte_of_string "me"];
             mkConnection "10.0.0.3" [tag_dumps (PyStr "set")]]
            (init 2 5000 5001 "mnk" None)) =
  [sock_bind 5000;
   sock_listen; printlog ["waiting for a connection..."];
   sock_accept "10.0.0.2"; printlog ["connected to"; "10.0.0.2"];
   sock_recv (tag_dumps (PyStr "ga"));
   sock_recv (String.list_byte_of_string "me");
   sock_recv [];
   unpickle (tag_dumps (PyStr "game"));
   sock_close "10.0.0.2"; printlog ["frame received"];
   queue_put (PyStr "game");
   sock_listen; printlog ["waiting for a connection..."];
   sock_accept "10.0.0.3"; printlog ["connected to"; "10.0.0.3"];
   sock_recv (tag_dumps (PyStr "set"));
   sock_recv [];
   unpickle (tag_dumps (PyStr "set"));
   sock_close "10.0.0.3"; printlog ["frame received"];
   queue_put (PyStr "set")].
Proof. vm_compute. reflexivity. Qed.

End Receivers.

(** ** The registry of remote workers *)

Section Registry.
Import Selfplay.

Lemma dict_get_set (d : list (string * bool)) key v :
  dict_get (dict_set d key v) key = Some v.
Proof.
  induction d as [|[key' v'] d IH]; cbn [dict_set dict_get].
  - rewrite decide_True by reflexivity. reflexivity.
  - destruct (decide (key' = key)) as [->|Hne]; cbn [dict_get].
    + rewrite decide_True by reflexivity. reflexivity.
    + rewrite decide_False by exact Hne. exact IH.
Qed.

(** Setting a key keeps the keys there are, in their order, and puts a
    new key last. *)
Lemma dict_keys_set (d : list (string * bool)) key v :
  dict_keys (dict_set d key v) =
  if decide (key ∈ dict_keys d) then dict_keys d else dict_keys d ++ [key].
Proof.
  unfold dict_keys. induction d as [|[key' v'] d IH]; cbn [dict_set fmap list_fmap].
  - rewrite decide_False by apply not_elem_of_nil. reflexivity.
  - destruct (decide (key' = key)) as [->|Hne]; cbn [fmap list_fmap fst].
    + rewrite decide_True by apply list_elem_of_here. reflexivity.
    + change (list_fmap _ _ fst ?l) with (fst <$> l) in *. rewrite IH.
      destruct (decide (key ∈ fst <$> d)) as [Hin|Hnin].
      * rewrite decide_True by (apply list_elem_of_further; exact Hin). reflexivity.
      * rewrite decide_False; [reflexivity |].
        intros Hin. apply elem_of_cons in Hin as [-> | Hin]; [exact (Hne eq_refl) | exact (Hnin Hin)].
Qed.

Lemma dict_keys_set_grow (d : list (string * bool)) key v :
  dict_keys d ⊆ dict_keys (dict_set d key v).
Proof.
  rewrite dict_keys_set. case_decide; [reflexivity |].
  intros x Hx. apply elem_of_app. left. exact Hx.
Qed.

Lemma keys_grow_refl s : keys_grow s s.
Proof. unfold keys_grow. reflexivity. Qed.

Lemma keys_grow_trans s1 s2 s3 : keys_grow s1 s2 -> keys_grow s2 s3 -> keys_grow s1 s3.
Proof. unfold keys_grow. intros H12 H23. etrans; eassumption. Qed.

Lemma same_reg_refl s : same_reg s s.
Proof. reflexivity. Qed.

Lemma same_reg_trans s1 s2 s3 : same_reg s1 s2 -> same_reg s2 s3 -> same_reg s1 s3.
Proof. unfold same_reg. congruence. Qed.

(** No step of the component takes a key out of the registry. *)
Lemma sys_step_keys_grow w a y y' :
  sys_step w a y = Some y' -> keys_grow (self y) (self y').
Proof.
  assert (forall h m, stable keys_grow m -> thread_step h m y = Some y' ->
                      keys_grow (self y) (self y')) as Hthread.
  { intros h m Hm. unfold thread_step. case_decide; [| discriminate].
    intros [= <-]. apply Hm. }
  assert (forall s addr,
            keys_grow s (set_remote_worker_reg
                           (dict_set (remote_worker_reg s) addr true) s)) as Hreg.
  { intros s addr. unfold keys_grow. cbn. apply dict_keys_set_grow. }
  destruct a as [| |i g|c|c|path]; cbn [sys_step].
  - destruct (holding y); [discriminate |].
    destruct (Nat.eqb (worker_lim (self y)) 0); [discriminate |].
    intros [= <-].
    refine (stable_run_acquire keys_grow _ _ _ (self y));
      first [exact keys_grow_refl | exact keys_grow_trans | intros; unfold keys_grow; cbn; reflexivity].
  - destruct (holding y); [| discriminate].
    intros [= <-].
    refine (stable_run_start keys_grow _ _ (cnt y) (self y));
      [exact keys_grow_refl | exact keys_grow_trans].
  - case_decide; [| discriminate].
    intros [= <-].
    refine (stable_selfplay_wrapper keys_grow _ _ _ _ _ w g (self y));
      first [exact keys_grow_refl | exact keys_grow_trans | intros; unfold keys_grow; cbn; reflexivity].
  - apply Hthread.
    apply stable_rcv_remote_data_once;
      first [exact keys_grow_refl | exact keys_grow_trans | exact Hreg
            | intros; unfold keys_grow; cbn; reflexivity].
  - apply Hthread.
    apply stable_remote_update_once;
      first [exact keys_grow_refl | exact keys_grow_trans | intros; unfold keys_grow; cbn; reflexivity].
  - apply Hthread.
    apply stable_model_update_once;
      first [exact keys_grow_refl | exact keys_grow_trans | intros; unfold keys_grow; cbn; reflexivity].
Qed.

Lemma sys_run_keys_grow w schedule :
  forall y y', sys_run w schedule y = Some y' -> keys_grow (self y) (self y').
Proof.
  induction schedule as [|a schedule IH]; intros y y'; cbn [sys_run].
  - intros [= <-]. apply keys_grow_refl.
  - destruct (sys_step w a y) as [y1|] eqn:Hstep; [| discriminate].
    intros Hrun. eapply keys_grow_trans; [exact (sys_step_keys_grow _ _ _ _ Hstep) |].
    exact (IH _ _ Hrun).
Qed.

(** C8. The registry starts empty.  A turn of the data receiver that
    unpickles a frame and enqueues it sets the entry of the peer's
    address to [True] - a new entry, put last, when the address had
    none, the same keys otherwise - and a turn that fails leaves the
    registry as it was.  Over any sequence of steps of the component
    (launches, worker units ending, connections to either handler,
    control messages) every key of the registry stays a key. *)
Theorem registry_only_grows (w : world) :
  (forall N rp rup name remote, remote_worker_reg (init N rp rup name remote) = []) /\
  (forall c s,
     remote_worker_reg (final (rcv_remote_data_once w c s)) =
     if data_frame_ok w c
     then dict_set (remote_worker_reg s) (client_address c) true
     else remote_worker_reg s) /\
  (forall d addr,
     dict_get (dict_set d addr true) addr = Some true /\
     dict_keys (dict_set d addr true) =
       if decide (addr ∈ dict_keys d) then dict_keys d else dict_keys d ++ [addr]) /\
  (forall schedule y y',
     sys_run w schedule y = Some y' ->
     dict_keys (remote_worker_reg (self y)) ⊆ dict_keys (remote_worker_reg (self y'))).
Proof.
  split; [| split; [| split]].
  - reflexivity.
  - intros c s. rewrite rcv_remote_data_once_final.
    destruct (data_frame_ok w c) eqn:Hok; [| reflexivity].
    apply data_frame_ok_frame in Hok as [obj Hobj].
    unfold data_done. rewrite Hobj. reflexivity.
  - intros d addr. split; [apply dict_get_set | apply dict_keys_set].
  - intros schedule y y' Hrun. exact (sys_run_keys_grow w schedule y y' Hrun).
Qed.

(** Two peers deliver, the first one twice: two entries, in the order
    of their first frames. *)
Example registry_only_grows_example :
  let peer a := mkConnection a [tag_dumps (PyStr "game")] in
  sys_run calm
    [data_connects (peer "10.0.0.2"); data_connects (peer "10.0.0.3");
     data_connects (peer "10.0.0.2")]
    (sys_init (init 2 5000 5001 "mnk" None))
  ≫= (fun y => Some (remote_worker_reg (self y)))
  = Some [("10.0.0.2", true); ("10.0.0.3", true)].
Proof. vm_compute. reflexivity. Qed.

End Registry.

(** ** [Selfplay.model_update_handler] *)

Section ModelUpdate.
Import Selfplay.

Lemma Remote_Queue_put_spec w addr port obj s :
  Remote_Queue_put w addr port obj s =
  Outcome (if put_returns w port addr then Ok tt else Raise ConnectionError) s
    (remote_put addr port obj ::
     match transport w addr port with
     | put_sent => [frame_sent addr port (pickle_dumps w obj)]
     | put_failed_reported => [printlog ["remote unreachable"; addr]]
     | put_failed_raised => []
     end).
Proof.
  unfold Remote_Queue_put, put_returns, printlog_thrd. rewrite bind_emit.
  destruct (transport w addr port); reflexivity.
Qed.

(** The notifying loop: it leaves the state alone, and stops at the
    first address on which [put] raises. *)
Lemma notify_loop w path s (reg : list (string * bool)) :
  let port := remote_update_port s in
  let id := PyStr (ckpt_path (game_name s) path) in
  for_each (dict_items reg)
    (fun '(addr, _) =>
       printlog_thrd ["remote update"; addr];;
       port ← gets remote_update_port;
       name ← gets game_name;
       Remote_Queue_put w addr port (PyStr (ckpt_path name path))) s =
  Outcome (if forallb (put_returns w port) (dict_keys reg)
           then Ok tt else Raise ConnectionError)
          s
          (flat_map (notify_events w port id)
                    (served (put_returns w port) (dict_keys reg))).
Proof.
  cbv zeta. unfold dict_items, dict_keys.
  induction reg as [|[addr flag] reg IH]; cbn [for_each fmap list_fmap fst].
  - reflexivity.
  - change (list_fmap _ _ fst reg) with (fst <$> reg).
    cbn [forallb served].
    rewrite bind_assoc. unfold printlog_thrd at 1. rewrite bind_emit.
    rewrite bind_assoc, bind_gets, bind_assoc, bind_gets.
    rewrite (bind_run _ _ _ _ _ _ (Remote_Queue_put_spec w addr _ _ s)).
    unfold notify_events at 1.
    destruct (put_returns w (remote_update_port s) addr) eqn:Hput.
    + rewrite IH. cbn [andb flat_map].
      destruct (forallb _ _); cbn; reflexivity.
    + cbn. rewrite app_nil_r. reflexivity.
Qed.

(** One model update, outcome by outcome. *)
Lemma model_update_once_spec w path s :
  let port := remote_update_port s in
  let id := PyStr (ckpt_path (game_name s) path) in
  let keys := dict_keys (remote_worker_reg s) in
  model_update_once w path s =
  if forallb (put_returns w port) keys
  then logged (flat_map (notify_events w port id) keys) (nn_eval_load w id s)
  else Outcome (Raise ConnectionError) s
         (flat_map (notify_events w port id) (served (put_returns w port) keys)).
Proof.
  cbv zeta. unfold model_update_once. rewrite bind_gets.
  rewrite (bind_run _ _ _ _ _ _ (notify_loop w path s (remote_worker_reg s))).
  destruct (forallb _ _) eqn:Hall; [| reflexivity].
  rewrite bind_gets, (served_all _ _ Hall). reflexivity.
Qed.

Lemma update_calls_notify w port id addr :
  List.filter is_update_call (notify_events w port id addr) = [remote_put addr port id].
Proof. unfold notify_events. destruct (transport w addr port); reflexivity. Qed.

Lemma update_calls_notify_all w port id addrs :
  List.filter is_update_call (flat_map (notify_events w port id) addrs) =
  map (fun addr => remote_put addr port id) addrs.
Proof.
  induction addrs as [|addr addrs IH]; cbn [flat_map map]; [reflexivity |].
  rewrite List.filter_app, update_calls_notify, IH. reflexivity.
Qed.

Lemma no_load_in_notify w port id addrs obj :
  nn_load obj ∉ flat_map (notify_events w port id) addrs.
Proof.
  induction addrs as [|addr addrs IH]; cbn [flat_map]; [apply not_elem_of_nil |].
  intros H. apply elem_of_app in H as [H | H]; [| exact (IH H)].
  unfold notify_events in H. destruct (transport w addr port); cbn in H;
    repeat (apply elem_of_cons in H as [H | H]; [discriminate H |]);
    inversion H.
Qed.

Lemma put_in_notify w port id addrs addr :
  addr ∈ addrs -> remote_put addr port id ∈ flat_map (notify_events w port id) addrs.
Proof.
  induction addrs as [|a addrs IH]; intros H; [inversion H |].
  cbn [flat_map]. apply elem_of_app.
  apply elem_of_cons in H as [-> | H]; [left | right; exact (IH H)].
  unfold notify_events. cbn. apply list_elem_of_further, list_elem_of_here.
Qed.

(** The one place of an element that occurs last and nowhere before. *)
Lemma last_occurrence {A} (l pre post : list A) (x y : A) :
  l ++ [x] = pre ++ y :: post -> y ∉ l -> pre = l /\ y = x /\ post = [].
Proof.
  revert pre. induction l as [|a l IH]; intros pre; cbn [app].
  - destruct pre as [|p pre]; cbn [app].
    + intros [= -> <-] _. auto.
    + intros [= _ H]. destruct pre; discriminate H.
  - destruct pre as [|p pre]; cbn [app].
    + intros [= -> _] Hy. exfalso. apply Hy. apply list_elem_of_here.
    + intros [= -> H] Hy.
      destruct (IH pre H) as (-> & -> & ->).
      * intros Hin. apply Hy. apply list_elem_of_further. exact Hin.
      * auto.
Qed.

Lemma model_update_once_calls w path s :
  List.filter is_update_call (events (model_update_once w path s)) =
  map (fun addr => remote_put addr (remote_update_port s)
                     (PyStr (ckpt_path (game_name s) path)))
      (served (put_returns w (remote_update_port s))
              (dict_keys (remote_worker_reg s)))
  ++ (if forallb (put_returns w (remote_update_port s))
                 (dict_keys (remote_worker_reg s))
      then [nn_load (PyStr (ckpt_path (game_name s) path))] else []).
Proof.
  rewrite model_update_once_spec.
  destruct (forallb _ _) eqn:Hall.
  - rewrite events_logged, nn_eval_load_spec, List.filter_app,
      update_calls_notify_all, (served_all _ _ Hall).
    destruct (load_ok w _); reflexivity.
  - cbn [events]. rewrite update_calls_notify_all, app_nil_r. reflexivity.
Qed.

(** C5. On a model identifier from the control pipe, the handler's
    calls to remote queues and to the evaluator are: one [put] of the
    checkpoint name per registry entry, in the registry's order, and
    then one [load] of that name.  The [load] is the last call and
    every entry's [put] precedes it; if a [put] raises, the entries
    after it get none and there is no [load]. *)
Theorem fan_out_then_load (w : world) (path : pyobj) (s : state) :
  let o := model_update_once w path s in
  let port := remote_update_port s in
  let id := PyStr (ckpt_path (game_name s) path) in
  let keys := dict_keys (remote_worker_reg s) in
  List.filter is_update_call (events o) =
    map (fun addr => remote_put addr port id) (served (put_returns w port) keys)
    ++ (if forallb (put_returns w port) keys then [nn_load id] else []) /\
  (forall pre obj post,
     events o = pre ++ nn_load obj :: post ->
     obj = id /\ post = [] /\
     served (put_returns w port) keys = keys /\
     forall addr, addr ∈ keys -> remote_put addr port id ∈ pre).
Proof.
  cbv zeta. rewrite model_update_once_spec.
  destruct (forallb _ _) eqn:Hall.
  - rewrite events_logged, nn_eval_load_spec.
    assert (events (if load_ok w (PyStr (ckpt_path (game_name s) path))
                    then Outcome (Ok tt)
                           (set_nn_model (Some (PyStr (ckpt_path (game_name s) path))) s)
                           [nn_load (PyStr (ckpt_path (game_name s) path))]
                    else Outcome (Raise LoadError) s
                           [nn_load (PyStr (ckpt_path (game_name s) path))]) =
            [nn_load (PyStr (ckpt_path (game_name s) path))]) as ->.
    { destruct (load_ok w _); reflexivity. }
    split.
    + rewrite List.filter_app, update_calls_notify_all, (served_all _ _ Hall).
      reflexivity.
    + intros pre obj post Hsplit.
      apply last_occurrence in Hsplit as (-> & [= ->] & ->);
        [| apply no_load_in_notify].
      repeat split; [apply (served_all _ _ Hall) |].
      intros addr Haddr. apply put_in_notify. exact Haddr.
  - cbn [events]. split.
    + rewrite update_calls_notify_all, app_nil_r. reflexivity.
    + intros pre obj post Hsplit. exfalso.
      apply (no_load_in_notify w (remote_update_port s)
               (PyStr (ckpt_path (game_name s) path))
               (served (put_returns w (remote_update_port s))
                       (dict_keys (remote_worker_reg s))) obj).
      rewrite Hsplit. apply elem_of_app. right. apply list_elem_of_here.
Qed.

(** With two registered remotes, update 7 goes to both, then to the
    local evaluator. *)
Example fan_out_then_load_example :
  List.filter is_update_call
    (events (model_update_once calm (PyInt 7)
               (set_remote_worker_reg [("10.0.0.2", true); ("10.0.0.3", true)]
                  (init 2 5000 5001 "mnk" None)))) =
  [remote_put "10.0.0.2" 5001 (PyStr "./mnk_model/ckpt-7");
   remote_put "10.0.0.3" 5001 (PyStr "./mnk_model/ckpt-7");
   nn_load (PyStr "./mnk_model/ckpt-7")].
Proof. vm_compute. reflexivity. Qed.

Lemma spec_transport_returns w reachable port addrs :
  forallb (put_returns (with_transport (Remote_Queue_spec reachable) w) port) addrs = true.
Proof.
  induction addrs as [|a addrs IH]; cbn [forallb]; [reflexivity |].
  rewrite IH, andb_true_r.
  unfold put_returns, with_transport, Remote_Queue_spec. cbn.
  destruct (reachable a port); reflexivity.
Qed.

Lemma notify_in_events w port id addrs addr e :
  addr ∈ addrs -> e ∈ notify_events w port id addr ->
  e ∈ flat_map (notify_events w port id) addrs.
Proof.
  induction addrs as [|a addrs IH]; intros H He; [inversion H |].
  cbn [flat_map]. apply elem_of_app.
  apply elem_of_cons in H as [-> | H]; [left; exact He | right; exact (IH H He)].
Qed.

(** C3, with [Remote_Queue.put] as the spec describes it.  Whatever
    addresses are registered and whichever of them cannot be reached,
    a model update calls [put] for every registered address and then
    [load] on the local evaluator; a reachable address is sent the
    frame with the checkpoint name, an unreachable one is reported; and
    the update ends as the local [load] ends, never with a connection
    error. *)
Theorem unreachable_remote_does_not_stop_broadcast
    (w : world) (reachable : string -> Z -> bool) (path : pyobj) (s : state) :
  let w' := with_transport (Remote_Queue_spec reachable) w in
  let o := model_update_once w' path s in
  let port := remote_update_port s in
  let id := PyStr (ckpt_path (game_name s) path) in
  let keys := dict_keys (remote_worker_reg s) in
  List.filter is_update_call (events o) =
    map (fun addr => remote_put addr port id) keys ++ [nn_load id] /\
  (forall addr, addr ∈ keys ->
     if reachable addr port
     then frame_sent addr port (pickle_dumps w id) ∈ events o
     else printlog ["remote unreachable"; addr] ∈ events o) /\
  res o = (if load_ok w id then Ok tt else Raise LoadError) /\
  nn_model (final o) = (if load_ok w id then Some id else nn_model s).
Proof.
  cbv zeta.
  pose proof (model_update_once_calls (with_transport (Remote_Queue_spec reachable) w)
                path s) as Hcalls.
  rewrite spec_transport_returns in Hcalls.
  rewrite (served_all _ _ (spec_transport_returns w reachable _ _)) in Hcalls.
  split; [exact Hcalls |]. clear Hcalls.
  rewrite model_update_once_spec, spec_transport_returns.
  rewrite events_logged, res_logged, final_logged, nn_eval_load_spec.
  change (load_ok (with_transport (Remote_Queue_spec reachable) w)) with (load_ok w).
  split; [| destruct (load_ok w _); split; reflexivity].
  intros addr Haddr.
  assert (forall e,
            e ∈ notify_events (with_transport (Remote_Queue_spec reachable) w)
                  (remote_update_port s) (PyStr (ckpt_path (game_name s) path)) addr ->
            e ∈ flat_map
                  (notify_events (with_transport (Remote_Queue_spec reachable) w)
                     (remote_update_port s) (PyStr (ckpt_path (game_name s) path)))
                  (dict_keys (remote_worker_reg s)) ++
                events (if load_ok w (PyStr (ckpt_path (game_name s) path))
                        then Outcome (Ok tt)
                               (set_nn_model
                                  (Some (PyStr (ckpt_path (game_name s) path))) s)
                               [nn_load (PyStr (ckpt_path (game_name s) path))]
                        else Outcome (Raise LoadError) s
                               [nn_load (PyStr (ckpt_path (game_name s) path))]))
    as Hin.
  { intros e He. apply elem_of_app. left.
    exact (notify_in_events _ _ _ _ _ _ Haddr He). }
  unfold notify_events, with_transport, Remote_Queue_spec in Hin. cbn in Hin.
  destruct (reachable addr (remote_update_port s)); apply Hin;
    apply list_elem_of_further, list_elem_of_further, list_elem_of_here.
Qed.

(** Two registered remotes, the first unreachable: it is reported, the
    second gets its frame, the local evaluator loads. *)
Example unreachable_remote_example :
  let w := with_transport
             (Remote_Queue_spec (fun addr _ => negb (String.eqb addr "10.0.0.2")))
             calm in
  let o := model_update_once w (PyInt 7)
             (set_remote_worker_reg [("10.0.0.2", true); ("10.0.0.3", true)]
                (init 2 5000 5001 "mnk" None)) in
  events o =
    [printlog ["remote update"; "10.0.0.2"];
     remote_put "10.0.0.2" 5001 (PyStr "./mnk_model/ckpt-7");
     printlog ["remote unreachable"; "10.0.0.2"];
     printlog ["remote update"; "10.0.0.3"];
     remote_put "10.0.0.3" 5001 (PyStr "./mnk_model/ckpt-7");
     frame_sent "10.0.0.3" 5001 (tag_dumps (PyStr "./mnk_model/ckpt-7"));
     nn_load (PyStr "./mnk_model/ckpt-7")] /\
  nn_model (final o) = Some (PyStr "./mnk_model/ckpt-7").
Proof. cbv zeta. split; vm_compute; reflexivity. Qed.

(** The handler itself catches nothing: were [put] to raise on an
    unreachable remote instead, the update would end there, with no
    [put] for the remotes after it and no local [load]. *)
Example raising_put_would_stop_broadcast :
  let w := with_transport
             (fun addr _ => if String.eqb addr "10.0.0.2"
                            then put_failed_raised else put_sent)
             calm in
  let o := model_update_once w (PyInt 7)
             (set_remote_worker_reg [("10.0.0.2", true); ("10.0.0.3", true)]
                (init 2 5000 5001 "mnk" None)) in
  res o = Raise ConnectionError /\
  events o =
    [printlog ["remote update"; "10.0.0.2"];
     remote_put "10.0.0.2" 5001 (PyStr "./mnk_model/ckpt-7")] /\
  nn_model (final o) = None.
Proof. cbv zeta. repeat split; vm_compute; reflexivity. Qed.

Lemma carries_notify w port id addrs :
  Forall (carries w id) (flat_map (notify_events w port id) addrs).
Proof.
  induction addrs as [|a addrs IH]; cbn [flat_map]; [constructor |].
  apply Forall_app. split; [| exact IH].
  unfold notify_events. destruct (transport w a port); cbn;
    repeat constructor.
Qed.

Lemma update_calls_recv chunks :
  List.filter is_update_call (map sock_recv chunks) = [].
Proof. induction chunks as [|c chunks IH]; [reflexivity | exact IH]. Qed.

Lemma update_calls_session w c :
  List.filter is_update_call (update_session w c) =
  match frame w c with
  | Some obj => [nn_load obj]
  | None => []
  end.
Proof.
  unfold update_session, session_open, session_close.
  rewrite !List.filter_app, update_calls_recv.
  destruct (frame w c); reflexivity.
Qed.

(** C9. For every path value that arrives on the control pipe, every
    identifier the master's update handler hands out - the object of
    each [put] to a remote, the payload of each frame sent, the
    argument of its own [load] - is the one string
    ['./' + name + '_model/ckpt-' + str(path)].  A remote's update
    listener calls [load] with just what it unpickled from the
    connection; so when the master's frame arrives whole and unpickles
    to what was pickled, the remote loads that same string, and the
    models active on master and remote after successful loads are the
    same. *)
Theorem same_identifier_on_master_and_remotes
    (w : world) (path : pyobj) (s : state) :
  let id := PyStr ("./" +:+ game_name s +:+ "_model/ckpt-" +:+ py_str path) in
  Forall (carries w id) (events (model_update_once w path s)) /\
  (forall c s',
     List.filter is_update_call (events (remote_update_once w c s')) =
     match frame w c with
     | Some obj => [nn_load obj]
     | None => []
     end) /\
  (forall c s',
     received (stream c) = pickle_dumps w id ->
     pickle_loads w (pickle_dumps w id) = Some id ->
     List.filter is_update_call (events (remote_update_once w c s')) = [nn_load id] /\
     (load_ok w id = true ->
      forallb (put_returns w (remote_update_port s))
              (dict_keys (remote_worker_reg s)) = true ->
      nn_model (final (remote_update_once w c s')) = Some id /\
      nn_model (final (model_update_once w path s)) = Some id)).
Proof.
  cbv zeta.
  change ("./" +:+ game_name s +:+ "_model/ckpt-" +:+ py_str path)
    with (ckpt_path (game_name s) path).
  split; [| split].
  - rewrite model_update_once_spec.
    destruct (forallb _ _).
    + rewrite events_logged. apply Forall_app. split; [apply carries_notify |].
      rewrite nn_eval_load_spec. destruct (load_ok w _); repeat constructor.
    + apply carries_notify.
  - intros c s'. rewrite remote_update_once_events. apply update_calls_session.
  - intros c s' Hrecv Hround.
    assert (frame w c = Some (PyStr (ckpt_path (game_name s) path))) as Hframe.
    { unfold frame. rewrite Hrecv. exact Hround. }
    split.
    + rewrite remote_update_once_events, update_calls_session, Hframe. reflexivity.
    + intros Hload Hputs. split.
      * rewrite remote_update_once_spec, Hframe, Hload. reflexivity.
      * rewrite model_update_once_spec, Hputs, final_logged, nn_eval_load_spec, Hload.
        reflexivity.
Qed.

(** Update 7 of game "mnk": the frame the master sends to 10.0.0.3,
    delivered in two chunks, makes the remote load the master's string. *)
Example same_identifier_example :
  let master := set_remote_worker_reg [("10.0.0.3", true)]
                  (init 2 5000 5001 "mnk" None) in
  let remote := init 2 5000 5001 "mnk" (Some (PyBool true)) in
  let payload := tag_dumps (PyStr "./mnk_model/ckpt-7") in
  frame_sent "10.0.0.3" 5001 payload ∈ events (model_update_once calm (PyInt 7) master) /\
  nn_model (final (model_update_once calm (PyInt 7) master)) =
    Some (PyStr "./mnk_model/ckpt-7") /\
  nn_model (final (remote_update_once calm
                     (mkConnection "10.0.0.1" [take 5 payload; drop 5 payload])
                     remote)) =
    Some (PyStr "./mnk_model/ckpt-7").
Proof.
  cbv zeta. split; [| split; vm_compute; reflexivity].
  vm_compute events.
  apply list_elem_of_further, list_elem_of_further, list_elem_of_here.
Qed.

End ModelUpdate.

(** ** Master and remote sessions *)

Section Sessions.
Import Selfplay.

Lemma run_threads_events s :
  events (run_threads s) =
  printlog ["start"] ::
  (if truthy (ext_remote s)
   then [thread_start remote_update_hndl "selfplay_remote_update_hndl"]
   else [thread_start rcv_remote_hndl "selfplay_rcv_remote_hndl";
         thread_start model_update_hndl "selfplay_model_update_hndl"]).
Proof.
  unfold run_threads. rewrite bind_emit, bind_gets, events_logged.
  destruct (truthy (ext_remote s)); reflexivity.
Qed.

Lemma threads_of_run s :
  threads (sys_init s) =
  if truthy (ext_remote s) then [remote_update_hndl]
  else [rcv_remote_hndl; model_update_hndl].
Proof.
  unfold sys_init. cbn [threads]. rewrite run_threads_events.
  destruct (truthy (ext_remote s)); reflexivity.
Qed.

Lemma count_if_sessions_none p (session : connection -> list event) cs :
  (forall c, count_if p (session c) = 0%nat) ->
  count_if p (flat_map session cs) = 0%nat.
Proof.
  intros Hp. induction cs as [|c cs IH]; cbn [flat_map]; [reflexivity |].
  rewrite count_if_app, Hp, IH. reflexivity.
Qed.

Lemma update_session_no_fan_out w c : count_if is_fan_out (update_session w c) = 0%nat.
Proof.
  unfold update_session, session_open, session_close.
  rewrite !count_if_app, count_if_recv by reflexivity.
  destruct (frame w c); reflexivity.
Qed.

Lemma filter_flat_map {A} (p : event -> bool) (f : A -> list event) xs :
  List.filter p (flat_map f xs) = flat_map (fun x => List.filter p (f x)) xs.
Proof.
  induction xs as [|x xs IH]; cbn [flat_map]; [reflexivity |].
  rewrite List.filter_app, IH. reflexivity.
Qed.

(** The listener of a remote session writes the evaluator's model only. *)
Lemma remote_update_handler_same_reg w incoming s :
  remote_worker_reg (final (remote_update_handler w incoming s)) = remote_worker_reg s.
Proof.
  rewrite remote_update_handler_unfold, final_logged.
  refine (stable_for_each same_reg same_reg_refl same_reg_trans incoming
            (remote_update_once w) _ s).
  intros c. apply stable_remote_update_once;
    first [exact same_reg_refl | exact same_reg_trans | intros; reflexivity].
Qed.

(** In a remote session only the update listener ever runs, and the
    registry stays as it was. *)
Lemma remote_session_step w reg0 a y y' :
  remote_worker_reg (self y) = reg0 ->
  (forall h, h ∈ threads y -> h = remote_update_hndl) ->
  sys_step w a y = Some y' ->
  remote_worker_reg (self y') = reg0 /\
  (forall h, h ∈ threads y' -> h = remote_update_hndl).
Proof.
  intros Hreg Hthreads.
  assert (forall h m, stable same_reg m -> thread_step h m y = Some y' ->
                      h = remote_update_hndl /\
                      remote_worker_reg (self y') = reg0 /\
                      (forall h', h' ∈ threads y' -> h' = remote_update_hndl))
    as Hthread.
  { intros h m Hm. unfold thread_step. case_decide as Hh; [| discriminate].
    intros [= <-]. cbn [self threads]. split; [exact (Hthreads h Hh) |].
    split; [rewrite <- Hreg; apply Hm |].
    intros h' Hh'. apply Hthreads.
    destruct (raised (res (m (self y)))); [| exact Hh'].
    apply list_elem_of_filter in Hh'. tauto. }
  destruct a as [| |i g|c|c|path]; cbn [sys_step].
  - destruct (holding y); [discriminate |].
    destruct (Nat.eqb (worker_lim (self y)) 0); [discriminate |].
    intros [= <-]. split; [| exact Hthreads]. rewrite <- Hreg.
    refine (stable_run_acquire same_reg _ _ _ (self y));
      first [exact same_reg_refl | exact same_reg_trans | intros; reflexivity].
  - destruct (holding y); [| discriminate].
    intros [= <-]. split; [| exact Hthreads]. rewrite <- Hreg.
    refine (stable_run_start same_reg _ _ (cnt y) (self y));
      [exact same_reg_refl | exact same_reg_trans].
  - case_decide; [| discriminate].
    intros [= <-]. split; [| exact Hthreads]. rewrite <- Hreg.
    refine (stable_selfplay_wrapper same_reg _ _ _ _ _ w g (self y));
      first [exact same_reg_refl | exact same_reg_trans | intros; reflexivity].
  - intros Hstep. exfalso.
    unfold thread_step in Hstep. case_decide as Hh; [| discriminate].
    specialize (Hthreads _ Hh). discriminate Hthreads.
  - intros Hstep. apply Hthread in Hstep; [tauto |].
    apply stable_remote_update_once;
      first [exact same_reg_refl | exact same_reg_trans | intros; reflexivity].
  - intros Hstep. exfalso.
    unfold thread_step in Hstep. case_decide as Hh; [| discriminate].
    specialize (Hthreads _ Hh). discriminate Hthreads.
Qed.

Lemma remote_session_run w reg0 schedule :
  forall y y',
    remote_worker_reg (self y) = reg0 ->
    (forall h, h ∈ threads y -> h = remote_update_hndl) ->
    sys_run w schedule y = Some y' ->
    remote_worker_reg (self y') = reg0 /\
    (forall h, h ∈ threads y' -> h = remote_update_hndl).
Proof.
  induction schedule as [|a schedule IH]; intros y y' Hreg Hthreads; cbn [sys_run].
  - intros [= <-]. split; assumption.
  - destruct (sys_step w a y) as [y1|] eqn:Hstep; [| discriminate].
    destruct (remote_session_step w reg0 a y y1 Hreg Hthreads Hstep) as [Hreg1 Hthreads1].
    apply IH; assumption.
Qed.

(** C7. [run] starts the update listener alone when
    [ext_config.get('remote')] is true, and the data receiver and the
    model-update handler otherwise.  The update listener, for each
    frame it unpickles, calls [load] on the local evaluator with what
    it unpickled; it makes no call to a remote queue and sends no
    frame, and it leaves the registry alone.  In a remote session no
    other handler ever runs and the registry never changes; the one
    method that writes it is the data receiver, which only a master
    starts. *)
Theorem remote_session_only_listens (w : world) (s0 : state) :
  threads_started (events (run_threads s0)) =
    (if truthy (ext_remote s0) then [remote_update_hndl]
     else [rcv_remote_hndl; model_update_hndl]) /\
  (forall incoming s,
     let o := remote_update_handler w incoming s in
     List.filter is_update_call (events o) =
       flat_map (fun c => match frame w c with
                          | Some obj => [nn_load obj]
                          | None => []
                          end)
                (served (update_frame_ok w) incoming) /\
     count_if is_fan_out (events o) = 0%nat /\
     remote_worker_reg (final o) = remote_worker_reg s) /\
  (forall path s,
     remote_worker_reg (final (model_update_once w path s)) = remote_worker_reg s) /\
  (truthy (ext_remote s0) = true ->
   forall schedule y,
     sys_run w schedule (sys_init s0) = Some y ->
     remote_worker_reg (self y) = remote_worker_reg s0 /\
     forall h, h ∈ threads y -> h = remote_update_hndl).
Proof.
  split; [| split; [| split]].
  - rewrite run_threads_events. destruct (truthy (ext_remote s0)); reflexivity.
  - intros incoming s. cbv zeta.
    rewrite remote_update_handler_events. split; [| split].
    + cbn [List.filter is_update_call]. rewrite filter_flat_map.
      apply flat_map_ext. intros c. apply update_calls_session.
    + change (sock_bind (remote_update_port s) :: ?l)
        with ([sock_bind (remote_update_port s)] ++ l).
      rewrite count_if_app, count_if_sessions_none by apply update_session_no_fan_out.
      reflexivity.
    + apply remote_update_handler_same_reg.
  - intros path s.
    refine (stable_model_update_once same_reg _ _ _ w path s);
      first [exact same_reg_refl | exact same_reg_trans | intros; reflexivity].
  - intros Hremote schedule y Hrun.
    apply (remote_session_run w (remote_worker_reg s0) schedule (sys_init s0) y);
      [| | exact Hrun].
    + unfold sys_init. cbn [self]. rewrite run_threads_pure. reflexivity.
    + rewrite threads_of_run, Hremote. intros h Hh.
      apply list_elem_of_singleton in Hh. exact Hh.
Qed.

(** A remote session gets an update frame and, were a data frame to
    arrive, has no thread to take it. *)
Example remote_session_example :
  let s0 := init 2 5000 5001 "mnk" (Some (PyBool true)) in
  let update := mkConnection "10.0.0.1" [tag_dumps (PyStr "./mnk_model/ckpt-7")] in
  threads (sys_init s0) = [remote_update_hndl] /\
  (sys_run calm [update_connects update] (sys_init s0)
     ≫= fun y => Some (nn_model (self y), remote_worker_reg (self y))) =
    Some (Some (PyStr "./mnk_model/ckpt-7"), []) /\
  sys_run calm [data_connects update] (sys_init s0) = None /\
  threads (sys_init (init 2 5000 5001 "mnk" None)) =
    [rcv_remote_hndl; model_update_hndl].
Proof. cbv zeta. repeat split; vm_compute; reflexivity. Qed.

End Sessions.

(** * Further properties of the self-play driver *)

Module SelfplayRuns.
Import Selfplay.

(** The calls of a worker unit that runs to its end with history [data]. *)
Definition unit_log (data : pyobj) : list event :=
  [r_acquire; game_new; game_start; game_get_history; queue_put data;
   r_release; sem_release].

(** Whether a step is a worker unit ending in an exception. *)
Definition is_unit_failure (w : world) (a : action) : bool :=
  match a with
  | unit_ends _ g => unit_raises w g
  | _ => false
  end.

Definition unit_failures (w : world) (schedule : list action) : nat :=
  length (List.filter (is_unit_failure w) schedule).

Definition is_launch (a : action) : bool :=
  match a with launcher_start => true | _ => false end.

(** The slots of the component are all accounted for when [f] units
    have failed so far. *)
Definition accounted (N f : nat) (y : system) : Prop :=
  NoDup (running y) /\
  Forall (fun i => (i < cnt y)%nat) (running y) /\
  (worker_lim (self y) + slots_in_use y + f = N)%nat.

(** The state after the update listener has served a connection whose
    frame was good. *)
Definition update_done (w : world) (s : state) (c : connection) : state :=
  match frame w c with
  | Some obj => set_nn_model (Some obj) s
  | None => s
  end.

(** The model in use after loading [ids] one after the other. *)
Definition newest (ids : list pyobj) (before : option pyobj) : option pyobj :=
  match last ids with
  | Some id => Some id
  | None => before
  end.

(** The model identifiers [nn_eval.load] was called with, oldest first. *)
Definition loads (evs : list event) : list pyobj :=
  omap (fun e => match e with nn_load obj => Some obj | _ => None end) evs.

(** A registry as the data receiver builds it: one entry per address,
    every flag [True]. *)
Definition reg_wf (reg : list (string * bool)) : Prop :=
  NoDup (dict_keys reg) /\ Forall (fun entry => entry.2 = true) reg.

Definition keeps_reg_wf : relation state :=
  fun s s' => reg_wf (remote_worker_reg s) -> reg_wf (remote_worker_reg s').

End SelfplayRuns.

Section WorkerUnitLog.
Import Selfplay SelfplayRuns.

(** X1. A worker unit takes the read lock before it touches the game
    engine and gives it back only after the record is in the queue.
    The unit raises exactly when one of its collaborators does.  Its
    calls are always a prefix of
    [r_acquire, Game(...), start(), get_history(), put(data), r_release, release],
    and they are the whole of it exactly when the unit returns: a unit
    that returns has put its record at the end of the queue, once, and
    made both releases after that; a unit that raised has left the
    queue as it was and made neither release. *)
Theorem selfplay_wrapper_log (w : world) (g : game_run) (s : state) :
  let o := selfplay_wrapper w g s in
  head (events o) = Some r_acquire /\
  raised (res o) = unit_raises w g /\
  (forall data, game_history g = Some data -> events o `prefix_of` unit_log data) /\
  (game_history g = None ->
   events o `prefix_of` [r_acquire; game_new; game_start; game_get_history]) /\
  (res o = Ok tt <-> exists data, events o = unit_log data) /\
  (res o = Ok tt ->
   exists data,
     game_history g = Some data /\ events o = unit_log data /\
     data_queue (final o) = data_queue s ++ [data]) /\
  (res o <> Ok tt ->
   data_queue (final o) = data_queue s /\
   (r_release ∉ events o) /\ (sem_release ∉ events o)) /\
  data_queue (final o) =
    data_queue s ++
    (if unit_raises w g then [] else option_list (game_history g)).
Proof.
  cbv zeta.
  assert (forall evs : list event,
            r_release ∉ evs -> sem_release ∉ evs ->
            (length evs < 7)%nat ->
            forall e : exn,
              ((@Raise exn unit e = Ok tt <-> exists data, evs = unit_log data) /\
               (@Raise exn unit e = Ok tt ->
                exists data, game_history g = Some data /\ evs = unit_log data /\
                             data_queue s = data_queue s ++ [data]) /\
               (@Raise exn unit e <> Ok tt ->
                data_queue s = data_queue s /\ (r_release ∉ evs) /\ (sem_release ∉ evs))))
    as Hfail.
  { intros evs H1 H2 Hlen e. split; [| split].
    - split; [discriminate |]. intros [data ->]. cbn in Hlen. lia.
    - discriminate.
    - intros _. repeat split; assumption. }
  assert (forall evs : list event,
            Forall (fun e => e ≠ r_release /\ e ≠ sem_release) evs ->
            (r_release ∉ evs) /\ (sem_release ∉ evs)) as Hnot.
  { intros evs H. rewrite Forall_forall in H.
    split; intros Hin; destruct (H _ Hin) as [? ?]; congruence. }
  unfold selfplay_wrapper, rwlock_r_acquire, Game_new, Game_start,
    Game_get_history, data_queue_put, rwlock_r_release, worker_lim_release,
    unit_raises, unit_log.
  destruct (game_new_ok g); cbn.
  2:{ rewrite app_nil_r.
      destruct (Hnot [r_acquire; game_new]) as [H1 H2];
        [repeat constructor; discriminate |].
      destruct (Hfail [r_acquire; game_new] H1 H2 ltac:(cbn; lia) GameError)
        as (Ha & Hb & Hc).
      split; [reflexivity |]. split; [reflexivity |].
      split; [intros; eexists; reflexivity |].
      split; [intros; eexists; reflexivity |].
      split; [exact Ha |]. split; [exact Hb |]. split; [exact Hc | reflexivity]. }
  destruct (game_start_ok g); cbn.
  2:{ rewrite app_nil_r.
      destruct (Hnot [r_acquire; game_new; game_start]) as [H1 H2];
        [repeat constructor; discriminate |].
      destruct (Hfail [r_acquire; game_new; game_start] H1 H2 ltac:(cbn; lia) GameError)
        as (Ha & Hb & Hc).
      split; [reflexivity |]. split; [reflexivity |].
      split; [intros; eexists; reflexivity |].
      split; [intros; eexists; reflexivity |].
      split; [exact Ha |]. split; [exact Hb |]. split; [exact Hc | reflexivity]. }
  destruct (game_history g) as [data|] eqn:Hh; cbn.
  2:{ rewrite app_nil_r.
      destruct (Hnot [r_acquire; game_new; game_start; game_get_history]) as [H1 H2];
        [repeat constructor; discriminate |].
      destruct (Hfail [r_acquire; game_new; game_start; game_get_history] H1 H2
                  ltac:(cbn; lia) GameError) as (Ha & Hb & Hc).
      split; [reflexivity |]. split; [reflexivity |].
      split; [intros; discriminate |].
      split; [intros; eexists; reflexivity |].
      split; [exact Ha |]. split; [exact Hb |]. split; [exact Hc | reflexivity]. }
  destruct (queue_put_ok w data); cbn.
  - split; [reflexivity |]. split; [reflexivity |].
    split; [intros d [= <-]; exists []; rewrite app_nil_r; reflexivity |].
    split; [discriminate |].
    split; [split; [intros _; exists data; reflexivity | reflexivity] |].
    split; [intros _; exists data; repeat split; reflexivity |].
    split; [intros H; exfalso; apply H; reflexivity | reflexivity].
  - rewrite app_nil_r.
    destruct (Hnot [r_acquire; game_new; game_start; game_get_history; queue_put data])
      as [H1 H2]; [repeat constructor; discriminate |].
    destruct (Hfail [r_acquire; game_new; game_start; game_get_history; queue_put data]
                H1 H2 ltac:(cbn; lia) QueueError) as (Ha & Hb & Hc).
    split; [reflexivity |]. split; [reflexivity |].
    split; [intros d [= <-]; eexists; reflexivity |].
    split; [discriminate |].
    split; [exact Ha |]. split; [| split; [exact Hc | reflexivity]].
    discriminate.
Qed.

End WorkerUnitLog.

(** ** Slots over a run *)

Section Accounting.
Import Selfplay SelfplayRuns.

(** Taking the one occurrence of [i] out of a list without repeats. *)
Lemma length_filter_out (i : nat) (l : list nat) :
  NoDup l -> i ∈ l -> S (length (filter (fun j => j ≠ i) l)) = length l.
Proof.
  induction 1 as [|x l Hx Hl IH]; intros Hi; [inversion Hi |].
  rewrite filter_cons. destruct (decide (x = i)) as [->|Hne].
  - rewrite decide_False by (intros H; exact (H eq_refl)).
    cbn [length]. f_equal.
    assert (filter (fun j => j ≠ i) l = l) as ->; [| reflexivity].
    clear IH Hi Hl. induction l as [|y l IHl]; [reflexivity |].
    rewrite filter_cons. apply not_elem_of_cons in Hx as [Hy Hx].
    rewrite decide_True by congruence. rewrite (IHl Hx). reflexivity.
  - rewrite decide_True by exact Hne. cbn [length]. f_equal. apply IH.
    apply elem_of_cons in Hi as [-> | Hi]; [congruence | exact Hi].
Qed.

Lemma unit_failures_cons w a schedule :
  unit_failures w (a :: schedule) =
  ((if is_unit_failure w a then 1 else 0) + unit_failures w schedule)%nat.
Proof. unfold unit_failures. cbn. destruct (is_unit_failure w a); reflexivity. Qed.

Lemma unit_failures_app w schedule more :
  unit_failures w (schedule ++ more) =
  (unit_failures w schedule + unit_failures w more)%nat.
Proof. unfold unit_failures. rewrite List.filter_app, length_app. reflexivity. Qed.

Lemma sys_run_app w schedule more y :
  sys_run w (schedule ++ more) y =
  match sys_run w schedule y with
  | Some y' => sys_run w more y'
  | None => None
  end.
Proof.
  revert y. induction schedule as [|a schedule IH]; intros y; cbn [app sys_run].
  - reflexivity.
  - destruct (sys_step w a y); [apply IH | reflexivity].
Qed.

(** A handler's turn changes nothing for the pool. *)
Lemma thread_step_pool h m y y' :
  stable same_worker_lim m ->
  thread_step h m y = Some y' ->
  worker_lim (self y') = worker_lim (self y) /\
  holding y' = holding y /\ running y' = running y /\ cnt y' = cnt y.
Proof.
  intros Hm. unfold thread_step. case_decide; [| discriminate].
  intros [= <-]. cbn. split; [apply Hm | auto].
Qed.

Lemma launcher_acquire_result w y y' :
  sys_step w launcher_acquire y = Some y' ->
  holding y = false /\ (0 < worker_lim (self y))%nat /\
  y' = mkSystem (set_worker_lim (pred (worker_lim (self y))) (self y))
                true (cnt y) (running y) (threads y).
Proof.
  cbn [sys_step]. destruct (holding y); [discriminate |].
  destruct (Nat.eqb_spec (worker_lim (self y)) 0); [discriminate |].
  intros [= <-]. repeat split. lia.
Qed.

Lemma launcher_start_result w y y' :
  sys_step w launcher_start y = Some y' ->
  holding y = true /\
  y' = mkSystem (self y) false (S (cnt y)) (cnt y :: running y) (threads y).
Proof.
  cbn [sys_step]. destruct (holding y); [| discriminate].
  intros [= <-]. repeat split.
Qed.

Lemma unit_ends_result w i g y y' :
  sys_step w (unit_ends i g) y = Some y' ->
  i ∈ running y /\
  y' = mkSystem (final (selfplay_wrapper w g (self y))) (holding y) (cnt y)
                (filter (fun j => j ≠ i) (running y)) (threads y).
Proof.
  cbn [sys_step]. case_decide as Hi; [| discriminate].
  intros [= <-]. split; [exact Hi | reflexivity].
Qed.

(** Preserve: each step keeps the books, a failing unit adding one to
    the failures. *)
Lemma accounted_step w N f a y y' :
  accounted N f y ->
  sys_step w a y = Some y' ->
  accounted N ((if is_unit_failure w a then 1 else 0) + f) y'.
Proof.
  unfold accounted, slots_in_use. intros (Hnd & Hlt & Hsum) Hstep.
  assert (forall h m, stable same_worker_lim m -> thread_step h m y = Some y' ->
            NoDup (running y') /\
            Forall (fun i => (i < cnt y')%nat) (running y') /\
            (worker_lim (self y') +
             ((if holding y' then 1 else 0) + length (running y')) + f = N)%nat)
    as Hthread.
  { intros h m Hm Hs.
    apply thread_step_pool in Hs as (Hw & -> & -> & ->); [| exact Hm].
    rewrite Hw. auto. }
  destruct a as [| |i g|c|c|path]; cbn [is_unit_failure].
  - apply launcher_acquire_result in Hstep as (Hh & Hpos & ->).
    rewrite Hh in Hsum. cbn. repeat split; [exact Hnd | exact Hlt | lia].
  - apply launcher_start_result in Hstep as (Hh & ->).
    rewrite Hh in Hsum. cbn. repeat split.
    + apply NoDup_cons. split; [| exact Hnd].
      intros Hin. rewrite Forall_forall in Hlt. specialize (Hlt _ Hin). lia.
    + constructor; [lia |]. eapply Forall_impl; [exact Hlt |]. cbn. intros; lia.
    + lia.
  - apply unit_ends_result in Hstep as (Hi & ->). cbn [self holding cnt running].
    pose proof (length_filter_out i (running y) Hnd Hi) as Hlen.
    destruct (selfplay_wrapper_slot w g (self y)) as [-> _].
    repeat split.
    + apply NoDup_filter. exact Hnd.
    + apply Forall_forall. intros j Hj. apply list_elem_of_filter in Hj as [_ Hj].
      rewrite Forall_forall in Hlt. exact (Hlt _ Hj).
    + destruct (unit_raises w g); lia.
  - apply (Hthread _ _ (stable_rcv_remote_data_once same_worker_lim
                          same_worker_lim_refl same_worker_lim_trans
                          ltac:(intros; reflexivity)
                          ltac:(intros; reflexivity) w c) Hstep).
  - apply (Hthread _ _ (stable_remote_update_once same_worker_lim
                          same_worker_lim_refl same_worker_lim_trans
                          ltac:(intros; reflexivity) w c) Hstep).
  - apply (Hthread _ _ (stable_model_update_once same_worker_lim
                          same_worker_lim_refl same_worker_lim_trans
                          ltac:(intros; reflexivity) w path) Hstep).
Qed.

Lemma accounted_run w N schedule :
  forall f y y',
    accounted N f y ->
    sys_run w schedule y = Some y' ->
    accounted N (unit_failures w schedule + f) y'.
Proof.
  induction schedule as [|a schedule IH]; intros f y y' Hacc; cbn [sys_run].
  - intros [= <-]. exact Hacc.
  - destruct (sys_step w a y) as [y1|] eqn:Hstep; [| discriminate].
    intros Hrun. rewrite unit_failures_cons.
    pose proof (IH _ _ _ (accounted_step w N f a y y1 Hacc Hstep) Hrun) as H.
    replace ((if is_unit_failure w a then 1 else 0) + unit_failures w schedule + f)%nat
      with (unit_failures w schedule + ((if is_unit_failure w a then 1 else 0) + f))%nat
      by lia.
    exact H.
Qed.

(** Establish. *)
Lemma accounted_init N rp rup name remote :
  accounted N 0 (sys_init (init N rp rup name remote)).
Proof.
  unfold accounted, slots_in_use, sys_init. cbn [self holding running cnt].
  rewrite run_threads_pure. cbn.
  repeat split; [constructor | constructor | lia].
Qed.

(** X2. Over every run of the component the slots are accounted for
    exactly: the free units of the semaphore, the one the launcher
    holds, the live units and the units that ended in an exception add
    up to the limit [N].  The live units carry distinct launch numbers.
    So once [N] units have failed, no unit is alive, the semaphore is at
    zero, and it stays so whatever happens next: the launcher never
    starts another game. *)
Theorem failed_units_use_up_the_pool
    (w : world) (N : nat) (rp rup : Z) (name : string) (remote : option pyobj)
    (schedule : list action) (y : system) :
  sys_run w schedule (sys_init (init N rp rup name remote)) = Some y ->
  (worker_lim (self y) + slots_in_use y + unit_failures w schedule = N)%nat /\
  NoDup (running y) /\
  (unit_failures w schedule = N ->
   forall more y',
     sys_run w more y = Some y' ->
     running y' = [] /\ worker_lim (self y') = 0%nat /\
     sys_step w launcher_acquire y' = None /\
     sys_step w launcher_start y' = None).
Proof.
  intros Hrun.
  pose proof (accounted_run w N schedule 0 _ _
                (accounted_init N rp rup name remote) Hrun) as (Hnd & _ & Hsum).
  rewrite Nat.add_0_r in Hsum.
  split; [exact Hsum |]. split; [exact Hnd |].
  intros Hall more y' Hmore.
  assert (sys_run w (schedule ++ more) (sys_init (init N rp rup name remote)) = Some y')
    as Hboth by (rewrite sys_run_app, Hrun; exact Hmore).
  pose proof (accounted_run w N (schedule ++ more) 0 _ _
                (accounted_init N rp rup name remote) Hboth) as (_ & _ & Hsum').
  rewrite unit_failures_app, Hall in Hsum'. unfold slots_in_use in Hsum'.
  assert (worker_lim (self y') = 0%nat /\ holding y' = false /\ running y' = [])
    as (Hw & Hh & Hr).
  { destruct (holding y'), (running y'); cbn in Hsum'; repeat split;
      try reflexivity; lia. }
  split; [exact Hr |]. split; [exact Hw |].
  cbn [sys_step]. rewrite Hh, Hw. split; reflexivity.
Qed.

(** With a limit of 2, two units that fail: the semaphore is at zero
    and the third launch waits for good. *)
Lemma failed_units_use_up_the_pool_example :
  let failing := mkGameRun true false None in
  let schedule := [launcher_acquire; launcher_start; launcher_acquire; launcher_start;
                   unit_ends 1 failing; unit_ends 0 failing] in
  exists y,
    sys_run calm schedule (sys_init (init 2 5000 5001 "mnk" None)) = Some y /\
    worker_lim (self y) = 0%nat /\
    sys_step calm launcher_acquire y = None.
Proof.
  cbv zeta. eexists. split; [vm_compute; reflexivity |].
  pose proof (failed_units_use_up_the_pool calm 2 5000 5001 "mnk" None
    [launcher_acquire; launcher_start; launcher_acquire; launcher_start;
     unit_ends 1 (mkGameRun true false None);
     unit_ends 0 (mkGameRun true false None)] _ ltac:(vm_compute; reflexivity))
    as (_ & _ & Hstarved).
  split; [exact (proj1 (proj2 (Hstarved eq_refl [] _ eq_refl))) |].
  exact (proj1 (proj2 (proj2 (Hstarved eq_refl [] _ eq_refl)))).
Defined.

End Accounting.

(** ** The update listener of a remote session *)

Section UpdateListener.
Import Selfplay SelfplayRuns.

Lemma remote_update_once_final w c s :
  final (remote_update_once w c s) =
  if update_frame_ok w c then update_done w s c else s.
Proof.
  rewrite remote_update_once_spec. unfold update_frame_ok, update_done.
  destruct (frame w c) as [obj|]; [| reflexivity].
  destruct (load_ok w obj); reflexivity.
Qed.

Lemma remote_update_loop_good w incoming :
  forall s,
    forallb (update_frame_ok w) incoming = true ->
    for_each incoming (remote_update_once w) s =
    Outcome (Ok tt) (foldl (update_done w) s incoming)
            (flat_map (update_session w) incoming).
Proof.
  induction incoming as [|c incoming IH]; intros s Hok; cbn [for_each foldl flat_map].
  - reflexivity.
  - cbn [forallb] in Hok. apply andb_prop in Hok as [Hc Hrest].
    pose proof (remote_update_once_events w c s) as Hev.
    pose proof (remote_update_once_raised w c s) as Hr.
    pose proof (remote_update_once_final w c s) as Hf.
    rewrite Hc in Hr, Hf.
    destruct (remote_update_once w c s) as [[[]|e] s1 ev1] eqn:E;
      cbn in Hev, Hr, Hf; [| discriminate Hr].
    subst s1 ev1. rewrite (bind_run _ _ _ _ _ _ E).
    rewrite (IH _ Hrest). reflexivity.
Qed.

Lemma newest_cons id id' ids before before' :
  newest (id :: id' :: ids) before = newest (id' :: ids) before'.
Proof.
  unfold newest. rewrite last_cons_cons.
  destruct (last (id' :: ids)) eqn:Hlast; [reflexivity |].
  apply last_None in Hlast. discriminate Hlast.
Qed.

Lemma newest_snoc ids id before : newest (ids ++ [id]) before = Some id.
Proof. unfold newest. rewrite last_snoc. reflexivity. Qed.

Lemma nn_model_foldl_update_done w incoming :
  forall s,
    forallb (update_frame_ok w) incoming = true ->
    nn_model (foldl (update_done w) s incoming) =
    newest (omap (frame w) incoming) (nn_model s).
Proof.
  induction incoming as [|c incoming IH] using rev_ind; intros s Hok.
  - reflexivity.
  - rewrite forallb_app in Hok. apply andb_prop in Hok as [Hinc Hc].
    cbn [forallb] in Hc. rewrite andb_true_r in Hc.
    apply update_frame_ok_frame in Hc as [obj Hobj].
    rewrite foldl_app, omap_app. cbn -[frame update_done].
    unfold update_done at 1. rewrite Hobj. cbn -[frame update_done].
    rewrite newest_snoc. reflexivity.
Qed.

Lemma loads_app evs1 evs2 : loads (evs1 ++ evs2) = loads evs1 ++ loads evs2.
Proof. unfold loads. apply omap_app. Qed.

Lemma loads_recv chunks : loads (map sock_recv chunks) = [].
Proof. induction chunks as [|c chunks IH]; [reflexivity | exact IH]. Qed.

Lemma loads_update_session w c :
  loads (update_session w c) = option_list (frame w c).
Proof.
  unfold update_session, session_open, session_close.
  rewrite !loads_app, loads_recv. destruct (frame w c); reflexivity.
Qed.

Lemma loads_update_sessions w cs :
  loads (flat_map (update_session w) cs) = omap (frame w) cs.
Proof.
  induction cs as [|c cs IH]; [reflexivity |].
  cbn [flat_map omap list_omap]. rewrite loads_app, loads_update_session, IH.
  destruct (frame w c); reflexivity.
Qed.

(** X3. The update listener calls [nn_eval.load] on the frames it gets
    in the order of their arrival, one call per connection whose bytes
    unpickle; while every frame unpickles and loads, the model loaded
    last is the newest one.  The first frame that does not unpickle, or
    that [nn_eval.load] rejects, ends the listener with that exception:
    one connection more was accepted than frames went through, the last
    call of [load] is the rejected one (or, for bytes that do not
    unpickle, the last one that went through), and no later connection
    is accepted, unpickled or loaded.  What the evaluator holds after a
    rejected [load] is the evaluator's matter and not stated here. *)
Theorem update_listener_ends_at_bad_update
    (w : world) (before : list connection) (c : connection)
    (after : list connection) (s : state) :
  forallb (update_frame_ok w) before = true ->
  update_frame_ok w c = false ->
  let o := remote_update_handler w (before ++ c :: after) s in
  res (remote_update_handler w before s) = Ok tt /\
  loads (events (remote_update_handler w before s)) = omap (frame w) before /\
  nn_model (final (remote_update_handler w before s)) =
    newest (omap (frame w) before) (nn_model s) /\
  res o = Raise (match frame w c with
                 | Some _ => LoadError
                 | None => UnpicklingError
                 end) /\
  events o =
    sock_bind (remote_update_port s)
    :: flat_map (update_session w) before ++ update_session w c /\
  count_if is_accept (events o) = S (length before) /\
  loads (events o) = omap (frame w) before ++ option_list (frame w c) /\
  (frame w c = None ->
   nn_model (final o) = newest (omap (frame w) before) (nn_model s)).
Proof.
  intros Hok Hbad. cbv zeta.
  rewrite !remote_update_handler_unfold.
  rewrite for_each_app.
  rewrite (bind_run _ _ _ _ _ _ (remote_update_loop_good w before s Hok)).
  rewrite (remote_update_loop_good w before s Hok).
  cbn [for_each].
  assert (remote_update_once w c (foldl (update_done w) s before) =
          Outcome (Raise (match frame w c with
                          | Some _ => LoadError
                          | None => UnpicklingError
                          end))
                  (foldl (update_done w) s before) (update_session w c)) as Hc.
  { rewrite remote_update_once_spec. unfold update_session.
    unfold update_frame_ok in Hbad.
    destruct (frame w c) as [obj|]; [rewrite Hbad | rewrite app_nil_r]; reflexivity. }
  rewrite (bind_run _ _ _ _ _ _ Hc).
  cbn [logged res final events app].
  pose proof (nn_model_foldl_update_done w before s Hok) as Hmodel.
  split; [reflexivity |].
  split; [exact (loads_update_sessions w before) |].
  split; [exact Hmodel |].
  split; [reflexivity |].
  split; [reflexivity |].
  split; [| split].
  - change (sock_bind (remote_update_port s) :: ?l)
      with ([sock_bind (remote_update_port s)] ++ l).
    rewrite !count_if_app, count_if_sessions.
    + destruct (update_session_counts w c) as (-> & _). cbn. lia.
    + apply Forall_forall. intros c' _. apply update_session_counts.
  - change (sock_bind (remote_update_port s) :: ?l)
      with ([sock_bind (remote_update_port s)] ++ l).
    rewrite !loads_app, loads_update_sessions, loads_update_session. reflexivity.
  - intros _. exact Hmodel.
Qed.

(** Update 7 loads; update 8's checkpoint is rejected by the
    evaluator; update 9 is never looked at. *)
Lemma update_listener_ends_at_bad_update_example :
  let w := mkWorld tag_dumps tag_loads (fun _ => true)
             (fun obj => bool_decide (obj ≠ PyStr "ckpt-8")) (fun _ _ => put_sent) in
  let update id := mkConnection "10.0.0.1" [tag_dumps (PyStr id)] in
  let o := remote_update_handler w
             ([update "ckpt-7"] ++ update "ckpt-8" :: [update "ckpt-9"])
             (init 2 5000 5001 "mnk" (Some (PyBool true))) in
  res o = Raise LoadError /\ loads (events o) = [PyStr "ckpt-7"; PyStr "ckpt-8"].
Proof.
  cbv zeta.
  pose proof (update_listener_ends_at_bad_update
    (mkWorld tag_dumps tag_loads (fun _ => true)
       (fun obj => bool_decide (obj ≠ PyStr "ckpt-8")) (fun _ _ => put_sent))
    [mkConnection "10.0.0.1" [tag_dumps (PyStr "ckpt-7")]]
    (mkConnection "10.0.0.1" [tag_dumps (PyStr "ckpt-8")])
    [mkConnection "10.0.0.1" [tag_dumps (PyStr "ckpt-9")]]
    (init 2 5000 5001 "mnk" (Some (PyBool true))) eq_refl eq_refl) as H.
  cbv zeta in H. destruct H as (_ & _ & _ & Hres & _ & _ & Hloads & _).
  split; [exact Hres | exact Hloads].
Defined.

End UpdateListener.

(** ** The shape of the registry *)

Section RegistryShape.
Import Selfplay SelfplayRuns.

(** Whatever relation every write of the component respects, every
    step of the component respects. *)
Lemma sys_step_stable (R : relation state) w a y y' :
  (forall s, R s s) ->
  (forall s1 s2 s3, R s1 s2 -> R s2 s3 -> R s1 s3) ->
  (forall s q, R s (set_data_queue q s)) ->
  (forall s m, R s (set_nn_model m s)) ->
  (forall s addr,
     R s (set_remote_worker_reg (dict_set (remote_worker_reg s) addr true) s)) ->
  (forall s n, R s (set_rwlock_readers n s)) ->
  (forall s n, R s (set_worker_lim n s)) ->
  sys_step w a y = Some y' -> R (self y) (self y').
Proof.
  intros Hrefl Htrans Hq Hm Hreg Hlock Hsem.
  assert (forall h m, stable R m -> thread_step h m y = Some y' ->
                      R (self y) (self y')) as Hthread.
  { intros h m Hst. unfold thread_step. case_decide; [| discriminate].
    intros [= <-]. apply Hst. }
  destruct a as [| |i g|c|c|path]; cbn [sys_step].
  - destruct (holding y); [discriminate |].
    destruct (Nat.eqb (worker_lim (self y)) 0); [discriminate |].
    intros [= <-].
    exact (stable_run_acquire R Hrefl Htrans Hsem (self y)).
  - destruct (holding y); [| discriminate].
    intros [= <-].
    exact (stable_run_start R Hrefl Htrans (cnt y) (self y)).
  - case_decide; [| discriminate].
    intros [= <-].
    exact (stable_selfplay_wrapper R Hrefl Htrans Hq Hlock Hsem w g (self y)).
  - apply Hthread. exact (stable_rcv_remote_data_once R Hrefl Htrans Hq Hreg w c).
  - apply Hthread. exact (stable_remote_update_once R Hrefl Htrans Hm w c).
  - apply Hthread. exact (stable_model_update_once R Hrefl Htrans Hm w path).
Qed.

Lemma reg_wf_set reg addr : reg_wf reg -> reg_wf (dict_set reg addr true).
Proof.
  intros [Hnd Hall]. split.
  - rewrite dict_keys_set. case_decide as Hin; [exact Hnd |].
    apply NoDup_app. repeat split; [exact Hnd | | apply NoDup_singleton].
    intros x Hx Hx'. apply list_elem_of_singleton in Hx'. subst x. exact (Hin Hx).
  - clear Hnd. induction reg as [|[key v] reg IH]; cbn [dict_set].
    + repeat constructor.
    + apply Forall_cons in Hall as [Hv Hall].
      case_decide; constructor; try assumption; try reflexivity. exact (IH Hall).
Qed.

Lemma sys_run_reg_wf w schedule :
  forall y y',
    reg_wf (remote_worker_reg (self y)) ->
    sys_run w schedule y = Some y' -> reg_wf (remote_worker_reg (self y')).
Proof.
  induction schedule as [|a schedule IH]; intros y y' Hwf; cbn [sys_run].
  - intros [= <-]. exact Hwf.
  - destruct (sys_step w a y) as [y1|] eqn:Hstep; [| discriminate].
    apply IH.
    refine (sys_step_stable keeps_reg_wf w a y y1 _ _ _ _ _ _ _ Hstep Hwf);
      unfold keeps_reg_wf; cbn; try (intros; assumption).
    + intros s1 s2 s3 H12 H23 H1. exact (H23 (H12 H1)).
    + intros s addr Hs. exact (reg_wf_set _ _ Hs).
Qed.

Lemma dict_get_wf reg addr :
  reg_wf reg -> addr ∈ dict_keys reg -> dict_get reg addr = Some true.
Proof.
  intros [_ Hall]. unfold dict_keys.
  induction reg as [|[key v] reg IH]; intros Hin; [inversion Hin |].
  apply Forall_cons in Hall as [Hv Hall]. cbn in Hv. subst v.
  cbn [dict_get]. case_decide as Hk; [reflexivity |].
  apply IH; [exact Hall |].
  cbn in Hin. apply elem_of_cons in Hin as [-> | Hin]; [congruence | exact Hin].
Qed.

End RegistryShape.

(** ** Registrations while a model update is under way

    In a master session the data receiver and the model-update handler
    are two threads of one process and share [self.remote_worker_reg]:
    the receiver inserts into the dict that the [for] loop of the update
    handler iterates over.  A dict iterator remembers the size the dict
    had when the loop began and checks it each time the loop asks for
    the next item, the time that finds no further item included: if the
    size has changed, it raises [RuntimeError] (dictionary changed size
    during iteration).  The update handler is taken here one turn of its
    loop at a time, with the receiver's turns in between. *)

Module SelfplayRace.
Import Selfplay SelfplayRuns.

(** How the update handler's thread ended. *)
Inductive ending : Type :=
| by_exception (e : exn)      (* a [put] or the [load] raised *)
| by_RuntimeError.            (* dictionary changed size during iteration *)

(** Where the update handler stands: in [self.r_conn.recv()]; in the
    [for] loop for [path], with the items the iterator has yet to give
    and the size it remembers; or ended. *)
Inductive position : Type :=
| in_recv
| in_loop (path : pyobj) (todo : list (string * bool)) (size : nat)
| ended (e : ending).

(** The instance with the two threads.  [calls] are the calls the
    update handler has made for the update it read last, [start_reg] is
    the registry as that update's loop found it. *)
Record race : Type := mkRace {
  shared : state;
  update_at : position;
  calls : list event;
  start_reg : list (string * bool);
  receiver_up : bool
}.

(** What can happen next: [recv()] returns a path to the update
    handler, the update handler's loop asks for its next item, the data
    receiver serves a connection. *)
Inductive move : Type :=
| update_recv (path : pyobj)
| update_next
| receiver_serves (c : connection).

(** The body of the [for] loop of [model_update_handler]. *)
Definition notify_one (w : world) (path : pyobj) (addr : string) : Meth unit :=
  printlog_thrd ["remote update"; addr];;
  port ← gets remote_update_port;
  name ← gets game_name;
  Remote_Queue_put w addr port (PyStr (ckpt_path name path)).

(** The statement after the loop. *)
Definition load_update (w : world) (path : pyobj) : Meth unit :=
  name ← gets game_name;
  nn_eval_load w (PyStr (ckpt_path name path)).

(** The update handler after a statement with outcome [o], [next]
    being where it stands if the statement returned. *)
Definition after_call (r : race) (o : outcome state exn event unit)
    (next : position) : race :=
  mkRace (final o)
    (match res o with
     | Ok _ => next
     | Raise e => ended (by_exception e)
     end)
    (calls r ++ events o) (start_reg r) (receiver_up r).

Definition race_step (w : world) (m : move) (r : race) : option race :=
  match m with
  | update_recv path =>
      match update_at r with
      | in_recv =>
          let reg := remote_worker_reg (shared r) in
          Some (mkRace (shared r) (in_loop path (dict_items reg) (length reg))
                  [] reg (receiver_up r))
      | _ => None
      end
  | update_next =>
      match update_at r with
      | in_loop path todo size =>
          if negb (Nat.eqb (length (remote_worker_reg (shared r))) size) then
            Some (mkRace (shared r) (ended by_RuntimeError) (calls r)
                    (start_reg r) (receiver_up r))
          else
            match todo with
            | (addr, _) :: rest =>
                Some (after_call r (notify_one w path addr (shared r))
                        (in_loop path rest size))
            | [] =>
                Some (after_call r (load_update w path (shared r)) in_recv)
            end
      | _ => None
      end
  | receiver_serves c =>
      if receiver_up r then
        let o := rcv_remote_data_once w c (shared r) in
        Some (mkRace (final o) (update_at r) (calls r) (start_reg r)
                (negb (raised (res o))))
      else None
  end.

Fixpoint race_run (w : world) (schedule : list move) (r : race) : option race :=
  match schedule with
  | [] => Some r
  | m :: rest =>
      match race_step w m r with
      | Some r' => race_run w rest r'
      | None => None
      end
  end.

(** Both threads at the top of their loops. *)
Definition race_init (s : state) : race :=
  mkRace s in_recv [] (remote_worker_reg s) true.

(** The addresses [put] was called for, oldest first. *)
Definition puts_to (evs : list event) : list string :=
  omap (fun e => match e with remote_put addr _ _ => Some addr | _ => None end) evs.

(** What holds of the two threads at every moment. *)
Definition race_inv (r : race) : Prop :=
  let reg := remote_worker_reg (shared r) in
  reg_wf reg /\
  reg_wf (start_reg r) /\
  dict_keys (start_reg r) `prefix_of` dict_keys reg /\
  match update_at r with
  | in_recv =>
      calls r = [] \/
      (puts_to (calls r) = dict_keys (start_reg r) /\
       exists obj, loads (calls r) = [obj])
  | in_loop path todo size =>
      size = length (start_reg r) /\
      puts_to (calls r) ++ todo.*1 = dict_keys (start_reg r) /\
      loads (calls r) = []
  | ended by_RuntimeError =>
      puts_to (calls r) `prefix_of` dict_keys (start_reg r) /\
      loads (calls r) = [] /\
      (length (start_reg r) < length reg)%nat
  | ended (by_exception e) =>
      (puts_to (calls r) `prefix_of` dict_keys (start_reg r) /\
       loads (calls r) = []) \/
      (puts_to (calls r) = dict_keys (start_reg r) /\
       exists obj, loads (calls r) = [obj])
  end.

(** The turns an update takes when nothing comes in between: one per
    address until a [put] raises, and one for the [load] when none did. *)
Definition turns_alone (w : world) (s : state) : nat :=
  let keys := dict_keys (remote_worker_reg s) in
  (length (served (put_returns w (remote_update_port s)) keys) +
   (if forallb (put_returns w (remote_update_port s)) keys then 1 else 0))%nat.

End SelfplayRace.

Section Race.
Import Selfplay SelfplayRuns SelfplayRace.

Lemma notify_one_spec w path addr s :
  notify_one w path addr s =
  Outcome (if put_returns w (remote_update_port s) addr
           then Ok tt else Raise ConnectionError)
          s
          (notify_events w (remote_update_port s)
             (PyStr (ckpt_path (game_name s) path)) addr).
Proof.
  unfold notify_one, printlog_thrd. rewrite bind_emit, bind_gets, bind_gets.
  rewrite Remote_Queue_put_spec. unfold notify_events.
  cbn [logged app]. reflexivity.
Qed.

Lemma load_update_spec w path s :
  load_update w path s = nn_eval_load w (PyStr (ckpt_path (game_name s) path)) s.
Proof. unfold load_update. rewrite bind_gets. reflexivity. Qed.

Lemma puts_to_app evs1 evs2 : puts_to (evs1 ++ evs2) = puts_to evs1 ++ puts_to evs2.
Proof. unfold puts_to. apply omap_app. Qed.

Lemma puts_to_notify w port id addr : puts_to (notify_events w port id addr) = [addr].
Proof. unfold notify_events. destruct (transport w addr port); reflexivity. Qed.

Lemma loads_notify w port id addr : loads (notify_events w port id addr) = [].
Proof. unfold notify_events. destruct (transport w addr port); reflexivity. Qed.

Lemma length_dict_keys (d : list (string * bool)) : length (dict_keys d) = length d.
Proof. unfold dict_keys. apply length_fmap. Qed.

(** A turn of the receiver leaves the registry alone or puts one
    address at its end. *)
Lemma receiver_turn_registry w c s :
  reg_wf (remote_worker_reg s) ->
  let reg' := remote_worker_reg (final (rcv_remote_data_once w c s)) in
  reg_wf reg' /\
  dict_keys (remote_worker_reg s) `prefix_of` dict_keys reg' /\
  (length (remote_worker_reg s) <= length reg')%nat.
Proof.
  intros Hwf. cbv zeta. rewrite rcv_remote_data_once_final.
  unfold data_done. destruct (data_frame_ok w c);
    [| split; [exact Hwf | split; [reflexivity | lia]]].
  destruct (frame w c) as [obj|];
    [| split; [exact Hwf | split; [reflexivity | lia]]].
  cbn [remote_worker_reg set_remote_worker_reg set_data_queue].
  split; [apply reg_wf_set; exact Hwf |].
  rewrite <- !length_dict_keys, dict_keys_set.
  case_decide; [split; [reflexivity | lia] |].
  split; [eexists; reflexivity | rewrite length_app; lia].
Qed.

Lemma prefix_of_length_eq {A} (l1 l2 : list A) :
  l1 `prefix_of` l2 -> length l2 = length l1 -> l2 = l1.
Proof.
  intros [k ->] Hlen. rewrite length_app in Hlen.
  destruct k; [apply app_nil_r | cbn in Hlen; lia].
Qed.

(** Establish. *)
Lemma race_init_inv s : reg_wf (remote_worker_reg s) -> race_inv (race_init s).
Proof.
  intros Hwf. unfold race_inv, race_init. cbn.
  split; [exact Hwf |]. split; [exact Hwf |]. split; [reflexivity |].
  left. reflexivity.
Qed.

(** Preserve. *)
Lemma race_step_inv w m r r' :
  race_inv r -> race_step w m r = Some r' -> race_inv r'.
Proof.
  unfold race_inv. intros (Hwf & Hwf0 & Hpre & Hpos).
  destruct m as [path| |c]; cbn [race_step].
  - (* recv() returns *)
    destruct (update_at r); try discriminate.
    intros [= <-]. cbn.
    split; [exact Hwf |]. split; [exact Hwf |]. split; [reflexivity |].
    split; [reflexivity |]. split; reflexivity.
  - (* the loop asks for its next item *)
    destruct (update_at r) as [|path todo size|e]; try discriminate.
    destruct Hpos as (Hsize & Hputs & Hloads).
    destruct (Nat.eqb_spec (length (remote_worker_reg (shared r))) size) as [Hlen|Hlen];
      cbn [negb].
    + destruct todo as [|[addr flag] rest]; intros [= <-]; unfold after_call.
      * (* the load *)
        rewrite load_update_spec, nn_eval_load_spec.
        cbn [fmap list_fmap] in Hputs. rewrite app_nil_r in Hputs.
        destruct (load_ok w _); cbn [res final events shared update_at calls start_reg
                                     remote_worker_reg set_nn_model];
          (split; [exact Hwf |]; split; [exact Hwf0 |]; split; [exact Hpre |]);
          right; rewrite puts_to_app, loads_app, Hloads;
          cbn; rewrite app_nil_r; (split; [exact Hputs | eexists; reflexivity]).
      * (* one put *)
        rewrite notify_one_spec.
        cbn [fmap list_fmap fst] in Hputs.
        destruct (put_returns w (remote_update_port (shared r)) addr);
          cbn [res final events shared update_at calls start_reg];
          (split; [exact Hwf |]; split; [exact Hwf0 |]; split; [exact Hpre |]).
        -- split; [exact Hsize |].
           rewrite puts_to_app, puts_to_notify, loads_app, loads_notify, Hloads.
           rewrite <- app_assoc. split; [exact Hputs | reflexivity].
        -- left. rewrite puts_to_app, puts_to_notify, loads_app, loads_notify, Hloads.
           split; [| reflexivity].
           exists (rest.*1). rewrite <- Hputs, <- app_assoc. reflexivity.
    + (* the dict has changed size *)
      intros [= <-]. cbn.
      split; [exact Hwf |]. split; [exact Hwf0 |]. split; [exact Hpre |].
      split; [exists (todo.*1); symmetry; exact Hputs |].
      split; [exact Hloads |].
      destruct Hpre as [k Hk].
      apply (f_equal length) in Hk. rewrite length_app, !length_dict_keys in Hk. lia.
  - (* the receiver serves a connection *)
    destruct (receiver_up r); [| discriminate].
    intros [= <-]. cbn [shared update_at calls start_reg].
    destruct (receiver_turn_registry w c (shared r) Hwf) as (Hwf' & Hpre' & Hlen').
    cbv zeta in Hwf', Hpre', Hlen'.
    split; [exact Hwf' |]. split; [exact Hwf0 |].
    split; [etrans; eassumption |].
    destruct (update_at r) as [|path todo size|[e|]]; try exact Hpos.
    destruct Hpos as (H1 & H2 & H3). split; [exact H1 |]. split; [exact H2 | lia].
Qed.

Lemma race_run_inv w schedule :
  forall r r', race_inv r -> race_run w schedule r = Some r' -> race_inv r'.
Proof.
  induction schedule as [|m schedule IH]; intros r r' Hinv; cbn [race_run].
  - intros [= <-]. exact Hinv.
  - destruct (race_step w m r) as [r1|] eqn:Hstep; [| discriminate].
    apply IH. exact (race_step_inv w m r r1 Hinv Hstep).
Qed.

(** The loop and the load, turn by turn, when no turn of the receiver
    comes in between. *)
Lemma loop_alone w path s size start up :
  length (remote_worker_reg s) = size ->
  forall todo cs,
    let port := remote_update_port s in
    let id := PyStr (ckpt_path (game_name s) path) in
    let o := if forallb (put_returns w port) (todo.*1)
             then logged (flat_map (notify_events w port id) (todo.*1))
                         (nn_eval_load w id s)
             else Outcome (Raise ConnectionError) s
                    (flat_map (notify_events w port id)
                       (served (put_returns w port) (todo.*1))) in
    race_run w
      (replicate (length (served (put_returns w port) (todo.*1)) +
                  (if forallb (put_returns w port) (todo.*1) then 1 else 0))
                 update_next)
      (mkRace s (in_loop path todo size) cs start up) =
    Some (mkRace (final o)
            (match res o with
             | Ok _ => in_recv
             | Raise e => ended (by_exception e)
             end)
            (cs ++ events o) start up).
Proof.
  intros Hsize. induction todo as [|[addr flag] rest IH]; intros cs; cbv zeta.
  - cbn [fmap list_fmap served forallb length Nat.add replicate race_run race_step
         update_at shared flat_map].
    rewrite Hsize, Nat.eqb_refl. cbn [negb]. unfold after_call.
    rewrite load_update_spec, nn_eval_load_spec.
    destruct (load_ok w _); reflexivity.
  - cbn [fmap list_fmap fst served forallb].
    change (list_fmap _ _ fst rest) with (rest.*1).
    destruct (put_returns w (remote_update_port s) addr) eqn:Hput; cbn [andb].
    + cbn [length Nat.add replicate race_run race_step update_at shared].
      rewrite Hsize, Nat.eqb_refl. cbn [negb]. unfold after_call.
      rewrite notify_one_spec, Hput. cbn [res final events calls start_reg receiver_up].
      specialize (IH (cs ++ notify_events w (remote_update_port s)
                              (PyStr (ckpt_path (game_name s) path)) addr)).
      cbv zeta in IH. rewrite IH. cbn [flat_map].
      destruct (forallb (put_returns w (remote_update_port s)) (rest.*1)).
      * rewrite !res_logged, !final_logged, !events_logged, <- !app_assoc. reflexivity.
      * cbn [res final events]. rewrite <- app_assoc. reflexivity.
    + cbn [length Nat.add replicate race_run race_step update_at shared].
      rewrite Hsize, Nat.eqb_refl. cbn [negb]. unfold after_call.
      rewrite notify_one_spec, Hput. cbn [flat_map]. rewrite app_nil_r. reflexivity.
Qed.

(** X4. An update that no turn of the data receiver comes into is the
    body of the handler's loop run in one piece: from [recv()]
    returning, the update handler takes one turn for each registered
    address, in the order of the registry, until a [put] raises, and one
    more for the [load] when none did; its calls, the state it leaves
    and the way it ends are those of [model_update_once], and it is back
    in [recv()] exactly when that returned.  So it has [put] once to
    each address up to the first one on which [put] raised, and called
    [load] exactly when every [put] returned. *)
Theorem undisturbed_update_is_handler_body
    (w : world) (s : state) (path : pyobj)
    (cs : list event) (reg0 : list (string * bool)) (up : bool) :
  let o := model_update_once w path s in
  let port := remote_update_port s in
  let keys := dict_keys (remote_worker_reg s) in
  race_run w (update_recv path :: replicate (turns_alone w s) update_next)
    (mkRace s in_recv cs reg0 up) =
  Some (mkRace (final o)
          (match res o with
           | Ok _ => in_recv
           | Raise e => ended (by_exception e)
           end)
          (events o) (remote_worker_reg s) up) /\
  puts_to (events o) = served (put_returns w port) keys /\
  loads (events o) =
    (if forallb (put_returns w port) keys
     then [PyStr (ckpt_path (game_name s) path)] else []) /\
  remote_worker_reg (final o) = remote_worker_reg s.
Proof.
  cbv zeta.
  pose proof (model_update_once_spec w path s) as Hspec. cbv zeta in Hspec.
  assert (forall addrs,
            puts_to (flat_map (notify_events w (remote_update_port s)
                                 (PyStr (ckpt_path (game_name s) path))) addrs) = addrs /\
            loads (flat_map (notify_events w (remote_update_port s)
                               (PyStr (ckpt_path (game_name s) path))) addrs) = [])
    as Hnotify.
  { induction addrs as [|a addrs [IH1 IH2]]; [split; reflexivity |].
    cbn [flat_map]. rewrite puts_to_app, loads_app, puts_to_notify, loads_notify, IH1, IH2.
    split; reflexivity. }
  split.
  - cbn [race_run race_step update_at shared receiver_up]. unfold turns_alone.
    pose proof (loop_alone w path s (length (remote_worker_reg s))
                  (remote_worker_reg s) up eq_refl
                  (dict_items (remote_worker_reg s)) []) as Hloop.
    cbv zeta in Hloop. unfold dict_items, dict_keys in *.
    rewrite Hloop, Hspec. reflexivity.
  - rewrite Hspec.
    destruct (forallb (put_returns w (remote_update_port s))
                (dict_keys (remote_worker_reg s))) eqn:Hall.
    + rewrite events_logged, final_logged, puts_to_app, loads_app.
      destruct (Hnotify (dict_keys (remote_worker_reg s))) as [-> ->].
      rewrite (served_all _ _ Hall), nn_eval_load_spec.
      destruct (load_ok w _); cbn; rewrite app_nil_r; repeat split.
    + cbn [events final].
      destruct (Hnotify (served (put_returns w (remote_update_port s))
                           (dict_keys (remote_worker_reg s)))) as [-> ->].
      repeat split.
Qed.

(** X5. A remote that registers while a model update is under way ends
    the update handler.  At every moment of the two threads' run: the
    update read last has [put] to addresses that were registered when
    its loop began, in their order and once each at most, and has called
    [load] only after a [put] to every one of them.  If the registry
    has got a new address since the loop began, the next turn of the
    loop raises [RuntimeError] whatever the loop had left to do: no
    further [put] is made - the addresses not yet reached, registered
    though they are, get none - and the model is not loaded.  A handler
    that has ended, by this or by an exception of [put] or [load], takes
    no further turn: no later update is read. *)
Theorem registration_ends_update_handler
    (w : world) (s0 : state) (schedule : list move) (r : race) :
  reg_wf (remote_worker_reg s0) ->
  race_run w schedule (race_init s0) = Some r ->
  NoDup (dict_keys (start_reg r)) /\
  puts_to (calls r) `prefix_of` dict_keys (start_reg r) /\
  (loads (calls r) <> [] -> puts_to (calls r) = dict_keys (start_reg r)) /\
  (forall path todo size,
     update_at r = in_loop path todo size ->
     dict_keys (remote_worker_reg (shared r)) <> dict_keys (start_reg r) ->
     race_step w update_next r =
     Some (mkRace (shared r) (ended by_RuntimeError) (calls r) (start_reg r)
             (receiver_up r))) /\
  (update_at r = ended by_RuntimeError ->
     loads (calls r) = [] /\
     exists addr,
       addr ∈ dict_keys (remote_worker_reg (shared r)) /\
       addr ∉ dict_keys (start_reg r)) /\
  (forall e,
     update_at r = ended e ->
     race_step w update_next r = None /\
     forall path, race_step w (update_recv path) r = None).
Proof.
  intros Hwf0 Hrun.
  pose proof (race_run_inv w schedule _ _ (race_init_inv s0 Hwf0) Hrun) as Hinv.
  unfold race_inv in Hinv. destruct Hinv as (Hwf & Hstart & Hpre & Hpos).
  split; [apply Hstart |].
  split.
  { destruct (update_at r) as [|path todo size|[e|]].
    - destruct Hpos as [-> | [-> _]]; [apply prefix_nil | reflexivity].
    - destruct Hpos as (_ & <- & _). eexists; reflexivity.
    - destruct Hpos as [[H _] | [-> _]]; [exact H | reflexivity].
    - apply Hpos. }
  split.
  { intros Hloads. destruct (update_at r) as [|path todo size|[e|]].
    - destruct Hpos as [Hc | [H _]]; [rewrite Hc in Hloads; contradiction | exact H].
    - destruct Hpos as (_ & _ & H). contradiction.
    - destruct Hpos as [[_ H] | [H _]]; [contradiction | exact H].
    - destruct Hpos as (_ & H & _). contradiction. }
  split.
  { intros path todo size Hat Hkeys. cbn [race_step]. rewrite Hat.
    rewrite Hat in Hpos. destruct Hpos as (-> & _ & _).
    destruct (Nat.eqb_spec (length (remote_worker_reg (shared r)))
                (length (start_reg r))) as [Hlen|Hlen]; [| reflexivity].
    exfalso. apply Hkeys. apply prefix_of_length_eq; [exact Hpre |].
    rewrite !length_dict_keys. exact Hlen. }
  split.
  { intros Hat. rewrite Hat in Hpos. destruct Hpos as (_ & Hloads & Hlen).
    split; [exact Hloads |].
    destruct Hpre as [extra Hextra].
    destruct extra as [|addr extra].
    - exfalso. rewrite app_nil_r in Hextra. apply (f_equal length) in Hextra.
      rewrite !length_dict_keys in Hextra. lia.
    - exists addr. destruct Hwf as [Hnd _]. rewrite Hextra in Hnd |- *.
      split; [apply elem_of_app; right; apply list_elem_of_here |].
      apply NoDup_app in Hnd as (_ & Hdisj & _).
      intros Hin. exact (Hdisj addr Hin (list_elem_of_here _ _)). }
  intros e Hat. cbn [race_step]. rewrite Hat. split; [reflexivity |].
  intros path. reflexivity.
Qed.

(** Remote 10.0.0.2 is registered; update 7 is read; remote 10.0.0.3
    registers before the loop's first turn: the turn raises, and
    10.0.0.2 gets no [put]. *)
Lemma registration_ends_update_handler_example :
  let peer a := mkConnection a [tag_dumps (PyStr "game")] in
  let schedule := [receiver_serves (peer "10.0.0.2"); update_recv (PyInt 7);
                   receiver_serves (peer "10.0.0.3"); update_next] in
  exists r,
    race_run calm schedule (race_init (init 2 5000 5001 "mnk" None)) = Some r /\
    update_at r = ended by_RuntimeError /\
    dict_keys (start_reg r) = ["10.0.0.2"] /\
    calls r = [] /\ loads (calls r) = [].
Proof.
  cbv zeta.
  destruct (race_run calm
              [receiver_serves (mkConnection "10.0.0.2" [tag_dumps (PyStr "game")]);
               update_recv (PyInt 7);
               receiver_serves (mkConnection "10.0.0.3" [tag_dumps (PyStr "game")]);
               update_next]
              (race_init (init 2 5000 5001 "mnk" None))) as [r|] eqn:Hrun;
    [| vm_compute in Hrun; discriminate Hrun].
  pose proof (registration_ends_update_handler calm (init 2 5000 5001 "mnk" None)
                _ r ltac:(split; constructor) Hrun) as (_ & _ & _ & _ & Hended & _).
  exists r. split; [reflexivity |].
  vm_compute in Hrun. injection Hrun as <-.
  split; [reflexivity |]. split; [reflexivity |]. split; [reflexivity |].
  exact (proj1 (Hended eq_refl)).
Defined.

End Race.

(** ** Frames and the chunks they arrive in *)

Section Chunks.
Import Selfplay SelfplayRuns.

Lemma received_concat chunks :
  Forall (fun chunk => chunk ≠ []) chunks -> received chunks = concat chunks.
Proof.
  induction 1 as [|chunk chunks Hne _ IH]; cbn [received concat]; [reflexivity |].
  destruct chunk as [|b chunk]; [congruence |].
  cbn [length Nat.eqb]. rewrite IH. reflexivity.
Qed.

(** X6. What a receiving handler makes of a connection depends on the
    bytes the peer sent, not on how [recv] cut them up: two
    connections from one address that deliver the same bytes in
    different chunks leave the same result and the same state behind,
    in the data receiver and in the update listener alike, and the
    frame is the unpickling of the bytes put together.  A peer that
    connects and closes without sending anything gives the empty
    buffer, and if that is no pickle the handler ends there. *)
Theorem chunking_does_not_matter
    (w : world) (c1 c2 : connection) (s : state) :
  Forall (fun chunk => chunk ≠ []) (stream c1) ->
  Forall (fun chunk => chunk ≠ []) (stream c2) ->
  concat (stream c1) = concat (stream c2) ->
  client_address c1 = client_address c2 ->
  frame w c1 = pickle_loads w (concat (stream c1)) /\
  res (rcv_remote_data_once w c1 s) = res (rcv_remote_data_once w c2 s) /\
  final (rcv_remote_data_once w c1 s) = final (rcv_remote_data_once w c2 s) /\
  res (remote_update_once w c1 s) = res (remote_update_once w c2 s) /\
  final (remote_update_once w c1 s) = final (remote_update_once w c2 s) /\
  (forall addr,
     pickle_loads w [] = None ->
     rcv_remote_data_once w (mkConnection addr []) s =
       Outcome (Raise UnpicklingError) s (session_open (mkConnection addr [])) /\
     remote_update_once w (mkConnection addr []) s =
       Outcome (Raise UnpicklingError) s (session_open (mkConnection addr []))).
Proof.
  intros H1 H2 Hbytes Haddr.
  assert (frame w c1 = frame w c2) as Hframe.
  { unfold frame. rewrite (received_concat _ H1), (received_concat _ H2), Hbytes.
    reflexivity. }
  split.
  { unfold frame. rewrite (received_concat _ H1). reflexivity. }
  rewrite !rcv_remote_data_once_spec, !remote_update_once_spec, Hframe, Haddr.
  split; [| split; [| split; [| split]]].
  - destruct (frame w c2) as [obj|]; [destruct (queue_put_ok w obj) |]; reflexivity.
  - destruct (frame w c2) as [obj|]; [destruct (queue_put_ok w obj) |]; reflexivity.
  - destruct (frame w c2) as [obj|]; [destruct (load_ok w obj) |]; reflexivity.
  - destruct (frame w c2) as [obj|]; [destruct (load_ok w obj) |]; reflexivity.
  - intros addr Hempty.
    rewrite rcv_remote_data_once_spec, remote_update_once_spec.
    unfold frame. cbn [stream received]. rewrite Hempty. split; reflexivity.
Qed.

(** The frame "game" in one chunk and in two. *)
Lemma chunking_does_not_matter_example :
  let whole := mkConnection "10.0.0.2" [tag_dumps (PyStr "game")] in
  let cut := mkConnection "10.0.0.2"
               [take 2 (tag_dumps (PyStr "game")); drop 2 (tag_dumps (PyStr "game"))] in
  final (rcv_remote_data_once calm whole (init 2 5000 5001 "mnk" None)) =
  final (rcv_remote_data_once calm cut (init 2 5000 5001 "mnk" None)).
Proof.
  cbv zeta.
  refine (proj1 (proj2 (proj2 (chunking_does_not_matter calm
    (mkConnection "10.0.0.2" [tag_dumps (PyStr "game")])
    (mkConnection "10.0.0.2"
       [take 2 (tag_dumps (PyStr "game")); drop 2 (tag_dumps (PyStr "game"))])
    (init 2 5000 5001 "mnk" None) _ _ eq_refl eq_refl)))).
  - repeat constructor; discriminate.
  - repeat constructor; vm_compute; discriminate.
Defined.

End Chunks.

(** * Further properties of the mnk game state *)

Module MnkPlay.
Import Mnk.

(** The number of cells in a row, from [(xp, yp)] on in steps of
    [(dx, dy)], that are on the board and hold [current_player]'s stone;
    at most [fuel] of them are looked at. *)
Fixpoint run_from (fuel : nat) (s : GameState) (xp yp dx dy : Z) : Z :=
  match fuel with
  | O => 0
  | S fuel' =>
      if _on_board s (xp, yp) then
        match board_get (board s) xp yp with
        | Ok v =>
            if v =? current_player s
            then 1 + run_from fuel' s (xp + dx) (yp + dy) dx dy
            else 0
        | Raise _ => 0
        end
      else 0
  end.

(** The values a cell of the board, a numpy array of [int64], can
    hold.  Storing any other value in the array raises [OverflowError],
    which the embedding of [do_move] does not have: what is proved of a
    move that places a stone is proved for the colors within this range. *)
Definition int64 (v : Z) : Prop := - 2 ^ 63 <= v < 2 ^ 63.

(** The state of [do_move] once the stone is on the board [b'] and
    before the lines are counted. *)
Definition placed (s : GameState) (action : Z * Z) (color : Z)
    (b' : list (list Z)) : GameState :=
  mkGameState (width s) (height s) (k s) b' color (history s ++ [action])
    (history_length s) (tail (board_history s ++ [board s]))
    (is_end_of_game s) (winner s) (turns s + 1).

(** The length of the line of [current_player]'s stones through
    [(x, y)] along [(dx, dy)], as [do_move] counts it. *)
Definition line_through (s : GameState) (x y dx dy : Z) : Z :=
  1 + run_from (line_fuel s) s (x + dx) (y + dy) dx dy
    + run_from (line_fuel s) s (x - dx) (y - dy) (- dx) (- dy).

(** The move at [(x, y)] completes a line of [k] along one of the four
    directions. *)
Definition wins (s : GameState) (x y : Z) : bool :=
  (line_through s x y 1 0 >=? k s) || (line_through s x y 0 1 >=? k s)
  || (line_through s x y 1 1 >=? k s) || (line_through s x y 1 (-1) >=? k s).

(** The state [do_move] returns in after a legal move. *)
Definition moved (s : GameState) (action : Z * Z) (color : Z)
    (b' : list (list Z)) : GameState :=
  let p := placed s action color b' in
  set_current_player (- color)
    (if wins p action.1 action.2 then set_end true (Some color) p
     else if turns p =? height p * width p then set_end true (Some 0) p
     else p).

(** Stones of [color] fill the [n] cells after [(x, y)] along [(dx, dy)]. *)
Definition in_line (s : GameState) (color : Z) (x y dx dy : Z) (n : Z) : Prop :=
  forall i, 1 <= i <= n ->
    _on_board s (x + i * dx, y + i * dy) = true /\
    board_get (board s) (x + i * dx) (y + i * dy) = Ok color.

End MnkPlay.

Section LegalMove.
Import Mnk MnkPlay.

Lemma py_index_nonneg n i :
  0 <= i < Z.of_nat n -> py_index n i = Some (Z.to_nat i).
Proof.
  intros H. unfold py_index.
  destruct (Z.leb_spec 0 i); [| lia].
  destruct (Z.ltb_spec i (Z.of_nat n)); [reflexivity | lia].
Qed.

Lemma on_board_bounds s x y :
  _on_board s (x, y) = true <-> 0 <= x < height s /\ 0 <= y < width s.
Proof.
  unfold _on_board. rewrite !andb_true_iff.
  rewrite !Z.geb_le, !Z.ltb_lt. lia.
Qed.

(** Reading and writing a cell of a board of the right shape. *)
Lemma board_get_lookup s x y :
  well_shaped s -> _on_board s (x, y) = true ->
  exists row v,
    board s !! Z.to_nat x = Some row /\ row !! Z.to_nat y = Some v /\
    Z.of_nat (length row) = width s /\
    board_get (board s) x y = Ok v.
Proof.
  intros [Hrows Hcols] Hon. apply on_board_bounds in Hon as [Hx Hy].
  destruct (board s !! Z.to_nat x) as [row|] eqn:Hrow.
  2:{ apply lookup_ge_None in Hrow. lia. }
  assert (Z.of_nat (length row) = width s) as Hlen.
  { rewrite Forall_forall in Hcols.
    rewrite (Hcols row) by (apply list_elem_of_lookup; eauto). lia. }
  destruct (row !! Z.to_nat y) as [v|] eqn:Hv.
  2:{ apply lookup_ge_None in Hv. lia. }
  exists row, v. repeat split; try assumption.
  unfold board_get.
  rewrite py_index_nonneg by lia. rewrite Hrow.
  rewrite py_index_nonneg by lia. rewrite Hv. reflexivity.
Qed.

Lemma board_set_lookup s x y v :
  well_shaped s -> _on_board s (x, y) = true ->
  exists row,
    board s !! Z.to_nat x = Some row /\
    board_set (board s) x y v =
      Ok (<[Z.to_nat x := <[Z.to_nat y := v]> row]> (board s)).
Proof.
  intros Hshape Hon.
  destruct (board_get_lookup s x y Hshape Hon) as (row & v0 & Hrow & Hv & Hlen & _).
  apply on_board_bounds in Hon as [Hx Hy]. destruct Hshape as [Hrows _].
  exists row. split; [exact Hrow |].
  unfold board_set.
  rewrite py_index_nonneg by lia. rewrite Hrow.
  rewrite py_index_nonneg by lia. reflexivity.
Qed.

(** Writing a cell keeps the shape of the board. *)
Lemma well_shaped_insert s x y v row b' :
  well_shaped s ->
  board s !! x = Some row ->
  width b' = width s -> height b' = height s ->
  board b' = <[x := <[y := v]> row]> (board s) ->
  well_shaped b'.
Proof.
  intros [Hrows Hcols] Hrow Hw Hh Hb. unfold well_shaped.
  rewrite Hb, Hw, Hh, length_insert. split; [exact Hrows |].
  apply Forall_insert; [exact Hcols |].
  rewrite length_insert. rewrite Forall_forall in Hcols.
  apply Hcols. apply list_elem_of_lookup. eauto.
Qed.

(** On a board of the right shape a counting loop reads and never
    fails: it returns the count it was given plus the run it found. *)
Lemma count_line_run s :
  well_shaped s ->
  forall fuel xp yp dx dy count,
    count_line fuel xp yp dx dy count s =
    Outcome (Ok (count + run_from fuel s xp yp dx dy)) s [].
Proof.
  intros Hshape. induction fuel as [|fuel IH]; intros xp yp dx dy count;
    cbn [count_line run_from].
  - rewrite Z.add_0_r. reflexivity.
  - rewrite bind_get. destruct (_on_board s (xp, yp)) eqn:Hon.
    2:{ rewrite Z.add_0_r. reflexivity. }
    destruct (board_get_lookup s xp yp Hshape Hon) as (row & v & _ & _ & _ & ->).
    cbn [lift]. rewrite bind_ret.
    destruct (v =? current_player s).
    + rewrite IH. f_equal. f_equal. lia.
    + rewrite Z.add_0_r. reflexivity.
Qed.

Lemma logged_nothing {St Exn Ev A} (o : outcome St Exn Ev A) : logged [] o = o.
Proof. destruct o; reflexivity. Qed.

Lemma wins_unfold s x y :
  wins s x y =
  (1 + run_from (line_fuel s) s (x + 1) y 1 0
     + run_from (line_fuel s) s (x - 1) y (-1) 0 >=? k s)
  || (1 + run_from (line_fuel s) s x (y + 1) 0 1
        + run_from (line_fuel s) s x (y - 1) 0 (-1) >=? k s)
  || (1 + run_from (line_fuel s) s (x + 1) (y + 1) 1 1
        + run_from (line_fuel s) s (x - 1) (y - 1) (-1) (-1) >=? k s)
  || (1 + run_from (line_fuel s) s (x + 1) (y - 1) 1 (-1)
        + run_from (line_fuel s) s (x - 1) (y + 1) (-1) 1 >=? k s).
Proof.
  unfold wins, line_through. rewrite !Z.add_0_r, !Z.sub_0_r. reflexivity.
Qed.

(** What [is_legal] says yes to. *)
Lemma is_legal_true_iff x y s :
  res (is_legal (x, y) s) = Ok true <->
  _on_board s (x, y) = true /\ board_get (board s) x y = Ok EMPTY.
Proof.
  unfold is_legal. rewrite bind_get.
  destruct (_on_board s (x, y)); cbn [negb].
  - destruct (board_get (board s) x y) as [v|e]; cbn [lift].
    + rewrite bind_ret. destruct (Z.eqb_spec v EMPTY) as [->|Hne]; cbn.
      * tauto.
      * split; [discriminate |]. intros [_ [= H]]. congruence.
    + cbn. split; [discriminate |]. intros [_ H]. discriminate H.
  - cbn. split; [discriminate |]. intros [H _]. discriminate H.
Qed.

(** A legal move on a board of the right shape, statement by statement. *)
Lemma do_move_legal_result s x y color row :
  well_shaped s ->
  _on_board s (x, y) = true ->
  board_get (board s) x y = Ok EMPTY ->
  board s !! Z.to_nat x = Some row ->
  let c := color_or color (current_player s) in
  let b' := <[Z.to_nat x := <[Z.to_nat y := c]> row]> (board s) in
  do_move (x, y) color s =
  Outcome (Ok (is_end_of_game (moved s (x, y) c b'))) (moved s (x, y) c b') [].
Proof.
  intros Hshape Hon Hempty Hrow. cbv zeta.
  set (c := color_or color (current_player s)).
  unfold do_move. rewrite bind_gets, bind_modify. fold c.
  assert (is_legal (x, y) (set_current_player c s) =
          Outcome (Ok true) (set_current_player c s) []) as Hlegal.
  { unfold is_legal. rewrite bind_get.
    change (_on_board (set_current_player c s) (x, y)) with (_on_board s (x, y)).
    rewrite Hon. cbn [negb board set_current_player]. rewrite Hempty.
    cbn [lift]. rewrite bind_ret. reflexivity. }
  rewrite (bind_run _ _ _ _ _ _ Hlegal). cbn [logged app].
  rewrite logged_nothing.
  rewrite bind_gets, !bind_modify, bind_gets.
  cbn [board set_history set_board_history set_current_player].
  destruct (board_set_lookup s x y c Hshape Hon) as (row' & Hrow' & Hset).
  rewrite Hrow in Hrow'. injection Hrow' as <-.
  rewrite Hset. cbn [lift]. rewrite bind_ret, !bind_modify, bind_gets.
  match goal with |- bind (count_line _ _ _ _ _ _) _ ?p = _ => set (P := p) end.
  set (b' := <[Z.to_nat x:=<[Z.to_nat y:=c]> row]> (board s)).
  assert (P = placed s (x, y) c b') as HP by reflexivity.
  assert (well_shaped P) as HshapeP.
  { apply (well_shaped_insert s (Z.to_nat x) (Z.to_nat y) c row P Hshape Hrow);
      reflexivity. }
  repeat (rewrite (bind_run _ _ _ _ _ _ (count_line_run P HshapeP _ _ _ _ _ _));
          cbv beta iota; rewrite logged_nothing).
  rewrite bind_get, <- wins_unfold.
  clearbody P. subst P. fold b'.
  unfold moved. cbn [fst snd].
  destruct (wins (placed s (x, y) c b') x y).
  - rewrite bind_modify, bind_modify. reflexivity.
  - destruct (turns (placed s (x, y) c b') =?
              height (placed s (x, y) c b') * width (placed s (x, y) c b')).
    + rewrite bind_modify, bind_modify. reflexivity.
    + rewrite bind_ret, bind_modify. reflexivity.
Qed.

(** The fields of the state after a legal move. *)
Lemma moved_fields s a c b' :
  board (moved s a c b') = b' /\
  turns (moved s a c b') = turns s + 1 /\
  history (moved s a c b') = history s ++ [a] /\
  board_history (moved s a c b') = tail (board_history s ++ [board s]) /\
  current_player (moved s a c b') = - c /\
  width (moved s a c b') = width s /\
  height (moved s a c b') = height s /\
  k (moved s a c b') = k s /\
  history_length (moved s a c b') = history_length s.
Proof.
  unfold moved. cbv zeta.
  destruct (wins _ _ _); [| destruct (_ =? _)]; cbn; repeat split.
Qed.

(** X7. A legal move on a board of the right shape, with a color the
    board can hold (an [int64]), always goes through: [do_move] returns
    [is_end_of_game], the cell holds the color played ([color], or the
    current player when no color or [0] is given), every other cell of
    the board is as before, [turns] is
    one more, the move is the last entry of [history], the board as it
    was is the last entry of [board_history] and the oldest entry is
    dropped, the other player is to move, and the board keeps its
    shape. *)
Theorem legal_move_places_stone (s : GameState) (x y : Z) (color : option Z) :
  well_shaped s ->
  res (is_legal (x, y) s) = Ok true ->
  int64 (color_or color (current_player s)) ->
  let c := color_or color (current_player s) in
  let o := do_move (x, y) color s in
  res o = Ok (is_end_of_game (final o)) /\
  board_get (board (final o)) x y = Ok c /\
  (forall x' y', _on_board s (x', y') = true -> (x', y') <> (x, y) ->
     board_get (board (final o)) x' y' = board_get (board s) x' y') /\
  turns (final o) = turns s + 1 /\
  history (final o) = history s ++ [(x, y)] /\
  board_history (final o) = tail (board_history s ++ [board s]) /\
  current_player (final o) = - c /\
  well_shaped (final o) /\
  (width (final o), height (final o), k (final o)) = (width s, height s, k s).
Proof.
  intros Hshape Hlegal _. cbv zeta.
  apply is_legal_true_iff in Hlegal as [Hon Hempty].
  destruct (board_get_lookup s x y Hshape Hon) as (row & v & Hrow & Hv & Hlen & Hget).
  rewrite (do_move_legal_result s x y color row Hshape Hon Hempty Hrow).
  cbn [res final].
  set (c := color_or color (current_player s)).
  set (b' := <[Z.to_nat x:=<[Z.to_nat y:=c]> row]> (board s)).
  destruct (moved_fields s (x, y) c b') as (Hb & Ht & Hh & Hbh & Hcp & Hw & Hhe & Hk & _).
  assert (well_shaped (moved s (x, y) c b')) as Hshape'.
  { apply (well_shaped_insert s (Z.to_nat x) (Z.to_nat y) c row _ Hshape Hrow);
      assumption. }
  pose proof Hon as Hb0. apply on_board_bounds in Hb0 as [Hx Hy].
  split; [reflexivity |]. split; [| split].
  - assert (_on_board (moved s (x, y) c b') (x, y) = true) as Hon'.
    { apply on_board_bounds. rewrite Hw, Hhe. lia. }
    destruct (board_get_lookup _ x y Hshape' Hon') as (row' & v' & Hrow' & Hv' & _ & ->).
    rewrite Hb in Hrow'. unfold b' in Hrow'.
    rewrite list_lookup_insert_eq in Hrow' by (apply lookup_lt_Some in Hrow; exact Hrow).
    injection Hrow' as <-.
    rewrite list_lookup_insert_eq in Hv' by (apply lookup_lt_Some in Hv; exact Hv).
    congruence.
  - intros x' y' Hon1 Hne.
    assert (_on_board (moved s (x, y) c b') (x', y') = true) as Hon1'.
    { apply on_board_bounds. rewrite Hw, Hhe. apply on_board_bounds. exact Hon1. }
    destruct (board_get_lookup s x' y' Hshape Hon1) as (r1 & v1 & Hr1 & Hv1 & _ & ->).
    destruct (board_get_lookup _ x' y' Hshape' Hon1') as (r2 & v2 & Hr2 & Hv2 & _ & ->).
    apply on_board_bounds in Hon1 as [Hx1 Hy1].
    rewrite Hb in Hr2. unfold b' in Hr2.
    destruct (decide (Z.to_nat x = Z.to_nat x')) as [Hxx|Hxx].
    + rewrite <- Hxx in Hr2, Hr1.
      rewrite list_lookup_insert_eq in Hr2 by (apply lookup_lt_Some in Hrow; exact Hrow).
      injection Hr2 as <-. rewrite Hrow in Hr1. injection Hr1 as <-.
      rewrite list_lookup_insert_ne in Hv2; [congruence |].
      intros Hyy. apply Hne. f_equal; lia.
    + rewrite list_lookup_insert_ne in Hr2 by exact Hxx. congruence.
  - split; [exact Ht |]. split; [exact Hh |]. split; [exact Hbh |].
    split; [exact Hcp |]. split; [exact Hshape' |].
    rewrite Hw, Hhe, Hk. reflexivity.
Qed.

(** The first move of a 3x3 game, at the centre. *)
Lemma legal_move_places_stone_example :
  let o := do_move (1, 1) None (init 3 3 3 8) in
  res o = Ok false /\ board (final o) = [[0; 0; 0]; [0; 1; 0]; [0; 0; 0]] /\
  current_player (final o) = WHITE.
Proof.
  cbv zeta.
  pose proof (legal_move_places_stone (init 3 3 3 8) 1 1 None
                (init_well_shaped 3 3 3 8) eq_refl
                ltac:(vm_compute; split; [discriminate | reflexivity])) as H.
  cbv zeta in H. destruct H as (Hres & _ & _ & _ & _ & _ & Hcp & _).
  split; [exact Hres |]. split; [vm_compute; reflexivity | exact Hcp].
Defined.

End LegalMove.

(** ** Games played from the empty board *)

Module MnkGame.
Import Mnk.

(** The number of stones on a board. *)
Definition stones (b : list (list Z)) : nat :=
  sum_list (map (fun row => length (filter (fun v => v ≠ EMPTY) row)) b).

(** The states a game goes through when every move is made with
    [do_move(action)], whether the move is taken or refused. *)
Inductive played (s0 : GameState) : GameState -> Prop :=
| played_start : played s0 s0
| played_move s action :
    played s0 s -> played s0 (final (do_move action None s)).

(** Who is to move after [n] moves of a game Black began. *)
Definition to_move (n : Z) : Z := if Z.even n then BLACK else WHITE.

(** What holds of every state of a game begun in [s0]. *)
Definition game_invariant (s0 s : GameState) : Prop :=
  well_shaped s /\
  (width s, height s, k s, history_length s) =
    (width s0, height s0, k s0, history_length s0) /\
  length (board_history s) = length (board_history s0) /\
  turns s = Z.of_nat (length (history s)) /\
  Z.of_nat (stones (board s)) = turns s /\
  current_player s = to_move (turns s) /\
  (0 < turns s -> turns s = height s * width s -> is_end_of_game s = true).

End MnkGame.

Section Games.
Import Mnk MnkPlay MnkGame.

Lemma stones_row_insert (row : list Z) j c :
  row !! j = Some EMPTY -> c <> EMPTY ->
  length (filter (fun v => v ≠ EMPTY) (<[j := c]> row)) =
  S (length (filter (fun v => v ≠ EMPTY) row)).
Proof.
  revert j. induction row as [|v row IH]; intros j Hj Hc; [discriminate Hj |].
  destruct j as [|j].
  - cbn in Hj. injection Hj as ->.
    change (<[0%nat := c]> (EMPTY :: row)) with (c :: row).
    rewrite !filter_cons.
    rewrite decide_True by exact Hc.
    rewrite decide_False by (intros H; exact (H eq_refl)). reflexivity.
  - cbn in Hj. change (<[S j := c]> (v :: row)) with (v :: <[j := c]> row).
    rewrite !filter_cons. case_decide; rewrite ?length_cons, (IH j Hj Hc); reflexivity.
Qed.

Lemma stones_insert (b : list (list Z)) i row row' :
  b !! i = Some row ->
  length (filter (fun v => v ≠ EMPTY) row') =
    S (length (filter (fun v => v ≠ EMPTY) row)) ->
  stones (<[i := row']> b) = S (stones b).
Proof.
  unfold stones. revert i. induction b as [|r b IH]; intros i Hi Hrow; [discriminate Hi |].
  destruct i as [|i].
  - cbn in Hi. injection Hi as ->.
    change (<[0%nat := row']> (row :: b)) with (row' :: b).
    cbn [map sum_list sum_list_with id]. rewrite Hrow. reflexivity.
  - cbn in Hi. change (<[S i := row']> (r :: b)) with (r :: <[i := row']> b).
    cbn [map sum_list sum_list_with id]. rewrite (IH i Hi Hrow). lia.
Qed.

(** A board of [h] rows of [w] cells holds at most [h * w] stones, and
    when it holds that many no cell is empty. *)
Lemma stones_bound (b : list (list Z)) w :
  Forall (fun row => length row = w) b ->
  (stones b <= length b * w)%nat /\
  (stones b = length b * w ->
   Forall (fun row => Forall (fun v => v ≠ EMPTY) row) b)%nat.
Proof.
  unfold stones. induction 1 as [|row b Hrow Hb [IHle IHeq]];
    cbn [map sum_list sum_list_with length id].
  - split; [lia | constructor].
  - pose proof (length_filter (fun v => v ≠ EMPTY) row) as Hle.
    split; [lia |]. intros Heq.
    assert (length (filter (fun v => v ≠ EMPTY) row) = length row) as Hfull by lia.
    constructor; [| apply IHeq; lia].
    clear -Hfull. induction row as [|v row IH]; [constructor |].
    rewrite filter_cons in Hfull.
    pose proof (length_filter (fun v => v ≠ EMPTY) row) as Hle.
    case_decide as Hv; cbn [length] in Hfull; [| lia].
    constructor; [exact Hv | apply IH; lia].
Qed.

Lemma to_move_next n : to_move (n + 1) = - to_move n.
Proof.
  unfold to_move. rewrite Z.even_add. cbn.
  destruct (Z.even n); reflexivity.
Qed.

Lemma to_move_nonzero n : to_move n <> 0.
Proof. unfold to_move. destruct (Z.even n); discriminate. Qed.

Lemma well_shaped_set_current_player c s :
  well_shaped s -> well_shaped (set_current_player c s).
Proof. intros H. exact H. Qed.

(** Preserve: a call of [do_move(action)], taken or refused. *)
Lemma game_invariant_move s0 s action :
  game_invariant s0 s -> game_invariant s0 (final (do_move action None s)).
Proof.
  intros (Hshape & Hcfg & Hbh & Hturns & Hstones & Hcp & Hend).
  destruct action as [x y].
  assert (color_or None (current_player s) = current_player s) as Hcol by reflexivity.
  destruct (is_legal_answers (x, y) (set_current_player (current_player s) s)
              (well_shaped_set_current_player _ s Hshape)) as [[|] Hl].
  - (* the move is taken *)
    assert (res (is_legal (x, y) (set_current_player (current_player s) s)) = Ok true)
      as Hlegal by (rewrite Hl; reflexivity).
    apply is_legal_true_iff in Hlegal as [Hon Hempty].
    change (_on_board (set_current_player (current_player s) s) (x, y))
      with (_on_board s (x, y)) in Hon.
    change (board (set_current_player (current_player s) s)) with (board s) in Hempty.
    destruct (board_get_lookup s x y Hshape Hon) as (row & v & Hrow & Hv & Hlen & Hget).
    rewrite Hempty in Hget. injection Hget as <-.
    rewrite (do_move_legal_result s x y None row Hshape Hon Hempty Hrow).
    cbn [final]. rewrite Hcol.
    set (c := current_player s).
    set (b' := <[Z.to_nat x:=<[Z.to_nat y:=c]> row]> (board s)).
    destruct (moved_fields s (x, y) c b')
      as (Hb & Ht & Hh & Hbh' & Hcp' & Hw & Hhe & Hk & Hhl).
    unfold game_invariant.
    rewrite Hb, Ht, Hh, Hbh', Hcp', Hw, Hhe, Hk, Hhl.
    split.
    { apply (well_shaped_insert s (Z.to_nat x) (Z.to_nat y) c row _ Hshape Hrow);
        assumption. }
    split; [exact Hcfg |].
    split.
    { rewrite <- Hbh. destruct (board_history s) as [|b0 bh0]; [reflexivity |].
      cbn [app tail length]. rewrite length_app. cbn [length]. lia. }
    split.
    { rewrite length_app. cbn [length]. lia. }
    split.
    { unfold b'. rewrite (stones_insert (board s) (Z.to_nat x) row _ Hrow).
      - lia.
      - apply stones_row_insert; [exact Hv |].
        unfold c. rewrite Hcp. apply to_move_nonzero. }
    split.
    { unfold c. rewrite Hcp. symmetry. apply to_move_next. }
    intros _ Hfull. unfold moved. cbv zeta.
    destruct (wins _ _ _); [reflexivity |].
    cbn [turns height width placed]. apply Z.eqb_eq in Hfull. rewrite Hfull.
    reflexivity.
  - (* the move is refused *)
    rewrite (do_move_illegal_branch (x, y) None s)
      by (cbn [color_or]; rewrite Hl; reflexivity).
    cbn [final].
    exact (conj Hshape (conj Hcfg (conj Hbh (conj Hturns (conj Hstones (conj Hcp Hend)))))).
Qed.

Lemma no_stones_in_empty_row (n : nat) :
  length (filter (fun v => v ≠ EMPTY) (replicate n 0)) = 0%nat.
Proof.
  induction n as [|n IH]; [reflexivity |].
  cbn [replicate]. rewrite filter_cons.
  rewrite decide_False by (intros H; exact (H eq_refl)). exact IH.
Qed.

Lemma stones_zeros h w : stones (zeros h w) = 0%nat.
Proof.
  unfold stones, zeros. induction (Z.to_nat h) as [|n IH]; [reflexivity |].
  cbn [replicate map sum_list sum_list_with id].
  rewrite no_stones_in_empty_row. exact IH.
Qed.

(** Establish. *)
Lemma game_invariant_init bw bh cfg_k hl :
  game_invariant (init bw bh cfg_k hl) (init bw bh cfg_k hl).
Proof.
  unfold game_invariant. split; [apply init_well_shaped |].
  cbn [init width height k history_length board_history turns history board
       current_player is_end_of_game length].
  rewrite stones_zeros.
  repeat split; try reflexivity. lia.
Qed.

Lemma played_invariant s0 s :
  game_invariant s0 s0 -> played s0 s -> game_invariant s0 s.
Proof.
  intros H0. induction 1 as [|s action _ IH]; [exact H0 |].
  apply game_invariant_move. exact IH.
Qed.

(** X8. In every state of a game played from the empty board with
    [do_move(action)] - moves taken and moves refused alike - the board
    has the shape the constructor gave it, [turns] is the number of
    moves in [history] and the number of stones on the board,
    [board_history] keeps its length, Black is to move after an even
    number of moves and White after an odd one, there are never more
    moves than cells, and a board filled by a move means the game is
    over.  On a full board [is_legal] refuses every action. *)
Theorem game_counts_agree (bw bh cfg_k hl : Z) (s : GameState) :
  played (init bw bh cfg_k hl) s ->
  well_shaped s /\
  turns s = Z.of_nat (length (history s)) /\
  Z.of_nat (stones (board s)) = turns s /\
  length (board_history s) = Z.to_nat (hl - 1) /\
  current_player s = (if Z.even (turns s) then BLACK else WHITE) /\
  turns s <= Z.max 0 bh * Z.max 0 bw /\
  (0 < turns s -> turns s = bh * bw -> is_end_of_game s = true) /\
  (turns s = Z.max 0 bh * Z.max 0 bw ->
   forall action, res (is_legal action s) = Ok false).
Proof.
  intros Hplayed.
  destruct (played_invariant _ _ (game_invariant_init bw bh cfg_k hl) Hplayed)
    as (Hshape & Hcfg & Hbh & Hturns & Hstones & Hcp & Hend).
  cbn [init width height k history_length board_history] in Hcfg, Hbh.
  injection Hcfg as Hw Hh Hk Hhl.
  rewrite length_replicate in Hbh.
  destruct Hshape as [Hrows Hcols].
  assert (Forall (fun row => length row = Z.to_nat (Z.max 0 bw)) (board s)) as Hcols'.
  { eapply Forall_impl; [exact Hcols |]. cbn. intros row Hrow. rewrite <- Hw. lia. }
  destruct (stones_bound (board s) _ Hcols') as [Hle Hfull].
  assert (Z.of_nat (length (board s) * Z.to_nat (Z.max 0 bw)) =
          Z.max 0 bh * Z.max 0 bw) as Hcells.
  { rewrite Nat2Z.inj_mul, Hrows, Hh, Z2Nat.id by lia. reflexivity. }
  split; [split; assumption |].
  split; [exact Hturns |]. split; [exact Hstones |]. split; [exact Hbh |].
  split; [exact Hcp |]. split; [lia |].
  split.
  { intros Hpos Hall. apply Hend; [exact Hpos |]. rewrite Hh, Hw. exact Hall. }
  intros Hall [x y].
  assert (well_shaped s) as Hshape by (split; assumption).
  destruct (_on_board s (x, y)) eqn:Hon.
  - destruct (board_get_lookup s x y Hshape Hon) as (row & v & Hrow & Hv & _ & Hget).
    assert (v ≠ EMPTY) as Hne.
    { assert (Forall (fun v => v ≠ EMPTY) row) as Hrowfull.
      { specialize (Hfull ltac:(lia)). rewrite Forall_forall in Hfull.
        apply Hfull. apply list_elem_of_lookup. eauto. }
      rewrite Forall_forall in Hrowfull. apply Hrowfull.
      apply list_elem_of_lookup. eauto. }
    unfold is_legal. rewrite bind_get, Hon. cbn [negb]. rewrite Hget.
    cbn [lift]. rewrite bind_ret.
    destruct (Z.eqb_spec v EMPTY); [contradiction | reflexivity].
  - unfold is_legal. rewrite bind_get, Hon. reflexivity.
Qed.

(** A 1x2 board after both cells are played: over, and nothing is legal. *)
Lemma game_counts_agree_example :
  let s := final (do_move (0, 1) None (final (do_move (0, 0) None (init 2 1 3 8)))) in
  turns s = 2 /\ is_end_of_game s = true /\ res (is_legal (0, 0) s) = Ok false.
Proof.
  cbv zeta.
  pose proof (game_counts_agree 2 1 3 8 _
    (played_move _ _ (0, 1) (played_move _ _ (0, 0) (played_start (init 2 1 3 8)))))
    as (_ & _ & _ & _ & _ & _ & Hend & Hfull).
  split; [vm_compute; reflexivity |].
  split; [apply Hend; vm_compute; reflexivity |].
  apply Hfull. vm_compute. reflexivity.
Defined.

End Games.

(** ** Winning lines *)

Module MnkLines.
Import Mnk MnkPlay.

(** The four directions [do_move] counts along (each with its opposite). *)
Definition directions : list (Z * Z) := [(1, 0); (0, 1); (1, 1); (1, -1)].

(** Through [(x, y)] runs a line of at least [n] cells, [(x, y)]
    counted in, whose other cells hold stones of [color]. *)
Definition line_of (s : GameState) (color : Z) (x y : Z) (n : Z) : Prop :=
  exists dx dy a b,
    (dx, dy) ∈ directions /\ 0 <= a /\ 0 <= b /\ n <= a + b + 1 /\
    in_line s color x y dx dy a /\ in_line s color x y (- dx) (- dy) b.

End MnkLines.

Section Lines.
Import Mnk MnkPlay MnkLines.

Lemma in_line_shorter s color x y dx dy n m :
  m <= n -> in_line s color x y dx dy n -> in_line s color x y dx dy m.
Proof. intros Hmn H i Hi. apply H. lia. Qed.

(** A run as counted is a line, and it cannot be made longer while
    there is fuel left. *)
Lemma run_from_line s dx dy fuel :
  forall x y,
    let n := run_from fuel s (x + dx) (y + dy) dx dy in
    0 <= n <= Z.of_nat fuel /\
    in_line s (current_player s) x y dx dy n /\
    (n < Z.of_nat fuel -> ~ in_line s (current_player s) x y dx dy (n + 1)).
Proof.
  induction fuel as [|fuel IH]; intros x y; cbv zeta; cbn [run_from].
  - split; [lia |]. split; [intros i Hi; lia | lia].
  - assert (~ _on_board s (x + dx, y + dy) = true \/
            ~ board_get (board s) (x + dx) (y + dy) = Ok (current_player s) ->
            0 <= 0 <= Z.of_nat (S fuel) /\
            in_line s (current_player s) x y dx dy 0 /\
            (0 < Z.of_nat (S fuel) ->
             ~ in_line s (current_player s) x y dx dy (0 + 1))) as Hstop.
    { intros Hno. split; [lia |]. split; [intros i Hi; lia |].
      intros _ Hline. destruct (Hline 1 ltac:(lia)) as [Hon Hget].
      rewrite !Z.mul_1_l in Hon, Hget. tauto. }
    destruct (_on_board s (x + dx, y + dy)) eqn:Hon.
    2:{ apply Hstop. left. discriminate. }
    destruct (board_get (board s) (x + dx) (y + dy)) as [v|e] eqn:Hget.
    2:{ apply Hstop. right. discriminate. }
    destruct (Z.eqb_spec v (current_player s)) as [->|Hne].
    2:{ apply Hstop. right. congruence. }
    destruct (IH (x + dx) (y + dy)) as (Hn & Hline & Hmax). cbv zeta in *.
    set (n := run_from fuel s (x + dx + dx) (y + dy + dy) dx dy) in *.
    split; [lia |]. split.
    + intros i Hi. destruct (decide (i = 1)) as [->|Hi1].
      * rewrite !Z.mul_1_l. split; assumption.
      * destruct (Hline (i - 1) ltac:(lia)) as [Hon' Hget'].
        replace (x + dx + (i - 1) * dx) with (x + i * dx) in Hon', Hget' by lia.
        replace (y + dy + (i - 1) * dy) with (y + i * dy) in Hon', Hget' by lia.
        split; assumption.
    + intros Hfuel Hlong. apply Hmax; [lia |].
      intros i Hi. destruct (Hlong (i + 1) ltac:(lia)) as [Hon' Hget'].
      replace (x + (i + 1) * dx) with (x + dx + i * dx) in Hon', Hget' by lia.
      replace (y + (i + 1) * dy) with (y + dy + i * dy) in Hon', Hget' by lia.
      split; assumption.
Qed.

(** With [line_fuel] the run found is the longest there is. *)
Lemma run_from_longest s x y dx dy a :
  _on_board s (x, y) = true ->
  dx = 1 \/ dx = -1 \/ (dx = 0 /\ (dy = 1 \/ dy = -1)) ->
  -1 <= dy <= 1 ->
  in_line s (current_player s) x y dx dy a ->
  a <= run_from (line_fuel s) s (x + dx) (y + dy) dx dy.
Proof.
  intros Hon Hd Hdy Hline.
  destruct (run_from_line s dx dy (line_fuel s) x y) as (Hn & _ & Hmax).
  cbv zeta in *.
  set (n := run_from (line_fuel s) s (x + dx) (y + dy) dx dy) in *.
  destruct (Z.le_gt_cases a n) as [Hle|Hgt]; [exact Hle | exfalso].
  assert (in_line s (current_player s) x y dx dy (n + 1)) as Hn1.
  { apply (in_line_shorter _ _ _ _ _ _ a); [lia | exact Hline]. }
  destruct (Z.lt_ge_cases n (Z.of_nat (line_fuel s))) as [Hlt|Hge].
  - exact (Hmax Hlt Hn1).
  - assert (n = Z.of_nat (line_fuel s)) as Hn' by lia.
    destruct (Hn1 (n + 1) ltac:(lia)) as [Hoff _].
    pose proof (line_fuel_leads_off_board s x y dx dy Hon Hd Hdy) as Hoff'.
    replace (x + (n + 1) * dx) with (x + dx + Z.of_nat (line_fuel s) * dx) in Hoff by lia.
    replace (y + (n + 1) * dy) with (y + dy + Z.of_nat (line_fuel s) * dy) in Hoff by lia.
    congruence.
Qed.

(** [do_move]'s count along a direction reaches [n] exactly when there
    is a line of [n] through the cell along it. *)
Lemma line_through_ge s x y dx dy n :
  _on_board s (x, y) = true ->
  (dx, dy) ∈ directions ->
  n <= line_through s x y dx dy <->
  exists a b, 0 <= a /\ 0 <= b /\ n <= a + b + 1 /\
              in_line s (current_player s) x y dx dy a /\
              in_line s (current_player s) x y (- dx) (- dy) b.
Proof.
  intros Hon Hdir.
  assert ((dx = 1 \/ dx = -1 \/ (dx = 0 /\ (dy = 1 \/ dy = -1))) /\ -1 <= dy <= 1 /\
          (- dx = 1 \/ - dx = -1 \/ (- dx = 0 /\ (- dy = 1 \/ - dy = -1))) /\
          -1 <= - dy <= 1) as (Hd & Hdy & Hd' & Hdy').
  { unfold directions in Hdir.
    repeat (apply elem_of_cons in Hdir as [Hdir | Hdir];
            [injection Hdir as -> ->; lia |]).
    inversion Hdir. }
  unfold line_through.
  change (x - dx) with (x + - dx). change (y - dy) with (y + - dy).
  destruct (run_from_line s dx dy (line_fuel s) x y) as (Hn1 & Hl1 & _).
  destruct (run_from_line s (- dx) (- dy) (line_fuel s) x y) as (Hn2 & Hl2 & _).
  cbv zeta in *. split.
  - intros Hle.
    exists (run_from (line_fuel s) s (x + dx) (y + dy) dx dy),
           (run_from (line_fuel s) s (x + - dx) (y + - dy) (- dx) (- dy)).
    split; [lia |]. split; [lia |]. split; [lia |]. exact (conj Hl1 Hl2).
  - intros (a & b & Ha & Hb & Hle & Hla & Hlb).
    pose proof (run_from_longest s x y dx dy a Hon Hd Hdy Hla).
    pose proof (run_from_longest s x y (- dx) (- dy) b Hon Hd' Hdy' Hlb).
    lia.
Qed.

Lemma wins_iff_line s x y :
  _on_board s (x, y) = true ->
  wins s x y = true <-> line_of s (current_player s) x y (k s).
Proof.
  intros Hon. unfold wins, line_of. rewrite !orb_true_iff, !Z.geb_le.
  split.
  - intros [[[H | H] | H] | H].
    + apply line_through_ge in H as (a & b & H); [| exact Hon | (unfold directions; repeat constructor)].
      exists 1, 0, a, b. split; [(unfold directions; repeat constructor) | exact H].
    + apply line_through_ge in H as (a & b & H); [| exact Hon | (unfold directions; repeat constructor)].
      exists 0, 1, a, b. split; [(unfold directions; repeat constructor) | exact H].
    + apply line_through_ge in H as (a & b & H); [| exact Hon | (unfold directions; repeat constructor)].
      exists 1, 1, a, b. split; [(unfold directions; repeat constructor) | exact H].
    + apply line_through_ge in H as (a & b & H); [| exact Hon | (unfold directions; repeat constructor)].
      exists 1, (-1), a, b. split; [(unfold directions; repeat constructor) | exact H].
  - intros (dx & dy & a & b & Hdir & H).
    assert (k s <= line_through s x y dx dy) as Hle.
    { apply line_through_ge; [exact Hon | exact Hdir |]. exists a, b. exact H. }
    unfold directions in Hdir.
    repeat (apply elem_of_cons in Hdir as [Hdir | Hdir];
            [injection Hdir as -> ->; tauto |]).
    inversion Hdir.
Qed.

(** X9. What ends a game.  After a legal move at [(x, y)] on a board
    of the right shape, with a color the board can hold (an [int64]),
    the game is won by the color played exactly when
    on the new board a line of at least [k] stones of that color runs
    through [(x, y)], horizontally, vertically or along a diagonal;
    with no such line the game ends in a draw (winner [0]) when the
    move was number [height * width], and otherwise [is_end_of_game]
    and [winner] stay as they were. *)
Theorem move_wins_iff_line (s : GameState) (x y : Z) (color : option Z) :
  well_shaped s ->
  res (is_legal (x, y) s) = Ok true ->
  int64 (color_or color (current_player s)) ->
  let c := color_or color (current_player s) in
  let s' := final (do_move (x, y) color s) in
  (line_of s' c x y (k s) ->
     is_end_of_game s' = true /\ winner s' = Some c) /\
  (~ line_of s' c x y (k s) -> turns s + 1 = height s * width s ->
     is_end_of_game s' = true /\ winner s' = Some 0) /\
  (~ line_of s' c x y (k s) -> turns s + 1 <> height s * width s ->
     is_end_of_game s' = is_end_of_game s /\ winner s' = winner s).
Proof.
  intros Hshape Hlegal _. cbv zeta.
  apply is_legal_true_iff in Hlegal as [Hon Hempty].
  destruct (board_get_lookup s x y Hshape Hon) as (row & v & Hrow & _).
  rewrite (do_move_legal_result s x y color row Hshape Hon Hempty Hrow).
  cbn [final].
  set (c := color_or color (current_player s)).
  set (b' := <[Z.to_nat x:=<[Z.to_nat y:=c]> row]> (board s)).
  pose proof (wins_iff_line (placed s (x, y) c b') x y Hon) as Hwins.
  change (current_player (placed s (x, y) c b')) with c in Hwins.
  change (k (placed s (x, y) c b')) with (k s) in Hwins.
  unfold moved. cbv zeta. cbn [fst snd].
  change (turns (placed s (x, y) c b')) with (turns s + 1).
  change (height (placed s (x, y) c b')) with (height s).
  change (width (placed s (x, y) c b')) with (width s).
  destruct (wins (placed s (x, y) c b') x y) eqn:Hw.
  - assert (line_of (placed s (x, y) c b') c x y (k s)) as Hline
      by (apply Hwins; reflexivity).
    split; [intros _; split; reflexivity |].
    split; intros Hno; exfalso; apply Hno; exact Hline.
  - assert (~ line_of (placed s (x, y) c b') c x y (k s)) as Hline.
    { intros H. apply Hwins in H. discriminate H. }
    destruct (Z.eqb_spec (turns s + 1) (height s * width s)) as [Hfull|Hfull].
    + split; [intros H; exfalso; apply Hline; exact H |].
      split; [intros _ _; split; reflexivity |].
      intros _ Hne. contradiction.
    + split; [intros H; exfalso; apply Hline; exact H |].
      split; [intros _ Heq; contradiction |].
      intros _ _. split; reflexivity.
Qed.

(** Black completes the row [(0, 0)], [(0, 1)], [(0, 2)] of a 3x3 board. *)
Lemma move_wins_iff_line_example :
  let s := final (do_move (1, 1) None (final (do_move (0, 1) None
             (final (do_move (1, 0) None (final (do_move (0, 0) None
                (init 3 3 3 8)))))))) in
  let s' := final (do_move (0, 2) None s) in
  is_end_of_game s = false /\ is_end_of_game s' = true /\ winner s' = Some BLACK.
Proof.
  cbv zeta. split; [vm_compute; reflexivity |].
  refine (proj1 (move_wins_iff_line _ 0 2 None _ _ _) _).
  - vm_compute. split; [reflexivity | repeat constructor].
  - vm_compute. reflexivity.
  - vm_compute. split; [discriminate | reflexivity].
  - exists 0, 1, 0, 2.
    split; [unfold directions; repeat constructor |].
    split; [lia |]. split; [lia |]. split; [vm_compute; discriminate |].
    split; intros i Hi; [lia |].
    assert (i = 1 \/ i = 2) as [-> | ->] by lia; vm_compute; split; reflexivity.
Defined.

End Lines.

(** ** The list of legal moves *)

Module MnkMoves.
Import Mnk.

(** [range(n)] *)
Definition range (n : Z) : list Z := Z.of_nat <$> seq 0 (Z.to_nat n).

(** [[x for x in xs if cond(x)]], [cond] being a method. *)
Fixpoint comprehension {A} (xs : list A) (cond : A -> Meth bool) : Meth (list A) :=
  match xs with
  | [] => ret []
  | x :: rest =>
      b ← cond x;
      l ← comprehension rest cond;
      ret (if b then x :: l else l)
  end.

(** The outer [for i in range(self.height)] of [get_legal_moves]; the
    inner [range(self.width)] is evaluated once for every [i]. *)
Fixpoint legal_rows (rows : list Z) : Meth (list (Z * Z)) :=
  match rows with
  | [] => ret []
  | i :: rest =>
      w ← gets width;
      l ← comprehension (pair i <$> range w) is_legal;
      l' ← legal_rows rest;
      ret (l ++ l')
  end.

Definition get_legal_moves : Meth (list (Z * Z)) :=
  h ← gets height;
  legal_rows (range h).

(** The cell is on the board and empty. *)
Definition free (s : GameState) (a : Z * Z) : bool :=
  _on_board s a &&
  match board_get (board s) a.1 a.2 with
  | Ok v => v =? EMPTY
  | Raise _ => false
  end.

(** The cells of the board, row by row. *)
Definition cells (s : GameState) : list (Z * Z) :=
  range (height s) ≫= fun i => pair i <$> range (width s).

End MnkMoves.

Section LegalMoves.
Import Mnk MnkPlay MnkGame MnkMoves.

Lemma is_legal_free s a :
  well_shaped s -> is_legal a s = Outcome (Ok (free s a)) s [].
Proof.
  intros Hshape. destruct a as [x y]. unfold is_legal, free. rewrite bind_get.
  cbn [fst snd].
  destruct (_on_board s (x, y)) eqn:Hon; cbn [negb andb]; [| reflexivity].
  destruct (board_get_on_board s x y Hshape Hon) as [v ->]. cbn [lift].
  rewrite bind_ret. destruct (v =? EMPTY); reflexivity.
Qed.

Lemma comprehension_free s xs :
  well_shaped s ->
  comprehension xs is_legal s =
  Outcome (Ok (filter (fun a => free s a = true) xs)) s [].
Proof.
  intros Hshape. induction xs as [|a xs IH]; [reflexivity |].
  cbn [comprehension].
  rewrite (bind_run _ _ _ _ _ _ (is_legal_free s a Hshape)).
  cbn [logged app]. rewrite logged_nothing.
  rewrite (bind_run _ _ _ _ _ _ IH). cbn [logged app]. rewrite logged_nothing.
  rewrite filter_cons. destruct (free s a); reflexivity.
Qed.

Lemma legal_rows_free s rows :
  well_shaped s ->
  legal_rows rows s =
  Outcome (Ok (filter (fun a => free s a = true)
                 (rows ≫= fun i => pair i <$> range (width s)))) s [].
Proof.
  intros Hshape. induction rows as [|i rows IH]; [reflexivity |].
  cbn [legal_rows]. rewrite bind_gets.
  rewrite (bind_run _ _ _ _ _ _ (comprehension_free s _ Hshape)).
  cbn [logged app]. rewrite logged_nothing.
  rewrite (bind_run _ _ _ _ _ _ IH). cbn [logged app]. rewrite logged_nothing.
  rewrite bind_cons, filter_app. reflexivity.
Qed.

Lemma get_legal_moves_free s :
  well_shaped s ->
  get_legal_moves s =
  Outcome (Ok (filter (fun a => free s a = true) (cells s))) s [].
Proof.
  intros Hshape. unfold get_legal_moves. rewrite bind_gets.
  apply legal_rows_free. exact Hshape.
Qed.

Lemma elem_of_range n i : i ∈ range n <-> 0 <= i < n.
Proof.
  unfold range. rewrite list_elem_of_fmap. split.
  - intros (j & -> & Hj). apply elem_of_seq in Hj. lia.
  - intros Hi. exists (Z.to_nat i). split; [lia |]. apply elem_of_seq. lia.
Qed.

Lemma NoDup_range n : NoDup (range n).
Proof.
  unfold range. apply NoDup_fmap_2; [| apply NoDup_seq].
  intros a b. lia.
Qed.

Lemma elem_of_cells s x y : (x, y) ∈ cells s <-> _on_board s (x, y) = true.
Proof.
  unfold cells. rewrite list_elem_of_bind, on_board_bounds. split.
  - intros (i & Hin & Hi). apply list_elem_of_fmap in Hin as (j & [= -> ->] & Hj).
    apply elem_of_range in Hi, Hj. lia.
  - intros [Hx Hy]. exists x. split; [| apply elem_of_range; exact Hx].
    apply list_elem_of_fmap. exists y. split; [reflexivity |].
    apply elem_of_range. exact Hy.
Qed.

Lemma NoDup_cells s : NoDup (cells s).
Proof.
  unfold cells. apply NoDup_bind; [| | apply NoDup_range].
  - intros i1 i2 [x y] _ _ H1 H2.
    apply list_elem_of_fmap in H1 as (j1 & [= -> ->] & _).
    apply list_elem_of_fmap in H2 as (j2 & [= -> ->] & _). reflexivity.
  - intros i _. apply NoDup_fmap_2; [| apply NoDup_range].
    intros a b [= ->]. reflexivity.
Qed.

Lemma free_true_iff s x y :
  free s (x, y) = true <->
  _on_board s (x, y) = true /\ board_get (board s) x y = Ok EMPTY.
Proof.
  unfold free. cbn [fst snd]. rewrite andb_true_iff.
  destruct (board_get (board s) x y) as [v|e].
  - destruct (Z.eqb_spec v EMPTY) as [->|Hne]; [tauto |].
    split; [intros [_ H]; discriminate H | intros [_ [= H]]; contradiction].
  - split; intros [_ H]; discriminate H.
Qed.

(** Counting the cells of one row by their index, against counting its
    entries. *)
Lemma count_by_index (row : list Z) (P : Z * Z -> Prop) `{!forall a, Decision (P a)}
    (i : Z) :
  forall off : nat,
    (forall j v, row !! j = Some v -> (P (i, Z.of_nat (off + j)) <-> v = EMPTY)) ->
    (length (filter P (pair i <$> (Z.of_nat <$> seq off (length row))))
     + length (filter (fun v => v ≠ EMPTY) row) = length row)%nat.
Proof.
  induction row as [|v row IH]; intros off Hrow; [reflexivity |].
  cbn [length seq fmap list_fmap]. rewrite !filter_cons.
  assert (length (filter P (pair i <$> (Z.of_nat <$> seq (S off) (length row))))
          + length (filter (fun v => v ≠ EMPTY) row) = length row)%nat as Hrest.
  { apply IH. intros j v' Hj.
    replace (S off + j)%nat with (off + S j)%nat by lia.
    apply Hrow. exact Hj. }
  pose proof (Hrow 0%nat v eq_refl) as H0. rewrite Nat.add_0_r in H0.
  destruct (decide (P (i, Z.of_nat off))) as [HP|HP];
    destruct (decide (v ≠ EMPTY)) as [Hv|Hv]; cbn [length].
  - apply H0 in HP. contradiction.
  - lia.
  - lia.
  - exfalso. apply HP, H0. destruct (decide (v = EMPTY)); [assumption | contradiction].
Qed.

Lemma length_filter_bind {A B} (P : B -> Prop) `{!forall b, Decision (P b)}
    (F : A -> list B) (xs : list A) :
  length (filter P (xs ≫= F)) = sum_list ((fun x => length (filter P (F x))) <$> xs).
Proof.
  induction xs as [|x xs IH]; [reflexivity |].
  rewrite bind_cons, filter_app, length_app, IH. reflexivity.
Qed.

Lemma sum_by_index {A} (l : list A) (g : nat -> nat) (f : A -> nat) (C : nat) :
  forall off : nat,
    (forall n x, l !! n = Some x -> (g (off + n) + f x = C)%nat) ->
    (sum_list (g <$> seq off (length l)) + sum_list (f <$> l) = length l * C)%nat.
Proof.
  induction l as [|x l IH]; intros off Hl; [reflexivity |].
  cbn [length seq fmap list_fmap].
  pose proof (Hl 0%nat x eq_refl) as H0. rewrite Nat.add_0_r in H0.
  assert (sum_list (g <$> seq (S off) (length l)) + sum_list (f <$> l)
          = length l * C)%nat as Hrest.
  { apply IH. intros n y Hn.
    replace (S off + n)%nat with (off + S n)%nat by lia. apply Hl. exact Hn. }
  change (sum_list (g off :: (g <$> seq (S off) (length l))))
    with (g off + sum_list (g <$> seq (S off) (length l)))%nat.
  change (sum_list (f x :: (f <$> l))) with (f x + sum_list (f <$> l))%nat.
  rewrite Nat.mul_succ_l. lia.
Qed.

(** On a board of the right shape the free cells and the stones make
    up the board. *)
Lemma free_cells_count s :
  well_shaped s ->
  Z.of_nat (length (filter (fun a => free s a = true) (cells s)))
  + Z.of_nat (stones (board s)) = Z.max 0 (height s) * Z.max 0 (width s).
Proof.
  intros Hshape. pose proof Hshape as [Hrows Hcols].
  unfold cells, range. rewrite length_filter_bind, <- list_fmap_compose.
  assert (Z.to_nat (height s) = length (board s)) as -> by lia.
  unfold stones.
  pose proof (sum_by_index (board s)
    (fun n => length (filter (fun a => free s a = true)
                        (pair (Z.of_nat n) <$> (Z.of_nat <$> seq 0 (Z.to_nat (width s))))))
    (fun row => length (filter (fun v => v ≠ EMPTY) row))
    (Z.to_nat (width s)) 0%nat) as Hsum.
  cbn [Nat.add] in Hsum.
  unfold compose.
  rewrite <- Hrows, <- Nat2Z.inj_add.
  transitivity (Z.of_nat (length (board s) * Z.to_nat (width s))%nat);
    [| rewrite Nat2Z.inj_mul; f_equal; lia].
  f_equal. apply Hsum.
  intros n row Hn.
  assert (Z.of_nat (length row) = Z.max 0 (width s)) as Hlen.
  { rewrite Forall_forall in Hcols. apply Hcols.
    apply list_elem_of_lookup_2 in Hn. exact Hn. }
  assert (Z.to_nat (width s) = length row) as -> by lia.
  apply (count_by_index row (fun a => free s a = true) (Z.of_nat n) 0%nat).
  intros j v Hj. cbn [Nat.add]. rewrite free_true_iff.
  assert (_on_board s (Z.of_nat n, Z.of_nat j) = true) as Hon.
  { apply on_board_bounds. apply lookup_lt_Some in Hn, Hj. lia. }
  destruct (board_get_lookup s _ _ Hshape Hon) as (row' & v' & Hrow' & Hv' & _ & ->).
  rewrite Nat2Z.id in Hrow', Hv'.
  rewrite Hn in Hrow'. injection Hrow' as <-.
  rewrite Hj in Hv'. injection Hv' as <-.
  split; [intros [_ [= ->]]; reflexivity | intros ->; split; [exact Hon | reflexivity]].
Qed.

(** X10. On a board of the right shape [get_legal_moves] returns,
    without changing the state, a list without repetitions that holds
    exactly the cells [is_legal] accepts; together with the stones on
    the board they make up the [height * width] cells; [do_move] takes
    every move of the list, whatever color the board can hold (an
    [int64]) it is made with, and refuses every other move with
    [IllegalMove], leaving the state as it was. *)
Theorem get_legal_moves_exact (s : GameState) :
  well_shaped s ->
  exists l,
    get_legal_moves s = Outcome (Ok l) s [] /\
    NoDup l /\
    (forall a, a ∈ l <-> res (is_legal a s) = Ok true) /\
    Z.of_nat (length l) + Z.of_nat (stones (board s))
      = Z.max 0 (height s) * Z.max 0 (width s) /\
    (forall a color,
       int64 (color_or color (current_player s)) ->
       a ∈ l -> exists b, res (do_move a color s) = Ok b) /\
    (forall a color, a ∉ l ->
       do_move a color s = Outcome (Raise (IllegalMove (str_action a))) s []).
Proof.
  intros Hshape.
  exists (filter (fun a => free s a = true) (cells s)).
  assert (forall a, a ∈ filter (fun a => free s a = true) (cells s) <->
                    res (is_legal a s) = Ok true) as Hin.
  { intros [x y]. rewrite list_elem_of_filter, elem_of_cells, free_true_iff,
      is_legal_true_iff. tauto. }
  split; [apply get_legal_moves_free; exact Hshape |].
  split; [apply NoDup_filter, NoDup_cells |].
  split; [exact Hin |].
  split; [apply free_cells_count; exact Hshape |].
  split.
  - intros [x y] color _ Ha. apply Hin, is_legal_true_iff in Ha as [Hon Hempty].
    destruct (board_get_lookup s x y Hshape Hon) as (row & v & Hrow & _).
    rewrite (do_move_legal_result s x y color row Hshape Hon Hempty Hrow).
    eexists. reflexivity.
  - intros a color Ha. apply do_move_illegal_branch.
    set (c := color_or color (current_player s)).
    destruct (is_legal_answers a (set_current_player c s)
                (well_shaped_set_current_player c s Hshape)) as [[|] Hl];
      [| rewrite Hl; reflexivity].
    exfalso. apply Ha, Hin.
    destruct a as [x y]. apply is_legal_true_iff.
    assert (res (is_legal (x, y) (set_current_player c s)) = Ok true) as Hl'
      by (rewrite Hl; reflexivity).
    apply is_legal_true_iff in Hl'. exact Hl'.
Qed.

(** After the first move of a 3x3 game the centre is not in the list
    and the corner is. *)
Lemma get_legal_moves_exact_example :
  let s := final (do_move (1, 1) None (init 3 3 3 8)) in
  exists l, res (get_legal_moves s) = Ok l /\ length l = 8%nat /\
            (0, 0) ∈ l /\ (1, 1) ∉ l.
Proof.
  cbv zeta.
  destruct (get_legal_moves_exact (final (do_move (1, 1) None (init 3 3 3 8))))
    as (l & Hrun & _ & Hin & Hcount & _).
  { vm_compute. split; [reflexivity | repeat constructor]. }
  exists l. split; [rewrite Hrun; reflexivity |].
  split; [change (Z.of_nat (length l) + 1 = 9) in Hcount; lia |].
  split; [apply Hin; vm_compute; reflexivity |].
  intros H. apply Hin in H. vm_compute in H. discriminate H.
Defined.

End LegalMoves.

(** ** Copies of a game state *)

Module MnkCopy.
Import Mnk.

(** [GameState.copy]: a new state made by [GameState()] - the three
    values of [mnk.yaml] and the default [history_length=8] - into which
    the board, the player to move, the two histories, [turns],
    [is_end_of_game] and [winner] are copied.  The copies of the board
    and of the histories share nothing with the original. *)
Definition copy (board_width board_height cfg_k : Z) : Meth GameState :=
  s ← get;
  let other := init board_width board_height cfg_k 8 in
  let other := set_board (board s) other in
  let other := set_current_player (current_player s) other in
  let other := set_history (history s) other in
  let other := set_board_history (board_history s) other in
  let other := set_turns (turns s) other in
  let other := set_end (is_end_of_game s) (winner s) other in
  ret other.

(** The two states differ at most in [history_length]. *)
Definition same_position (s1 s2 : GameState) : Prop :=
  width s1 = width s2 /\ height s1 = height s2 /\ k s1 = k s2 /\
  board s1 = board s2 /\ current_player s1 = current_player s2 /\
  history s1 = history s2 /\ board_history s1 = board_history s2 /\
  is_end_of_game s1 = is_end_of_game s2 /\ winner s1 = winner s2 /\
  turns s1 = turns s2.

End MnkCopy.

Section Copies.
Import Mnk MnkPlay MnkGame MnkMoves MnkCopy.

Lemma on_board_same s1 s2 a :
  width s1 = width s2 -> height s1 = height s2 ->
  _on_board s1 a = _on_board s2 a.
Proof. intros Hw Hh. destruct a as [x y]. unfold _on_board. rewrite Hw, Hh. reflexivity. Qed.

Lemma run_from_same fuel s1 s2 :
  width s1 = width s2 -> height s1 = height s2 -> board s1 = board s2 ->
  current_player s1 = current_player s2 ->
  forall x y dx dy, run_from fuel s1 x y dx dy = run_from fuel s2 x y dx dy.
Proof.
  intros Hw Hh Hb Hc. induction fuel as [|fuel IH]; intros x y dx dy; [reflexivity |].
  cbn [run_from]. rewrite (on_board_same s1 s2 _ Hw Hh), Hb, Hc.
  destruct (_on_board s2 (x, y)); [| reflexivity].
  destruct (board_get (board s2) x y) as [v|e]; [| reflexivity].
  destruct (v =? current_player s2); [| reflexivity].
  rewrite IH. reflexivity.
Qed.

Lemma wins_same s1 s2 x y :
  width s1 = width s2 -> height s1 = height s2 -> k s1 = k s2 ->
  board s1 = board s2 -> current_player s1 = current_player s2 ->
  wins s1 x y = wins s2 x y.
Proof.
  intros Hw Hh Hk Hb Hc. unfold wins, line_through, line_fuel.
  rewrite Hk, Hw, Hh.
  rewrite !(run_from_same _ s1 s2 Hw Hh Hb Hc). reflexivity.
Qed.

Lemma same_position_well_shaped s1 s2 :
  same_position s1 s2 -> well_shaped s1 -> well_shaped s2.
Proof.
  intros (Hw & Hh & _ & Hb & _) Hshape. unfold well_shaped in *.
  rewrite <- Hw, <- Hh, <- Hb. exact Hshape.
Qed.

Lemma free_same s1 s2 a :
  same_position s1 s2 -> free s1 a = free s2 a.
Proof.
  intros (Hw & Hh & _ & Hb & _). unfold free.
  rewrite (on_board_same s1 s2 a Hw Hh), Hb. reflexivity.
Qed.

Lemma moved_same s1 s2 a c b' :
  same_position s1 s2 ->
  same_position (moved s1 a c b') (moved s2 a c b') /\
  is_end_of_game (moved s1 a c b') = is_end_of_game (moved s2 a c b') /\
  history_length (moved s2 a c b') = history_length s2.
Proof.
  intros (Hw & Hh & Hk & Hb & Hc & Hhist & Hbh & He & Hwin & Ht).
  unfold moved. cbv zeta.
  rewrite (wins_same (placed s1 a c b') (placed s2 a c b') a.1 a.2 Hw Hh Hk eq_refl eq_refl).
  cbn [turns height width placed]. rewrite Ht, Hh, Hw.
  destruct (wins (placed s2 a c b') a.1 a.2);
    [| destruct (turns s2 + 1 =? height s2 * width s2)];
    unfold same_position; cbn; rewrite ?Hw, ?Hh, ?Hk, ?Hb, ?Hhist, ?Hbh, ?He, ?Hwin, ?Ht;
    repeat split; reflexivity.
Qed.

(** [do_move] does not look at [history_length], and leaves it alone. *)
Lemma do_move_same_position s1 s2 a color :
  well_shaped s1 -> same_position s1 s2 ->
  res (do_move a color s2) = res (do_move a color s1) /\
  same_position (final (do_move a color s1)) (final (do_move a color s2)) /\
  history_length (final (do_move a color s2)) = history_length s2.
Proof.
  intros Hshape1 Hsame. pose proof (same_position_well_shaped _ _ Hsame Hshape1) as Hshape2.
  pose proof Hsame as (Hw & Hh & Hk & Hb & Hc & _).
  destruct a as [x y].
  destruct (free s1 (x, y)) eqn:Hfree.
  - apply free_true_iff in Hfree as [Hon Hempty].
    destruct (board_get_lookup s1 x y Hshape1 Hon) as (row & v & Hrow & _).
    pose proof Hon as Hon2. rewrite (on_board_same s1 s2 _ Hw Hh) in Hon2.
    pose proof Hempty as Hempty2. rewrite Hb in Hempty2.
    pose proof Hrow as Hrow2. rewrite Hb in Hrow2.
    rewrite (do_move_legal_result s1 x y color row Hshape1 Hon Hempty Hrow).
    rewrite (do_move_legal_result s2 x y color row Hshape2 Hon2 Hempty2 Hrow2).
    cbn [res final]. rewrite <- Hb, <- Hc.
    destruct (moved_same s1 s2 (x, y) (color_or color (current_player s1))
                (<[Z.to_nat x:=<[Z.to_nat y:=color_or color (current_player s1)]> row]>
                   (board s1)) Hsame) as (H1 & H2 & H3).
    split; [rewrite H2; reflexivity |]. split; assumption.
  - assert (forall s, well_shaped s -> free s (x, y) = false ->
              do_move (x, y) color s
              = Outcome (Raise (IllegalMove (str_action (x, y)))) s []) as Hno.
    { intros s Hs Hf. apply do_move_illegal_branch.
      rewrite (is_legal_free _ _ (well_shaped_set_current_player _ s Hs)).
      cbn [res]. f_equal. exact Hf. }
    rewrite (Hno s1 Hshape1 Hfree).
    rewrite (Hno s2 Hshape2) by (rewrite <- (free_same s1 s2 _ Hsame); exact Hfree).
    cbn [res final]. split; [reflexivity |]. split; [exact Hsame | reflexivity].
Qed.

(** X11. A copy plays like the original.  For a state of the right
    shape whose dimensions are those of the configuration, [copy]
    returns, leaving the state alone, a state that agrees with it in
    every field but [history_length], which is [8] whatever it was in
    the original (while [board_history] keeps the original's length);
    [do_move] gives on the copy the result it gives on the original -
    the same value or the same exception - and the two states after it
    again agree in every field but [history_length]; [get_legal_moves]
    gives the same list. *)
Theorem copy_plays_alike (bw bh ck : Z) (s : GameState) :
  well_shaped s ->
  (width s, height s, k s) = (bw, bh, ck) ->
  exists s',
    copy bw bh ck s = Outcome (Ok s') s [] /\
    same_position s s' /\
    history_length s' = 8 /\
    (forall a color,
       res (do_move a color s') = res (do_move a color s) /\
       same_position (final (do_move a color s)) (final (do_move a color s')) /\
       history_length (final (do_move a color s')) = 8) /\
    res (get_legal_moves s') = res (get_legal_moves s).
Proof.
  intros Hshape [= <- <- <-].
  eexists. split; [reflexivity |].
  match goal with |- same_position s ?o /\ _ => set (s' := o) end.
  assert (same_position s s') as Hsame by (repeat split).
  split; [exact Hsame |]. split; [reflexivity |]. split.
  - intros a color.
    destruct (do_move_same_position s s' a color Hshape Hsame) as (H1 & H2 & H3).
    split; [exact H1 |]. split; [exact H2 | exact H3].
  - rewrite (get_legal_moves_free s Hshape).
    rewrite (get_legal_moves_free s' (same_position_well_shaped _ _ Hsame Hshape)).
    reflexivity.
Qed.

(** A 3x3 game made with [history_length=3], after its first move: the
    copy has [history_length] [8] and two boards in [board_history],
    and refuses the taken cell as the original does. *)
Lemma copy_plays_alike_example :
  let s := final (do_move (1, 1) None (init 3 3 3 3)) in
  exists s',
    res (copy 3 3 3 s) = Ok s' /\
    history_length s = 3 /\ history_length s' = 8 /\
    length (board_history s') = 2%nat /\
    res (do_move (1, 1) None s') = Raise (IllegalMove "(1, 1)").
Proof.
  cbv zeta.
  destruct (copy_plays_alike 3 3 3 (final (do_move (1, 1) None (init 3 3 3 3))))
    as (s' & Hrun & Hsame & Hhl & Hmove & _).
  { vm_compute. split; [reflexivity | repeat constructor]. }
  { vm_compute. reflexivity. }
  exists s'. split; [rewrite Hrun; reflexivity |].
  split; [vm_compute; reflexivity |]. split; [exact Hhl |].
  destruct Hsame as (_ & _ & _ & _ & _ & _ & Hbh & _).
  split; [rewrite <- Hbh; vm_compute; reflexivity |].
  destruct (Hmove (1, 1) None) as [-> _]. vm_compute. reflexivity.
Defined.

End Copies.

(** ** The symmetries of the board *)

Module MnkTransform.
Import Mnk.

(** [transform] raises nothing but the [AssertionError] of its [assert]. *)
Inductive transform_exn : Type :=
| AssertionError.

(** [b.shape] of a two-dimensional array. *)
Definition shape (b : list (list Z)) : nat * nat :=
  (length b, match b with row :: _ => length row | [] => 0%nat end).

(** [np.fliplr(b)]: the columns in reverse order. *)
Definition fliplr (b : list (list Z)) : list (list Z) := reverse <$> b.

(** [np.rot90(b)], a quarter turn counterclockwise: the result has the
    shape of [b] swapped and [np.rot90(b)[i][j] = b[j][w - 1 - i]]. *)
Definition rot90_once (b : list (list Z)) : list (list Z) :=
  let '(h, w) := shape b in
  (fun i => (fun j => (b !!! j) !!! (w - 1 - i)%nat) <$> seq 0 h) <$> seq 0 w.

(** [np.rot90(b, k)] *)
Definition rot90 (b : list (list Z)) (k : Z) : list (list Z) :=
  Nat.iter (Z.to_nat (k mod 4)) rot90_once b.

(** The inner function [_transform] of [transform]. *)
Definition _transform (transform_id : Z) (b : list (list Z)) : list (list Z) :=
  let b := if transform_id / 4 =? 1 then fliplr b else b in
  rot90 b (transform_id mod 4).

Definition transform (transform_id : Z) : M GameState transform_exn Empty_set unit :=
  s ← get;
  if negb (height s =? width s) then raise AssertionError
  else
    modify (set_board (_transform transform_id (board s)));;
    s ← get;
    modify (set_board_history (_transform transform_id <$> board_history s)).

(** An [n] by [n] array. *)
Definition square (n : nat) (b : list (list Z)) : Prop :=
  length b = n /\ Forall (fun row => length row = n) b.

(** [b[i][j]] for indices in range. *)
Definition cell (b : list (list Z)) (i j : nat) : Z := (b !!! i) !!! j.

(** The cell of the board that [transform] brings to [(i, j)], for the
    ids [0] to [7] on an [n] by [n] board: four rotations, then the
    reflection followed by the four rotations. *)
Definition source (n : nat) (transform_id : Z) (i j : nat) : nat * nat :=
  match transform_id with
  | 0 => (i, j)
  | 1 => (j, n - 1 - i)%nat
  | 2 => (n - 1 - i, n - 1 - j)%nat
  | 3 => (n - 1 - j, i)%nat
  | 4 => (i, n - 1 - j)%nat
  | 5 => (j, i)
  | 6 => (n - 1 - i, j)%nat
  | _ => (n - 1 - j, n - 1 - i)%nat
  end.

(** The id that undoes [transform_id]. *)
Definition inverse (transform_id : Z) : Z :=
  if transform_id <? 4 then (4 - transform_id) mod 4 else transform_id.

End MnkTransform.

Section Symmetries.
Import Mnk MnkTransform.

Lemma square_ext n b b' :
  square n b -> square n b' ->
  (forall i j, (i < n)%nat -> (j < n)%nat -> cell b i j = cell b' i j) ->
  b = b'.
Proof.
  intros [Hl Hr] [Hl' Hr'] Hcell. apply list_eq_same_length with n; [exact Hl' | exact Hl |].
  intros i row row' Hi Hrow Hrow'.
  rewrite Forall_forall in Hr, Hr'.
  pose proof (Hr _ (list_elem_of_lookup_2 _ _ _ Hrow)) as Hlen.
  pose proof (Hr' _ (list_elem_of_lookup_2 _ _ _ Hrow')) as Hlen'.
  apply list_eq_same_length with n; [exact Hlen' | exact Hlen |].
  intros j v v' Hj Hv Hv'.
  specialize (Hcell i j Hi Hj). unfold cell in Hcell.
  rewrite (list_lookup_total_correct _ _ _ Hrow) in Hcell.
  rewrite (list_lookup_total_correct _ _ _ Hrow') in Hcell.
  rewrite (list_lookup_total_correct _ _ _ Hv) in Hcell.
  rewrite (list_lookup_total_correct _ _ _ Hv') in Hcell.
  exact Hcell.
Qed.

Lemma square_shape n b : square n b -> shape b = (n, n).
Proof.
  intros [Hl Hr]. unfold shape. destruct b as [|row b].
  - cbn in Hl. subst n. reflexivity.
  - apply Forall_cons in Hr as [Hrow _]. rewrite Hl, Hrow. reflexivity.
Qed.

Lemma rot90_once_square n b : square n b -> square n (rot90_once b).
Proof.
  intros Hsq. unfold rot90_once. rewrite (square_shape n b Hsq).
  split; [rewrite length_fmap, length_seq; reflexivity |].
  apply Forall_fmap, Forall_forall. intros i _. cbn.
  rewrite length_fmap, length_seq. reflexivity.
Qed.

Lemma rot90_once_cell n b i j :
  square n b -> (i < n)%nat -> (j < n)%nat ->
  cell (rot90_once b) i j = cell b j (n - 1 - i).
Proof.
  intros Hsq Hi Hj. unfold rot90_once, cell. rewrite (square_shape n b Hsq).
  rewrite (list_lookup_total_fmap _ _ i) by (rewrite length_seq; exact Hi).
  rewrite (list_lookup_total_fmap _ _ j) by (rewrite length_seq; exact Hj).
  rewrite !lookup_total_seq_lt by assumption. reflexivity.
Qed.

Lemma fliplr_square n b : square n b -> square n (fliplr b).
Proof.
  intros [Hl Hr]. unfold fliplr. split; [rewrite length_fmap; exact Hl |].
  apply Forall_fmap. eapply Forall_impl; [exact Hr |].
  intros row Hrow. cbn. rewrite length_reverse. exact Hrow.
Qed.

Lemma fliplr_cell n b i j :
  square n b -> (i < n)%nat -> (j < n)%nat ->
  cell (fliplr b) i j = cell b i (n - 1 - j).
Proof.
  intros [Hl Hr] Hi Hj. unfold fliplr, cell.
  rewrite (list_lookup_total_fmap _ _ i) by lia.
  assert (length (b !!! i) = n) as Hlen.
  { rewrite Forall_forall in Hr. apply Hr. apply list_elem_of_lookup_total_2. lia. }
  apply list_lookup_total_correct.
  rewrite reverse_lookup by lia.
  rewrite Hlen. replace (n - S j)%nat with (n - 1 - j)%nat by lia.
  apply list_lookup_lookup_total_lt. lia.
Qed.

Ltac square_side :=
  first [ lia
        | repeat (first [apply rot90_once_square | apply fliplr_square]); assumption ].

Ltac cell_steps n :=
  repeat first [ rewrite (rot90_once_cell n) by square_side
               | rewrite (fliplr_cell n) by square_side ].

(** The eight ids as compositions of the reflection and quarter turns. *)
Lemma _transform_cases transform_id b :
  0 <= transform_id < 8 ->
  transform_id = 0 /\ _transform transform_id b = b \/
  transform_id = 1 /\ _transform transform_id b = rot90_once b \/
  transform_id = 2 /\ _transform transform_id b = rot90_once (rot90_once b) \/
  transform_id = 3 /\
    _transform transform_id b = rot90_once (rot90_once (rot90_once b)) \/
  transform_id = 4 /\ _transform transform_id b = fliplr b \/
  transform_id = 5 /\ _transform transform_id b = rot90_once (fliplr b) \/
  transform_id = 6 /\
    _transform transform_id b = rot90_once (rot90_once (fliplr b)) \/
  transform_id = 7 /\
    _transform transform_id b = rot90_once (rot90_once (rot90_once (fliplr b))).
Proof.
  intros Hid.
  assert (transform_id = 0 \/ transform_id = 1 \/ transform_id = 2 \/ transform_id = 3 \/
          transform_id = 4 \/ transform_id = 5 \/ transform_id = 6 \/ transform_id = 7)
    as [-> | [-> | [-> | [-> | [-> | [-> | [-> | ->]]]]]]] by lia;
    [ left | right; left | do 2 right; left | do 3 right; left | do 4 right; left
    | do 5 right; left | do 6 right; left | do 7 right ];
    (split; reflexivity).
Qed.

Lemma _transform_square n transform_id b :
  0 <= transform_id < 8 -> square n b -> square n (_transform transform_id b).
Proof.
  intros Hid Hsq.
  destruct (_transform_cases transform_id b Hid)
    as [[_ ->] | [[_ ->] | [[_ ->] | [[_ ->] | [[_ ->] | [[_ ->] | [[_ ->] | [_ ->]]]]]]]];
    square_side.
Qed.

Lemma _transform_cell n transform_id b i j :
  0 <= transform_id < 8 -> square n b -> (i < n)%nat -> (j < n)%nat ->
  cell (_transform transform_id b) i j =
  cell b (source n transform_id i j).1 (source n transform_id i j).2.
Proof.
  intros Hid Hsq Hi Hj.
  destruct (_transform_cases transform_id b Hid)
    as [[-> ->] | [[-> ->] | [[-> ->] | [[-> ->] | [[-> ->] | [[-> ->] | [[-> ->] | [-> ->]]]]]]]];
    cbn [source fst snd]; cell_steps n; f_equal; lia.
Qed.

Lemma source_in_range n transform_id i j :
  (i < n)%nat -> (j < n)%nat ->
  ((source n transform_id i j).1 < n)%nat /\ ((source n transform_id i j).2 < n)%nat.
Proof.
  intros Hi Hj. unfold source.
  repeat (match goal with |- context [match ?x with _ => _ end] => destruct x end);
    cbn [fst snd]; lia.
Qed.

Lemma inverse_in_range transform_id :
  0 <= transform_id < 8 -> 0 <= inverse transform_id < 8.
Proof.
  intros Hid. unfold inverse. destruct (Z.ltb_spec transform_id 4); [| lia].
  pose proof (Z.mod_pos_bound (4 - transform_id) 4 ltac:(lia)). lia.
Qed.

(** The inverse id brings every array back. *)
Lemma _transform_inverse n transform_id b :
  0 <= transform_id < 8 -> square n b ->
  _transform (inverse transform_id) (_transform transform_id b) = b.
Proof.
  intros Hid Hsq.
  pose proof (inverse_in_range _ Hid) as Hinv.
  apply (square_ext n); [| exact Hsq |].
  { apply _transform_square; [exact Hinv |]. apply _transform_square; assumption. }
  intros i j Hi Hj.
  rewrite (_transform_cell n) by (first [assumption | apply _transform_square; assumption]).
  destruct (source_in_range n (inverse transform_id) i j Hi Hj) as [Hi' Hj'].
  rewrite (_transform_cell n) by assumption.
  assert (transform_id = 0 \/ transform_id = 1 \/ transform_id = 2 \/ transform_id = 3 \/
          transform_id = 4 \/ transform_id = 5 \/ transform_id = 6 \/ transform_id = 7)
    as [-> | [-> | [-> | [-> | [-> | [-> | [-> | ->]]]]]]] by lia;
    repeat match goal with
           | |- context [inverse ?id] =>
               let v := eval vm_compute in (inverse id) in change (inverse id) with v
           end;
    cbn [source fst snd]; f_equal; lia.
Qed.

Lemma board_get_cell n b x y :
  square n b -> 0 <= x < Z.of_nat n -> 0 <= y < Z.of_nat n ->
  board_get b x y = Ok (cell b (Z.to_nat x) (Z.to_nat y)).
Proof.
  intros [Hl Hr] Hx Hy. unfold board_get, py_index, cell.
  rewrite Hl.
  destruct (Z.leb_spec 0 x); [| lia]. destruct (Z.ltb_spec x (Z.of_nat n)); [| lia].
  rewrite (list_lookup_lookup_total_lt b (Z.to_nat x)) by lia.
  assert (length (b !!! Z.to_nat x) = n) as Hlen.
  { rewrite Forall_forall in Hr. apply Hr. apply list_elem_of_lookup_total_2. lia. }
  rewrite Hlen.
  destruct (Z.leb_spec 0 y); [| lia]. destruct (Z.ltb_spec y (Z.of_nat n)); [| lia].
  rewrite (list_lookup_lookup_total_lt (b !!! Z.to_nat x) (Z.to_nat y)) by lia.
  reflexivity.
Qed.

Lemma transform_run transform_id s :
  height s = width s ->
  transform transform_id s =
  Outcome (Ok tt)
    (set_board_history (_transform transform_id <$> board_history s)
       (set_board (_transform transform_id (board s)) s)) [].
Proof.
  intros Hsq. unfold transform. rewrite bind_get.
  rewrite (proj2 (Z.eqb_eq _ _) Hsq). cbn [negb].
  rewrite bind_modify, bind_get. reflexivity.
Qed.

Lemma well_shaped_square s :
  height s = width s ->
  well_shaped s <-> square (Z.to_nat (height s)) (board s).
Proof.
  intros Hsq. unfold well_shaped, square. rewrite <- Hsq. split.
  - intros [Hl Hr]. split; [lia |].
    eapply Forall_impl; [exact Hr |]. cbn. intros row Hrow. lia.
  - intros [Hl Hr]. split; [lia |].
    eapply Forall_impl; [exact Hr |]. cbn. intros row Hrow. lia.
Qed.

(** X12. [transform] on the ids [0] to [7].  On a board that is not
    square it raises [AssertionError] and changes nothing.  On a square
    board of the right shape it returns, the board keeps its shape, and
    the cell [(x, y)] of the new board holds what the cell
    [source n id x y] of the old one held: ids [0] to [3] turn the board
    by [id] quarter turns counterclockwise, ids [4] to [7] first reverse
    the columns; [history], [turns], [current_player], [is_end_of_game]
    and [winner] are left as they were, so [history] still names the
    cells of the board before the call.  When the boards of
    [board_history] are square as well, [transform(inverse id)] after
    [transform(id)] gives back the state exactly: a rotation is undone
    by the opposite rotation and each of the ids [4] to [7] by
    itself. *)
Theorem transform_is_symmetry (s : GameState) (transform_id : Z) :
  well_shaped s ->
  0 <= transform_id < 8 ->
  (height s <> width s ->
     transform transform_id s = Outcome (Raise AssertionError) s []) /\
  (height s = width s ->
     let o := transform transform_id s in
     let n := Z.to_nat (height s) in
     res o = Ok tt /\
     well_shaped (final o) /\
     (forall x y, _on_board s (x, y) = true ->
        board_get (board (final o)) x y =
        board_get (board s)
          (Z.of_nat (source n transform_id (Z.to_nat x) (Z.to_nat y)).1)
          (Z.of_nat (source n transform_id (Z.to_nat x) (Z.to_nat y)).2)) /\
     length (board_history (final o)) = length (board_history s) /\
     (history (final o), turns (final o), current_player (final o),
      is_end_of_game (final o), winner (final o)) =
     (history s, turns s, current_player s, is_end_of_game s, winner s)) /\
  (height s = width s ->
   Forall (square (Z.to_nat (height s))) (board_history s) ->
   (transform transform_id ;; transform (inverse transform_id)) s =
   Outcome (Ok tt) s []).
Proof.
  intros Hshape Hid. split; [| split].
  - intros Hne. unfold transform. rewrite bind_get.
    rewrite (proj2 (Z.eqb_neq _ _) Hne). reflexivity.
  - intros Hsq. cbv zeta. rewrite (transform_run _ _ Hsq). cbn [res final].
    pose proof (proj1 (well_shaped_square s Hsq) Hshape) as Hb.
    pose proof (_transform_square _ transform_id _ Hid Hb) as Hb'.
    split; [reflexivity |]. split; [| split; [| split]].
    + apply (proj2 (well_shaped_square
                      (set_board_history (_transform transform_id <$> board_history s)
                         (set_board (_transform transform_id (board s)) s)) Hsq)).
      exact Hb'.
    + intros x y Hon. apply on_board_bounds in Hon as [Hx Hy].
      cbn [board set_board set_board_history].
      destruct (source_in_range (Z.to_nat (height s)) transform_id
                  (Z.to_nat x) (Z.to_nat y) ltac:(lia) ltac:(lia)) as [H1 H2].
      rewrite (board_get_cell _ _ x y Hb') by lia.
      rewrite (board_get_cell _ _ _ _ Hb) by lia.
      rewrite !Nat2Z.id.
      rewrite (_transform_cell (Z.to_nat (height s))) by (first [assumption | lia]).
      reflexivity.
    + cbn. rewrite length_fmap. reflexivity.
    + reflexivity.
  - intros Hsq Hhist.
    pose proof (proj1 (well_shaped_square s Hsq) Hshape) as Hb.
    rewrite (bind_run _ _ _ _ _ _ (transform_run transform_id s Hsq)).
    rewrite transform_run by exact Hsq.
    cbn [logged app board board_history set_board set_board_history].
    rewrite (_transform_inverse _ _ _ Hid Hb).
    rewrite <- list_fmap_compose.
    assert (_transform (inverse transform_id) ∘ _transform transform_id
              <$> board_history s = board_history s) as ->.
    { rewrite <- (list_fmap_id (board_history s)) at 2.
      apply Forall_fmap_ext. eapply Forall_impl; [exact Hhist |].
      intros b Hsqb. cbn. apply (_transform_inverse _ _ _ Hid Hsqb). }
    destruct s; reflexivity.
Qed.

(** A 3x3 game after Black's move at the corner [(0, 0)]: a quarter
    turn brings the stone to [(2, 0)], and three more bring it back. *)
Lemma transform_is_symmetry_example :
  let s := final (do_move (0, 0) None (Mnk.init 3 3 3 3)) in
  board (final (transform 1 s)) = [[0; 0; 0]; [0; 0; 0]; [1; 0; 0]] /\
  history (final (transform 1 s)) = [(0, 0)] /\
  (transform 1 ;; transform 3) s = Outcome (Ok tt) s [].
Proof.
  cbv zeta.
  destruct (transform_is_symmetry (final (do_move (0, 0) None (Mnk.init 3 3 3 3))) 1)
    as (_ & _ & Hback).
  { vm_compute. split; [reflexivity | repeat constructor]. }
  { lia. }
  split; [vm_compute; reflexivity |].
  split; [vm_compute; reflexivity |].
  apply (Hback eq_refl). vm_compute. repeat constructor.
Defined.

End Symmetries.

(** * The learning-rate schedule of the network

    [Network.update] of [AlphaZero/network/main.py].  The TensorFlow
    session is a collaborator: [get_global_step] reads its step counter,
    and the run of [train_op] with a fed learning rate is an observable
    call after which the counter is one more.  The batches fed to the
    models and the loss returned play no part in the choice of the rate
    and are left out. *)

Module Network.

Section Rates.
(** The values of the [learning_rate] table of the configuration. *)
Context {rate : Type}.

Inductive exn : Type :=
| KeyError (key : Z)
| AttributeError (name : string).

(** [self.sess.run([self.loss, self.train_op], feed_dict)] with
    [feed_dict[self.lr] = lr]. *)
Inductive event : Type :=
| sess_run_train (lr : rate).

(** [learning_scheme] is [self.config["learning_rate"]], a dict with
    int keys; [learning_rate] is the attribute [self.learning_rate],
    which [__init__] does not set; [global_step] is the step counter of
    the session. *)
Record network : Type := mkNetwork {
  learning_scheme : list (Z * rate);
  learning_rate : option rate;
  global_step : Z
}.

Definition set_learning_rate (r : option rate) (n : network) : network :=
  mkNetwork (learning_scheme n) r (global_step n).

Definition set_global_step (g : Z) (n : network) : network :=
  mkNetwork (learning_scheme n) (learning_rate n) g.

Definition Meth (A : Type) : Type := M network exn event A.

(** [d[key]] *)
Fixpoint scheme_get (d : list (Z * rate)) (key : Z) : option rate :=
  match d with
  | [] => None
  | (k, v) :: rest => if k =? key then Some v else scheme_get rest key
  end.

Definition get_global_step : Meth Z := gets global_step.

(** [current = 0
     for element in divides:
         if element < global_step:
             current = element] *)
Definition pick_current (divides : list Z) (global_step : Z) : Z :=
  foldl (fun current element => if element <? global_step then element else current)
        0 divides.

(** [sorted([int(value) for value in learning_scheme.keys()])] *)
Definition divides_of (scheme : list (Z * rate)) : list Z :=
  merge_sort Z.le (scheme.*1).

(** The session runs [train_op] with the rate fed to it; the step
    counter is one more afterwards. *)
Definition sess_run (fed : rate) : Meth unit :=
  emit (sess_run_train fed);;
  modify (fun n => set_global_step (global_step n + 1) n).

Definition update (lr : option rate) : Meth unit :=
  global_step ← get_global_step;
  (if global_step mod 1000 =? 0 then
     learning_scheme ← gets learning_scheme;
     let divides := divides_of learning_scheme in
     let current := pick_current divides global_step in
     match scheme_get learning_scheme current with
     | Some r => modify (set_learning_rate (Some r))
     | None => raise (KeyError current)
     end
   else ret tt);;
  fed ← match lr with
        | Some r => ret r
        | None =>
            own ← gets learning_rate;
            match own with
            | Some r => ret r
            | None => raise (AttributeError "learning_rate")
            end
        end;
  sess_run fed.

(** [n] calls of [update(data)] in a row. *)
Fixpoint updates (n : nat) : Meth unit :=
  match n with
  | O => ret tt
  | S n' => update None;; updates n'
  end.

(** The rate the table gives for the step [g]: that of the largest key
    strictly below [g], or of the key [0] when there is none. *)
Definition rate_at (scheme : list (Z * rate)) (g : Z) : option rate :=
  scheme_get scheme (pick_current (divides_of scheme) g).

(** The rates fed to the session, oldest first. *)
Definition fed_rates (evs : list event) : list rate :=
  map (fun e => match e with sess_run_train r => r end) evs.

End Rates.

Arguments network : clear implicits.
Arguments event : clear implicits.

End Network.

Section Schedule.
Import Network.
Context {rate : Type}.

(** On a sorted list the loop ends with the largest element below the
    step, or with its initial value when there is none. *)
Lemma pick_sorted (g : Z) (l : list Z) :
  StronglySorted Z.le l ->
  forall init,
    let c := foldl (fun current element => if element <? g then element else current)
                   init l in
    (c = init /\ forall k, k ∈ l -> g <= k) \/
    (c ∈ l /\ c < g /\ forall k, k ∈ l -> k < g -> k <= c).
Proof.
  induction 1 as [|e l Hsorted IH Hle]; intros init; cbv zeta.
  - left. split; [reflexivity |]. intros k Hk. inversion Hk.
  - cbn [foldl]. rewrite Forall_forall in Hle.
    destruct (Z.ltb_spec e g) as [Hlt|Hge].
    + right. destruct (IH e) as [[Hc Hnone] | (Hc & Hcg & Hmax)].
      * rewrite Hc. split; [left |]. split; [exact Hlt |].
        intros k Hk Hkg. apply elem_of_cons in Hk as [-> | Hk]; [lia |].
        specialize (Hnone k Hk). lia.
      * split; [right; exact Hc |]. split; [exact Hcg |].
        intros k Hk Hkg. apply elem_of_cons in Hk as [-> | Hk].
        -- apply Hle. exact Hc.
        -- apply Hmax; assumption.
    + destruct (IH init) as [[Hc Hnone] | (Hc & Hcg & Hmax)].
      * left. split; [exact Hc |].
        intros k Hk. apply elem_of_cons in Hk as [-> | Hk]; [exact Hge |].
        apply Hnone. exact Hk.
      * exfalso. specialize (Hle _ Hc). lia.
Qed.

(** The key [update] looks up. *)
Lemma pick_current_spec (scheme : list (Z * rate)) (g : Z) :
  let c := pick_current (divides_of scheme) g in
  (c = 0 /\ forall k, k ∈ scheme.*1 -> g <= k) \/
  (c ∈ scheme.*1 /\ c < g /\ forall k, k ∈ scheme.*1 -> k < g -> k <= c).
Proof.
  cbv zeta. unfold pick_current, divides_of.
  pose proof (StronglySorted_merge_sort Z.le (scheme.*1)) as Hsorted.
  assert (forall k, k ∈ merge_sort Z.le (scheme.*1) <-> k ∈ scheme.*1) as Hin.
  { intros k. rewrite (merge_sort_Permutation Z.le (scheme.*1)). reflexivity. }
  destruct (pick_sorted g _ Hsorted 0) as [[Hc Hnone] | (Hc & Hcg & Hmax)].
  - left. split; [exact Hc |]. intros k Hk. apply Hnone, Hin. exact Hk.
  - right. split; [apply Hin; exact Hc |]. split; [exact Hcg |].
    intros k Hk. apply Hmax, Hin. exact Hk.
Qed.

Lemma scheme_get_key (scheme : list (Z * rate)) (key : Z) :
  key ∈ scheme.*1 <-> is_Some (scheme_get scheme key).
Proof.
  induction scheme as [|[k v] scheme IH]; cbn [scheme_get fmap list_fmap fst].
  - split; [intros H; inversion H | intros [x H]; discriminate H].
  - rewrite elem_of_cons. destruct (Z.eqb_spec k key) as [->|Hne].
    + split; [intros _; eexists; reflexivity | intros _; left; reflexivity].
    + rewrite <- IH. split; [intros [H | H]; [congruence | exact H] | intros H; right; exact H].
Qed.

(** With the key [0] in the table every step has a rate. *)
Lemma rate_at_is_Some (scheme : list (Z * rate)) (g : Z) :
  is_Some (scheme_get scheme 0) -> is_Some (rate_at scheme g).
Proof.
  intros H0. unfold rate_at.
  destruct (pick_current_spec scheme g) as [[-> _] | (Hc & _)]; [exact H0 |].
  apply scheme_get_key. exact Hc.
Qed.

(** One call, statement by statement. *)
Lemma update_run (lr : option rate) (net : network rate) :
  update lr net =
  if global_step net mod 1000 =? 0 then
    match rate_at (learning_scheme net) (global_step net) with
    | Some r =>
        Outcome (Ok tt)
          (mkNetwork (learning_scheme net) (Some r) (global_step net + 1))
          [sess_run_train (default r lr)]
    | None =>
        Outcome (Raise (KeyError (pick_current (divides_of (learning_scheme net))
                                    (global_step net)))) net []
    end
  else
    match from_option Some (learning_rate net) lr with
    | Some r =>
        Outcome (Ok tt)
          (mkNetwork (learning_scheme net) (learning_rate net) (global_step net + 1))
          [sess_run_train r]
    | None => Outcome (Raise (AttributeError "learning_rate")) net []
    end.
Proof.
  unfold update, get_global_step, sess_run, rate_at. rewrite bind_gets.
  destruct (global_step net mod 1000 =? 0).
  - rewrite bind_assoc, bind_gets. cbv zeta.
    destruct (scheme_get (learning_scheme net) _) as [r|].
    + rewrite bind_modify. destruct lr as [r'|].
      * rewrite bind_ret, bind_emit. reflexivity.
      * rewrite bind_assoc, bind_gets. cbn [learning_rate set_learning_rate].
        rewrite bind_ret, bind_emit. reflexivity.
    + rewrite bind_raise_now. reflexivity.
  - rewrite bind_ret. destruct lr as [r'|]; cbn [from_option].
    + rewrite bind_ret, bind_emit. destruct net; reflexivity.
    + rewrite bind_assoc, bind_gets. destruct (learning_rate net) as [r|] eqn:E.
      * rewrite bind_ret, bind_emit. cbn. rewrite <- E. destruct net; reflexivity.
      * rewrite bind_raise_now. destruct net; reflexivity.
Qed.

(** X13. The rate [update] trains with.  At a step that is not a
    multiple of 1000 the stored rate is left alone: the session is run
    with [lr] if given and with the stored rate otherwise, and when no
    rate was ever stored the call ends in [AttributeError] before the
    session is run.  At a multiple of 1000 the rate is looked up at the
    largest key of the table strictly below the step - at key [0] when
    no key is below - so a key equal to the step is not yet used; the
    rate found is stored and the session run with it (or with [lr]);
    when the key looked up is missing, which can only be key [0], the
    call ends in [KeyError] and nothing is changed.  A call that runs
    the session leaves the step counter one higher. *)
Theorem update_picks_rate_below_step (lr : option rate) (net : network rate) :
  let g := global_step net in
  let scheme := learning_scheme net in
  let o := update lr net in
  (g mod 1000 <> 0 ->
     match from_option Some (learning_rate net) lr with
     | Some r =>
         o = Outcome (Ok tt) (mkNetwork scheme (learning_rate net) (g + 1))
               [sess_run_train r]
     | None => o = Outcome (Raise (AttributeError "learning_rate")) net []
     end) /\
  (g mod 1000 = 0 ->
     exists current,
       ((current = 0 /\ forall k, k ∈ scheme.*1 -> g <= k) \/
        (current ∈ scheme.*1 /\ current < g /\
         forall k, k ∈ scheme.*1 -> k < g -> k <= current)) /\
       match scheme_get scheme current with
       | Some r =>
           o = Outcome (Ok tt) (mkNetwork scheme (Some r) (g + 1))
                 [sess_run_train (default r lr)]
       | None => current = 0 /\ o = Outcome (Raise (KeyError 0)) net []
       end).
Proof.
  cbv zeta. rewrite update_run. split.
  - intros Hmod. rewrite (proj2 (Z.eqb_neq _ _) Hmod).
    destruct (from_option Some (learning_rate net) lr); reflexivity.
  - intros Hmod. rewrite (proj2 (Z.eqb_eq _ _) Hmod).
    exists (pick_current (divides_of (learning_scheme net)) (global_step net)).
    split; [apply pick_current_spec |].
    unfold rate_at.
    destruct (scheme_get (learning_scheme net) _) as [r|] eqn:Hget; [reflexivity |].
    destruct (pick_current_spec (learning_scheme net) (global_step net))
      as [[Hc _] | (Hc & _)].
    + rewrite Hc. split; reflexivity.
    + apply scheme_get_key in Hc as [r Hr]. congruence.
Qed.

(** A run of calls of [update(data)] that starts at a multiple of 1000. *)
Lemma updates_run (scheme : list (Z * rate)) :
  is_Some (scheme_get scheme 0) ->
  forall n net,
    learning_scheme net = scheme ->
    (global_step net mod 1000 = 0 \/
     learning_rate net = rate_at scheme (1000 * (global_step net / 1000))) ->
    let o := updates n net in
    res o = Ok tt /\
    global_step (final o) = global_step net + Z.of_nat n /\
    Some <$> fed_rates (events o) =
      (fun i => rate_at scheme (1000 * ((global_step net + Z.of_nat i) / 1000)))
        <$> seq 0 n.
Proof.
  intros H0. induction n as [|n IH]; intros net Hscheme Hinv; cbv zeta.
  - cbn. split; [reflexivity |]. split; [lia | reflexivity].
  - cbn [updates].
    destruct (rate_at_is_Some scheme (1000 * (global_step net / 1000)) H0) as [r Hr].
    assert (exists net',
              update None net = Outcome (Ok tt) net' [sess_run_train r] /\
              learning_scheme net' = scheme /\
              global_step net' = global_step net + 1 /\
              learning_rate net' = Some r) as (net' & Hrun & Hs' & Hg' & Hlr').
    { rewrite update_run, Hscheme.
      destruct (Z.eqb_spec (global_step net mod 1000) 0) as [Hmod|Hmod].
      - assert (1000 * (global_step net / 1000) = global_step net) as Hg
          by (Z.div_mod_to_equations; lia).
        rewrite Hg in Hr. rewrite Hr. eexists. split; [reflexivity |].
        cbn. repeat split; reflexivity.
      - destruct Hinv as [Hinv | Hinv]; [contradiction |].
        cbn [from_option]. rewrite Hinv, Hr. eexists. split; [reflexivity |].
        cbn. split; [reflexivity |]. split; [reflexivity | congruence]. }
    rewrite (bind_run _ _ _ _ _ _ Hrun).
    rewrite res_logged, final_logged, events_logged.
    destruct (IH net' Hs') as (Hres & Hstep & Hfed).
    { rewrite Hg', Hlr', <- Hr.
      destruct (Z.eqb_spec ((global_step net + 1) mod 1000) 0) as [Hmod|Hmod];
        [left; exact Hmod | right].
      do 2 f_equal. Z.div_mod_to_equations. lia. }
    cbv zeta in Hres, Hstep, Hfed.
    split; [exact Hres |]. split; [rewrite Hstep, Hg'; lia |].
    change (fed_rates ([sess_run_train r] ++ events (updates n net')))
      with (r :: fed_rates (events (updates n net'))).
    cbn [seq]. rewrite !fmap_cons.
    rewrite Z.add_0_r. f_equal; [symmetry; exact Hr |].
    rewrite Hfed, <- fmap_S_seq, <- list_fmap_compose.
    apply list_fmap_ext. intros i x _. cbn. rewrite Hg'.
    do 3 f_equal. lia.
Qed.

(** X14. The schedule comes into force a period late.  With the key
    [0] in the table, a run of calls of [update(data)] that starts at a
    step that is a multiple of 1000 never raises; every call advances
    the step by one, and the call at step [g] trains with the rate the
    table gives for the last multiple of 1000 up to [g], whatever rate
    was stored before the run.  As the key looked up is strictly below
    that multiple, a key [b > 0] that is itself a multiple of 1000 is
    not yet looked up at step [b]: it is at step [b + 1000], when no
    other key lies in between. *)
Theorem rate_changes_a_period_late
    (scheme : list (Z * rate)) (own : option rate) (g0 : Z) (n : nat) :
  is_Some (scheme_get scheme 0) ->
  g0 mod 1000 = 0 ->
  let o := updates n (mkNetwork scheme own g0) in
  res o = Ok tt /\
  global_step (final o) = g0 + Z.of_nat n /\
  Some <$> fed_rates (events o) =
    (fun i => rate_at scheme (1000 * ((g0 + Z.of_nat i) / 1000))) <$> seq 0 n /\
  (forall b,
     b ∈ scheme.*1 -> 0 < b ->
     (forall k, k ∈ scheme.*1 -> k <= b \/ b + 1000 <= k) ->
     pick_current (divides_of scheme) b < b /\
     pick_current (divides_of scheme) (b + 1000) = b).
Proof.
  intros H0 Hmod. cbv zeta.
  destruct (updates_run scheme H0 n (mkNetwork scheme own g0) eq_refl
              (or_introl Hmod)) as (Hres & Hstep & Hfed).
  split; [exact Hres |]. split; [exact Hstep |]. split; [exact Hfed |].
  intros b Hb Hpos Hgap. split.
  - destruct (pick_current_spec scheme b) as [[-> _] | (_ & Hlt & _)]; lia.
  - destruct (pick_current_spec scheme (b + 1000)) as [[_ Hnone] | (Hc & Hlt & Hmax)].
    + specialize (Hnone b Hb). lia.
    + specialize (Hmax b Hb ltac:(lia)). destruct (Hgap _ Hc); lia.
Qed.

End Schedule.

Section ScheduleExample.
Import Network.

(** With the table [{0: 10, 2000: 1}] the calls at the steps 2000 and
    2001 still train with the rate of key [0]. *)
Lemma rate_changes_a_period_late_example :
  Some <$> fed_rates (events (updates 2 (mkNetwork [(0, 10); (2000, 1)] None 2000)))
  = [Some 10; Some 10].
Proof.
  destruct (rate_changes_a_period_late [(0, 10); (2000, 1)] None 2000 2)
    as (_ & _ & Hfed & _).
  { eexists. reflexivity. }
  { reflexivity. }
  rewrite Hfed. reflexivity.
Defined.

End ScheduleExample.
